(** * CloudFront distribution filters and actions (c7n/resources/cloudfront.py)

    A shallow embedding of the [waf-enabled] and [check-s3-origin] filters
    and of the [set-waf], [disable] and [set-protocols] actions, together
    with the properties of the selection-and-mutation engine that they
    implement.

    Remote services (CloudFront, S3) are abstract: every statement is
    quantified over an arbitrary implementation of the client interfaces.
    A computation returns its result, the final remote state and the trace
    of the remote calls and log records it produced, in the order they
    were made.  The actions that hand their resources to a pool of two
    workers are run under every schedule of the workers' calls. *)

From Stdlib Require Import Ascii.
From stdpp Require Import gmap strings pretty list fin_maps.

Open Scope string_scope.
Open Scope list_scope.

(** ** Exceptions and results *)

(** The Python exceptions the module can see.  [ClientError] carries
    [e.response['Error']['Code']]. *)
Inductive exn : Type :=
| ClientError (code : string)
| ValueError (msg : string)
| KeyError (key : string)
| OtherException (what : string).

Inductive result (A : Type) : Type :=
| Ok (a : A)
| Raise (e : exn).
Arguments Ok {A} a.
Arguments Raise {A} e.

Definition is_ok {A} (r : result A) : bool :=
  match r with Ok _ => true | Raise _ => false end.

Global Instance exn_eq_dec : EqDecision exn.
Proof. solve_decision. Defined.

(** ** Data model *)

(** An entry of the WAF resource manager's listing. *)
Module Waf.
Record t : Type := mk { Name : string; WebACLId : string }.
End Waf.

Module CustomOrigin.
(** [item['CustomOriginConfig']], with the nested
    [OriginSslProtocols] dict flattened into its two keys. *)
Record t : Type := mk {
  OriginProtocolPolicy : string;
  OriginSslProtocols_Items : list string;
  OriginSslProtocols_Quantity : nat }.
End CustomOrigin.

Module CacheBehavior.
(** An element of [CacheBehaviors.Items]. *)
Record t : Type := mk { PathPattern : string; ViewerProtocolPolicy : string }.
End CacheBehavior.

Module Origin.
(** An element of [Origins.Items].  [S3OriginConfig] records whether the
    key is present; [CustomOriginConfig] is [None] when the key is absent
    (or falsy). *)
Record t : Type := mk {
  DomainName : string;
  S3OriginConfig : bool;
  CustomOriginConfig : option CustomOrigin.t }.
End Origin.

Module Resource.
(** A distribution snapshot as produced by the resource enumeration.
    [WebACLId] is [None] when the dict has no such key; ["c7n:s3-origin"]
    is the annotation written by the [check-s3-origin] filter. *)
Record t : Type := mk {
  Id : string;
  ARN : string;
  WebACLId : option string;
  Origins_Items : list Origin.t;
  c7n_s3_origin : bool }.
End Resource.

Module Config.
(** [result['DistributionConfig']]: the document returned by
    [get_distribution_config].  [Items] lists are optional, as the code
    reads them with [.get('Items', [])]. *)
Record t : Type := mk {
  WebACLId : string;
  Enabled : bool;
  CacheBehaviors_Items : option (list CacheBehavior.t);
  DefaultCacheBehavior_ViewerProtocolPolicy : string;
  Origins_Items : option (list Origin.t) }.

Definition set_WebACLId (v : string) (c : t) : t :=
  mk v (Enabled c) (CacheBehaviors_Items c)
     (DefaultCacheBehavior_ViewerProtocolPolicy c) (Origins_Items c).

Definition set_Enabled (v : bool) (c : t) : t :=
  mk (WebACLId c) v (CacheBehaviors_Items c)
     (DefaultCacheBehavior_ViewerProtocolPolicy c) (Origins_Items c).
End Config.

(** The [accounts_from] descriptor handed to [c7n.resolver.ValuesFrom]. *)
Module ValuesFrom.
Record t : Type := mk { url : string; expr : string }.
End ValuesFrom.

(** The policy data ([self.data]) of each filter and action.  A key the
    schema leaves optional is an [option]. *)
Module IsWafEnabledData.
Record t : Type := mk { web_acl : option string; state : option bool }.
End IsWafEnabledData.

Module CheckS3OriginData.
Record t : Type := mk { accounts_from : option ValuesFrom.t }.
End CheckS3OriginData.

Module SetWafData.
(** ['web-acl'] is required by the schema; ['state'] is accepted by the
    schema and never read. *)
Record t : Type := mk {
  web_acl : string; force : option bool; state : option bool }.
End SetWafData.

Module SetProtocolsData.
Record t : Type := mk {
  OriginProtocolPolicy : option string;
  OriginSslProtocols : option (list string);
  ViewerProtocolPolicy : option string }.
End SetProtocolsData.

Global Instance custom_origin_eq_dec : EqDecision CustomOrigin.t.
Proof. solve_decision. Defined.
Global Instance cache_behavior_eq_dec : EqDecision CacheBehavior.t.
Proof. solve_decision. Defined.
Global Instance origin_eq_dec : EqDecision Origin.t.
Proof. solve_decision. Defined.
Global Instance resource_eq_dec : EqDecision Resource.t.
Proof. solve_decision. Defined.
Global Instance config_eq_dec : EqDecision Config.t.
Proof. solve_decision. Defined.

(** Python truthiness of [r.get('WebACLId')]: the key is present and its
    value is a non-empty string. *)
Definition truthy (o : option string) : bool :=
  match o with
  | Some s => negb (bool_decide (s = ""))
  | None => false
  end.

(** ** Cross-resource lookup: names to identifiers *)

(** [{w['Name']: w['WebACLId'] for w in wafs}]: later entries overwrite
    earlier ones with the same name. *)
Definition waf_name_id_map (wafs : list Waf.t) : gmap string string :=
  foldl (fun m w => <[Waf.Name w := Waf.WebACLId w]> m) ∅ wafs.

(** [x in waf_name_id_map.values()] *)
Definition in_values (x : string) (m : gmap string string) : bool :=
  bool_decide (x ∈ (map_to_list m).*2).

(** Lines 260-265 of [SetWaf.process]: the reference is looked up by name
    first and falls back to itself; the outcome must be one of the map's
    values. *)
Definition resolve (wafs : list Waf.t) (target_acl : string) : result string :=
  let m := waf_name_id_map wafs in
  let target_acl_id := default target_acl (m !! target_acl) in
  if in_values target_acl_id m then Ok target_acl_id
  else Raise (ValueError ("invalid web acl: " +:+ target_acl_id)).

(** Lines 163-170 of [IsWafEnabled.process]: the reference is optional and
    the membership test is only made for a truthy outcome. *)
Definition resolve_filter (wafs : list Waf.t) (target_acl : option string)
  : result (option string) :=
  let m := waf_name_id_map wafs in
  let target_acl_id :=
    match target_acl with
    | Some t => Some (default t (m !! t))
    | None => None
    end in
  match target_acl_id with
  | Some i =>
      if truthy (Some i) && negb (in_values i m)
      then Raise (ValueError ("invalid web acl: " +:+ i))
      else Ok (Some i)
  | None => Ok None
  end.

(** ** Traces *)

Inductive log_record : Type :=
| WarningDisable (arn : string) (e : exn)
    (* "Exception trying to disable Distribution: %s error: %s" *)
| WarningForceSsl (arn : string) (e : exn)
    (* "Exception trying to force ssl on Distribution: %s error: %s" *)
| DebugBucketExists (bucket : string)
| DebugOwnerNotInAccounts (bucket : string)
| DebugNonAccessible (bucket : string)
| DebugNonExistent (bucket : string).

(** What an observer of the run sees: each remote call with its arguments
    and its answer, and each log record. *)
Inductive event : Type :=
| GetDistributionConfig (id : string) (res : result (Config.t * string))
| UpdateDistribution (id : string) (cfg : Config.t) (if_match : string)
    (res : result unit)
| GetBucketAcl (bucket : string) (res : result string)
| Log (rec : log_record).

Definition is_fetch (ev : event) : bool :=
  match ev with GetDistributionConfig _ _ => true | _ => false end.

Definition is_write (ev : event) : bool :=
  match ev with UpdateDistribution _ _ _ _ => true | _ => false end.

Definition is_warning (ev : event) : bool :=
  match ev with
  | Log (WarningDisable _ _) | Log (WarningForceSsl _ _) => true
  | _ => false
  end.

(** The identifiers fetched, in order. *)
Definition fetched_ids (tr : list event) : list string :=
  omap (fun ev => match ev with
                  | GetDistributionConfig id _ => Some id
                  | _ => None
                  end) tr.

(** The identifiers whose write was accepted by the service, in order. *)
Definition mutated_ids (tr : list event) : list string :=
  omap (fun ev => match ev with
                  | UpdateDistribution id _ _ (Ok _) => Some id
                  | _ => None
                  end) tr.

(** ** Remote clients *)

(** The boto3 clients, over an arbitrary remote state [R].  A call returns
    its answer (or the exception it raises) and the next remote state.
    [get_distribution_config] answers [(DistributionConfig, ETag)];
    [get_bucket_acl] answers [b['Owner']['ID']]. *)
Class CloudFrontClient (R : Type) : Type := {
  get_distribution_config : string -> R -> result (Config.t * string) * R;
  update_distribution : string -> Config.t -> string -> R -> result unit * R }.

Class S3Client (R : Type) : Type := {
  get_bucket_acl : string -> R -> result string * R }.

(** ** A state, exception and trace monad *)

Definition M (R A : Type) : Type := R -> result A * R * list event.

Definition ret {R A} (a : A) : M R A := fun s => (Ok a, s, []).

Definition raise {R A} (e : exn) : M R A := fun s => (Raise e, s, []).

Definition bind {R A B} (m : M R A) (f : A -> M R B) : M R B :=
  fun s =>
    match m s with
    | (Ok a, s1, t1) =>
        match f a s1 with
        | (r, s2, t2) => (r, s2, t1 ++ t2)
        end
    | (Raise e, s1, t1) => (Raise e, s1, t1)
    end.

(** [try: m except Exception as e: h e] *)
Definition try_except {R A} (m : M R A) (h : exn -> M R A) : M R A :=
  fun s =>
    match m s with
    | (Ok a, s1, t1) => (Ok a, s1, t1)
    | (Raise e, s1, t1) =>
        match h e s1 with
        | (r, s2, t2) => (r, s2, t1 ++ t2)
        end
    end.

(** [try: m except ClientError as e: h e.response['Error']['Code']]; any
    other exception passes through. *)
Definition try_except_ClientError {R A} (m : M R A) (h : string -> M R A)
  : M R A :=
  fun s =>
    match m s with
    | (Raise (ClientError code), s1, t1) =>
        match h code s1 with
        | (r, s2, t2) => (r, s2, t1 ++ t2)
        end
    | other => other
    end.

Definition log {R} (rec : log_record) : M R unit :=
  fun s => (Ok tt, s, [Log rec]).

Definition call {R A} (op : R -> result A * R) (ev : result A -> event)
  : M R A :=
  fun s => match op s with (r, s1) => (r, s1, [ev r]) end.

Notation "x <- m ;; k" := (bind m (fun x => k))
  (at level 100, m at next level, right associativity).
Notation "m ;;; k" := (bind m (fun _ => k))
  (at level 100, right associativity).

(** [for x in l: body x]; an exception leaves the loop. *)
Fixpoint for_each {R A} (body : A -> M R unit) (l : list A) : M R unit :=
  match l with
  | [] => ret tt
  | x :: l' => body x ;;; for_each body l'
  end.

Definition outcome {R A} (x : result A * R * list event) : result A :=
  x.1.1.
Definition final {R A} (x : result A * R * list event) : R := x.1.2.
Definition trace {R A} (x : result A * R * list event) : list event := x.2.

Section Engine.
Context {R : Type} `{CF : CloudFrontClient R} `{S3 : S3Client R}.

Definition client_get_distribution_config (id : string)
  : M R (Config.t * string) :=
  call (get_distribution_config id) (GetDistributionConfig id).

Definition client_update_distribution (id : string) (cfg : Config.t)
    (if_match : string) : M R unit :=
  call (update_distribution id cfg if_match)
       (UpdateDistribution id cfg if_match).

Definition client_get_bucket_acl (bucket : string) : M R string :=
  call (get_bucket_acl bucket) (GetBucketAcl bucket).

(** *** Retry policy *)

(** Modelled from the spec: [c7n.utils.get_retry] is imported but not
    among the sources.  Section 4.6: error codes in the retryable set are
    retried with a bounded number of attempts, any other error is
    immediately terminal, and exhausting the attempts turns the error
    into a terminal failure.  [retries] is the number of attempts left
    after the current one; the backoff delay is not modelled. *)
Fixpoint retry_loop {A} (codes : list string) (retries : nat)
    (func : M R A) : M R A :=
  fun s =>
    match func s with
    | (Ok a, s1, t1) => (Ok a, s1, t1)
    | (Raise (ClientError code), s1, t1) =>
        if bool_decide (code ∈ codes) then
          match retries with
          | 0 => (Raise (ClientError code), s1, t1)
          | S n =>
              match retry_loop codes n func s1 with
              | (r, s2, t2) => (r, s2, t1 ++ t2)
              end
          end
        else (Raise (ClientError code), s1, t1)
    | (Raise e, s1, t1) => (Raise e, s1, t1)
    end.

(** The attempt budget of [get_retry] is a parameter of the module. *)
Variable max_attempts : nat.
(** [ValuesFrom(data, manager).get_values()], an external collaborator. *)
Variable get_values : ValuesFrom.t -> result (list string).

(** [retry = staticmethod(get_retry(('Throttling',)))] *)
Definition retry {A} (func : M R A) : M R A :=
  retry_loop ["Throttling"] (max_attempts - 1) func.


(** *** waf-enabled filter *)

(** The [if]/[elif] chain of lines 175-182 for one resource: [Ok true]
    when the resource is appended to the results.  [r['WebACLId']] raises
    [KeyError] when the key is absent; [and] evaluates it only when the
    operands before it are truthy. *)
Definition getitem_WebACLId (r : Resource.t) : result string :=
  match Resource.WebACLId r with
  | Some a => Ok a
  | None => Raise (KeyError "WebACLId")
  end.

Definition waf_enabled_match (state : bool) (target_acl_id : option string)
    (r : Resource.t) : result bool :=
  if state && bool_decide (target_acl_id = None)
     && truthy (Resource.WebACLId r) then Ok true
  else if negb state && bool_decide (target_acl_id = None)
          && negb (truthy (Resource.WebACLId r)) then Ok true
  else
    match (if state && truthy target_acl_id then
             match getitem_WebACLId r with
             | Ok a => Ok (bool_decide (Some a = target_acl_id))
             | Raise e => Raise e
             end
           else Ok false) with
    | Raise e => Raise e
    | Ok true => Ok true
    | Ok false =>
        if negb state && truthy target_acl_id then
          match getitem_WebACLId r with
          | Ok a => Ok (negb (bool_decide (Some a = target_acl_id)))
          | Raise e => Raise e
          end
        else Ok false
    end.

(** [results = []; for r in resources: if ...: results.append(r)] *)
Fixpoint select (p : Resource.t -> result bool) (resources : list Resource.t)
  : result (list Resource.t) :=
  match resources with
  | [] => Ok []
  | r :: rest =>
      match p r with
      | Raise e => Raise e
      | Ok b =>
          match select p rest with
          | Raise e => Raise e
          | Ok results => Ok (if b then r :: results else results)
          end
      end
  end.

Definition IsWafEnabled_process (wafs : list Waf.t)
    (data : IsWafEnabledData.t) (resources : list Resource.t)
  : result (list Resource.t) :=
  match resolve_filter wafs (IsWafEnabledData.web_acl data) with
  | Raise e => Raise e
  | Ok target_acl_id =>
      let state := default false (IsWafEnabledData.state data) in
      select (waf_enabled_match state target_acl_id) resources
  end.

(** *** check-s3-origin filter *)

(** [x['DomainName'].split('.', 1)[0]] *)
Fixpoint before_dot (s : string) : string :=
  match s with
  | EmptyString => EmptyString
  | String c s' =>
      if Ascii.eqb c "."%char then EmptyString else String c (before_dot s')
  end.

(** [accounts and b['Owner']['ID'] not in accounts] (line 228) *)
Definition owner_rejected (accounts : list string) (owner : string)
  : bool :=
  negb (bool_decide (accounts = []))
  && negb (bool_decide (owner ∈ accounts)).

Definition set_c7n_s3_origin (r : Resource.t) : Resource.t :=
  Resource.mk (Resource.Id r) (Resource.ARN r) (Resource.WebACLId r)
              (Resource.Origins_Items r) true.

(** The body of the inner loop (lines 221-242) for origin [x] of [r].
    The state is the current value of [r] and the [results] list.  Every
    entry appended for [r] is the same object, annotated before the first
    append, so appending the annotated value loses nothing. *)
Definition check_origin (accounts : list string) (x : Origin.t)
    (st : Resource.t * list Resource.t)
  : M R (Resource.t * list Resource.t) :=
  let '(r, results) := st in
  if Origin.S3OriginConfig x then
    let target_bucket := before_dot (Origin.DomainName x) in
    try_except_ClientError
      (owner <- client_get_bucket_acl target_bucket ;;
       log (DebugBucketExists target_bucket) ;;;
       if owner_rejected accounts owner
       then log (DebugOwnerNotInAccounts target_bucket) ;;;
            ret (r, results)
       else let r' := set_c7n_s3_origin r in
            ret (r', results ++ [r']))
      (fun code =>
         if bool_decide (code = "AccessDenied") then
           log (DebugNonAccessible target_bucket) ;;; ret (r, results)
         else if bool_decide (code = "NoSuchBucket") then
           log (DebugNonExistent target_bucket) ;;; ret (r, results)
         else raise (ClientError code))
  else ret (r, results).

(** A loop that threads a state through its iterations. *)
Fixpoint fold_m {A St} (body : A -> St -> M R St) (l : list A) (st : St)
  : M R St :=
  match l with
  | [] => ret st
  | x :: l' => st' <- body x st ;; fold_m body l' st'
  end.

Definition check_resource (accounts : list string) (r : Resource.t)
    (results : list Resource.t) : M R (list Resource.t) :=
  st <- fold_m (check_origin accounts) (Resource.Origins_Items r)
               (r, results) ;;
  ret st.2.

Definition CheckS3Origin_process (data : CheckS3OriginData.t)
    (resources : list Resource.t) : M R (list Resource.t) :=
  match CheckS3OriginData.accounts_from data with
  | None => raise (KeyError "accounts_from")
  | Some src =>
      match get_values src with
      | Raise e => raise e
      | Ok accounts => fold_m (check_resource accounts) resources []
      end
  end.

(** *** set-waf action *)

(** The body of the loop of lines 271-281.  [skips] is the pair of
    [continue] tests, made on the snapshot [r]. *)
Definition SetWaf_skips (force : bool) (target_acl_id : string)
    (r : Resource.t) : bool :=
  (truthy (Resource.WebACLId r) && negb force)
  || bool_decide (Resource.WebACLId r = Some target_acl_id).

Definition SetWaf_process_resource (force : bool) (target_acl_id : string)
    (r : Resource.t) : M R unit :=
  if truthy (Resource.WebACLId r) && negb force then ret tt
  else if bool_decide (Resource.WebACLId r = Some target_acl_id) then ret tt
  else
    result <- client_get_distribution_config (Resource.Id r) ;;
    let config := Config.set_WebACLId target_acl_id result.1 in
    retry (client_update_distribution (Resource.Id r) config result.2).

Definition SetWaf_process (wafs : list Waf.t) (data : SetWafData.t)
    (resources : list Resource.t) : M R unit :=
  match resolve wafs (SetWafData.web_acl data) with
  | Raise e => raise e
  | Ok target_acl_id =>
      let force := default false (SetWafData.force data) in
      for_each (SetWaf_process_resource force target_acl_id) resources
  end.

(** *** disable action *)

Definition DistributionDisableAction_process_distribution
    (distribution : Resource.t) : M R unit :=
  try_except
    (res <- client_get_distribution_config (Resource.Id distribution) ;;
     let cfg := Config.set_Enabled false res.1 in
     client_update_distribution (Resource.Id distribution) cfg res.2)
    (fun e => log (WarningDisable (Resource.ARN distribution) e)).

(** The invocations of [process_distribution] made one after the other,
    in list order.  This is the run of [process] under an executor that
    works through its tasks one at a time; [process] over two workers,
    with every interleaving of their calls, is
    [DistributionDisableAction_process] below, and lemma
    [disable_serial_schedule] relates the two. *)
Definition DistributionDisableAction_process_serial
    (distributions : list Resource.t) : M R unit :=
  for_each DistributionDisableAction_process_distribution distributions.

(** *** set-protocols action *)

Definition set_protocols_cache_behavior (data : SetProtocolsData.t)
    (item : CacheBehavior.t) : CacheBehavior.t :=
  CacheBehavior.mk (CacheBehavior.PathPattern item)
    (default (CacheBehavior.ViewerProtocolPolicy item)
             (SetProtocolsData.ViewerProtocolPolicy data)).

Definition set_protocols_origin (data : SetProtocolsData.t)
    (item : Origin.t) : Origin.t :=
  match Origin.CustomOriginConfig item with
  | Some c =>
      let items := default (CustomOrigin.OriginSslProtocols_Items c)
                           (SetProtocolsData.OriginSslProtocols data) in
      Origin.mk (Origin.DomainName item) (Origin.S3OriginConfig item)
        (Some (CustomOrigin.mk
                 (default (CustomOrigin.OriginProtocolPolicy c)
                          (SetProtocolsData.OriginProtocolPolicy data))
                 items (length items)))
  | None => item
  end.

(** Lines 430-449: the patch applied to the fetched document. *)
Definition set_protocols_transform (data : SetProtocolsData.t)
    (dc : Config.t) : Config.t :=
  Config.mk (Config.WebACLId dc) (Config.Enabled dc)
    (map (set_protocols_cache_behavior data) <$> Config.CacheBehaviors_Items dc)
    (default (Config.DefaultCacheBehavior_ViewerProtocolPolicy dc)
             (SetProtocolsData.ViewerProtocolPolicy data))
    (map (set_protocols_origin data) <$> Config.Origins_Items dc).

Definition DistributionSSLAction_process_distribution
    (data : SetProtocolsData.t) (distribution : Resource.t) : M R unit :=
  try_except
    (res <- client_get_distribution_config (Resource.Id distribution) ;;
     let etag := res.2 in
     let dc := set_protocols_transform data res.1 in
     client_update_distribution (Resource.Id distribution) dc etag)
    (fun e => log (WarningForceSsl (Resource.ARN distribution) e)).

(** The invocations made one after the other, in list order; see
    [DistributionSSLAction_process] and lemma
    [set_protocols_serial_schedule]. *)
Definition DistributionSSLAction_process_serial (data : SetProtocolsData.t)
    (distributions : list Resource.t) : M R unit :=
  for_each (DistributionSSLAction_process_distribution data) distributions.

End Engine.

(** The common body of the two [process_distribution] methods of disable
    and set-protocols: one fetch, one write conditioned on the fetched
    ETag, and a handler that logs whatever was raised.  Both methods are
    instances of it (lemmas [disable_is_cycle], [set_protocols_is_cycle]). *)
Definition cycle {R} `{CF : CloudFrontClient R} (id : string)
    (patch : Config.t → Config.t) (warn : exn → log_record) : M R unit :=
  try_except
    (res <- client_get_distribution_config id ;;
     client_update_distribution id (patch res.1) res.2)
    (fun e => log (warn e)).

(** ** Properties of traces *)

(** The token discipline of conditional writes.  [held] maps a resource
    identifier to the ETag returned by its latest fetch; a fetch replaces
    the entry, an accepted write uses it up, a rejected write leaves it.
    The trace is accepted when every write carries the token held for its
    resource. *)
Fixpoint token_discipline (held : gmap string string) (tr : list event)
  : bool :=
  match tr with
  | [] => true
  | GetDistributionConfig id (Ok (_, etag)) :: tr' =>
      token_discipline (<[id := etag]> held) tr'
  | GetDistributionConfig id (Raise _) :: tr' =>
      token_discipline (delete id held) tr'
  | UpdateDistribution id _ if_match res :: tr' =>
      bool_decide (held !! id = Some if_match)
      && token_discipline (if is_ok res then delete id held else held) tr'
  | _ :: tr' => token_discipline held tr'
  end.

(** A trace that keeps the discipline whatever precedes and follows it:
    every write in it carries a token fetched within it. *)
Definition disciplined (tr : list event) : Prop :=
  ∀ held, ∃ held', ∀ rest,
    token_discipline held (tr ++ rest) = token_discipline held' rest.

(** The number of remote calls of the CloudFront API in a trace. *)
Definition count_fetches (tr : list event) : nat :=
  length (filter (fun ev => is_fetch ev = true) tr).
Definition count_writes (tr : list event) : nat :=
  length (filter (fun ev => is_write ev = true) tr).
Definition count_warnings (tr : list event) : nat :=
  length (filter (fun ev => is_warning ev = true) tr).

(** The buckets whose ACL was requested, in order. *)
Definition checked_buckets (tr : list event) : list string :=
  omap (fun ev => match ev with
                  | GetBucketAcl b _ => Some b
                  | _ => None
                  end) tr.

(** The error of a dependency check that the filter does not absorb. *)
Definition fatal (ev : event) : option exn :=
  match ev with
  | GetBucketAcl _ (Raise (ClientError code)) =>
      if bool_decide (code = "AccessDenied") then None
      else if bool_decide (code = "NoSuchBucket") then None
      else Some (ClientError code)
  | GetBucketAcl _ (Raise e) => Some e
  | _ => None
  end.

(** The S3 sub-references of a resource: the bucket of every origin that
    has an [S3OriginConfig], in order. *)
Definition origin_buckets (x : Origin.t) : list string :=
  if Origin.S3OriginConfig x then [before_dot (Origin.DomainName x)] else [].

Definition s3_buckets (r : Resource.t) : list string :=
  flat_map origin_buckets (Resource.Origins_Items r).

(** What a run of the dependency filter looks like from outside: a run
    that returns has absorbed every failed check of its trace; a run that
    raises [e] ends on the check that answered [e], which it does not
    absorb, and has absorbed every failed check before it. *)
Definition pass_invariant {R A} (x : result A * R * list event) : Prop :=
  match outcome x with
  | Ok _ => Forall (λ ev, fatal ev = None) (trace x)
  | Raise e =>
      ∃ tr b, trace x = tr ++ [GetBucketAcl b (Raise e)]
              ∧ fatal (GetBucketAcl b (Raise e)) = Some e
              ∧ Forall (λ ev, fatal ev = None) tr
  end.

(** ** The specification's reading of two protocol steps

    These two definitions follow the words of the specification, not the
    code; they are what the code is compared with. *)

(** Section 4.4, Write: "If the remote service reports a version-mismatch
    condition, [...] the mutator restarts at Fetch": every write rejected
    with [conflict] is followed by a fetch of the same resource. *)
Fixpoint restarts_at_fetch (conflict : string) (tr : list event) : bool :=
  match tr with
  | [] => true
  | UpdateDistribution id _ _ (Raise (ClientError code)) :: tr' =>
      (negb (bool_decide (code = conflict))
       || bool_decide (id ∈ fetched_ids tr'))
      && restarts_at_fetch conflict tr'
  | _ :: tr' => restarts_at_fetch conflict tr'
  end.

(** Section 4.4, Decide: the skip tests of set-waf "run against the
    just-fetched configuration". *)
Definition skips_on_fetched (force : bool) (target_acl_id : string)
    (cfg : Config.t) : bool :=
  (truthy (Some (Config.WebACLId cfg)) && negb force)
  || bool_decide (Config.WebACLId cfg = target_acl_id).

(** ** The lookup table as the specification names it *)

Definition known_name (m : gmap string string) (x : string) : Prop :=
  is_Some (m !! x).

Definition known_identifier (m : gmap string string) (x : string) : Prop :=
  ∃ n, m !! n = Some x.

(** ** A concrete remote service

    Distributions are stored with a version counter; the ETag of version
    [n] is ["E"] followed by [n].  [update_distribution] accepts a write
    only when [IfMatch] is the ETag of the stored version.  Three knobs
    produce the failures of the real service: [rivals] lists distributions
    that another writer modifies right after their next fetch, [broken]
    lists distributions whose update fails with an internal error, and
    [throttled] is the number of coming updates rejected with
    [Throttling]. *)
Module Mock.

Record t : Type := mk {
  store : gmap string (Config.t * nat);
  rivals : list string;
  broken : list string;
  throttled : nat;
  buckets : gmap string (result string) }.

Definition etag (n : nat) : string := "E" +:+ pretty n.

Definition fetch (id : string) (s : t) : result (Config.t * string) * t :=
  match store s !! id with
  | None => (Raise (ClientError "NoSuchDistribution"), s)
  | Some (cfg, n) =>
      (Ok (cfg, etag n),
       if bool_decide (id ∈ rivals s)
       then mk (<[id := (cfg, S n)]> (store s))
               (filter (fun x => x ≠ id) (rivals s))
               (broken s) (throttled s) (buckets s)
       else s)
  end.

Definition update (id : string) (cfg : Config.t) (if_match : string)
    (s : t) : result unit * t :=
  match throttled s with
  | S k =>
      (Raise (ClientError "Throttling"),
       mk (store s) (rivals s) (broken s) k (buckets s))
  | 0 =>
      if bool_decide (id ∈ broken s)
      then (Raise (ClientError "InternalError"), s)
      else
        match store s !! id with
        | None => (Raise (ClientError "NoSuchDistribution"), s)
        | Some (_, n) =>
            if bool_decide (if_match = etag n)
            then (Ok tt,
                  mk (<[id := (cfg, S n)]> (store s)) (rivals s)
                     (broken s) (throttled s) (buckets s))
            else (Raise (ClientError "PreconditionFailed"), s)
        end
  end.

Definition bucket_acl (b : string) (s : t) : result string * t :=
  match buckets s !! b with
  | Some ans => (ans, s)
  | None => (Raise (ClientError "NoSuchBucket"), s)
  end.

Global Instance cloudfront : CloudFrontClient t :=
  {| get_distribution_config := fetch; update_distribution := update |}.

Global Instance s3 : S3Client t := {| get_bucket_acl := bucket_acl |}.

Definition config (web_acl_id : string) : Config.t :=
  Config.mk web_acl_id true None "allow-all" None.

Definition distribution (id : string) (web_acl_id : option string)
  : Resource.t :=
  Resource.mk id ("arn:aws:cloudfront::123456789012:distribution/" +:+ id)
              web_acl_id [] false.

(** The lookup table of the specification's example. *)
Definition wafs : list Waf.t :=
  [Waf.mk "acl-a" "id-123"; Waf.mk "acl-b" "id-456"].

(** Five distributions without an association. *)
Definition five : list Resource.t :=
  (fun id => distribution id (Some "")) <$> ["d1"; "d2"; "d3"; "d4"; "d5"].

Definition fleet : gmap string (Config.t * nat) :=
  list_to_map
    ((fun id => (id, (config "", 0))) <$> ["d1"; "d2"; "d3"; "d4"; "d5"]).

Definition quiet : t := mk fleet [] [] 0 ∅.

(** The account list behind each source: none behind the empty URL. *)
Definition get_values (src : ValuesFrom.t) : result (list string) :=
  if bool_decide (ValuesFrom.url src = "") then Ok [] else Ok ["owner-1"].

Definition accounts_list : ValuesFrom.t :=
  ValuesFrom.mk "https://example.org/accounts.json" "accounts[].canonical_id".

(** Buckets: two owned by the account of the list, one owned by someone
    else, one that cannot be read, one whose check fails internally. *)
Definition bucket_acls : gmap string (result string) :=
  list_to_map
    [("assets", Ok "owner-1"); ("logs", Ok "owner-1");
     ("foreign", Ok "owner-9");
     ("private", Raise (ClientError "AccessDenied"));
     ("broken", Raise (ClientError "InternalError"))].

Definition with_buckets : t := mk ∅ [] [] 0 bucket_acls.

Definition s3_origin (bucket : string) : Origin.t :=
  Origin.mk (bucket +:+ ".s3.amazonaws.com") true None.

Definition with_origins (id : string) (origins : list Origin.t)
  : Resource.t :=
  Resource.mk id ("arn:aws:cloudfront::123456789012:distribution/" +:+ id)
              (Some "") origins false.

End Mock.

(** ** More of the module: written documents, streaming distributions *)

(** What an action writes, read off a trace.  [fetched] maps a resource
    identifier to the document answered by its latest successful fetch; the
    trace is accepted when the document of every write is [patch] applied
    to the document held for its resource. *)
Fixpoint patch_discipline (patch : Config.t → Config.t)
    (fetched : gmap string Config.t) (tr : list event) : bool :=
  match tr with
  | [] => true
  | GetDistributionConfig id (Ok (cfg, _)) :: tr' =>
      patch_discipline patch (<[id := cfg]> fetched) tr'
  | GetDistributionConfig id (Raise _) :: tr' =>
      patch_discipline patch (delete id fetched) tr'
  | UpdateDistribution id cfg _ _ :: tr' =>
      bool_decide (patch <$> fetched !! id = Some cfg)
      && patch_discipline patch fetched tr'
  | _ :: tr' => patch_discipline patch fetched tr'
  end.

Definition patched (patch : Config.t → Config.t) (tr : list event) : Prop :=
  ∀ fetched, ∃ fetched', ∀ rest,
    patch_discipline patch fetched (tr ++ rest)
    = patch_discipline patch fetched' rest.



(** No dot among the characters of a string. *)
Definition dotless (s : string) : Prop :=
  "."%char ∉ String.list_ascii_of_string s.

(** A consistent custom origin: the count field is the length of the
    protocol list. *)
Definition origin_counted (x : Origin.t) : Prop :=
  match Origin.CustomOriginConfig x with
  | Some c =>
      CustomOrigin.OriginSslProtocols_Quantity c
      = length (CustomOrigin.OriginSslProtocols_Items c)
  | None => True
  end.

Definition config_counted (dc : Config.t) : Prop :=
  match Config.Origins_Items dc with
  | Some items => Forall origin_counted items
  | None => True
  end.

(** *** Streaming distributions (lines 330-373)

    The streaming configuration document is a dictionary; the action
    assigns one key of it. *)
#[local] Unset Elimination Schemes.
Inductive value : Type :=
| VBool (b : bool)
| VStr (s : string)
| VList (l : list value)
| VDict (d : list (string * value)).
#[local] Set Elimination Schemes.

Inductive streaming_event : Type :=
| GetStreamingDistributionConfig (id : string)
    (res : result (gmap string value * string))
| UpdateStreamingDistribution (id : string) (cfg : gmap string value)
    (if_match : string) (res : result unit)
| StreamingLog (rec : log_record).

Class StreamingClient (R : Type) : Type := {
  get_streaming_distribution_config :
    string -> R -> result (gmap string value * string) * R;
  update_streaming_distribution :
    string -> gmap string value -> string -> R -> result unit * R }.

(** [StreamingDistributionDisableAction.process_distribution]: the [try]
    block is the fetch, the assignment of ['Enabled'] and the conditional
    write; the handler logs and returns. *)
Definition StreamingDistributionDisableAction_process_distribution
    {R} `{SC : StreamingClient R} (distribution : Resource.t) (s : R)
  : result unit * R * list streaming_event :=
  let id := Resource.Id distribution in
  match get_streaming_distribution_config id s with
  | (Ok (cfg, etag), s1) =>
      let cfg' := <["Enabled" := VBool false]> cfg in
      match update_streaming_distribution id cfg' etag s1 with
      | (Ok _, s2) =>
          (Ok tt, s2,
           [GetStreamingDistributionConfig id (Ok (cfg, etag));
            UpdateStreamingDistribution id cfg' etag (Ok tt)])
      | (Raise e, s2) =>
          (Ok tt, s2,
           [GetStreamingDistributionConfig id (Ok (cfg, etag));
            UpdateStreamingDistribution id cfg' etag (Raise e);
            StreamingLog (WarningDisable (Resource.ARN distribution) e)])
      end
  | (Raise e, s1) =>
      (Ok tt, s1,
       [GetStreamingDistributionConfig id (Raise e);
        StreamingLog (WarningDisable (Resource.ARN distribution) e)])
  end.

Definition streaming_fetched_ids (tr : list streaming_event) : list string :=
  omap (fun ev => match ev with
                  | GetStreamingDistributionConfig id _ => Some id
                  | _ => None
                  end) tr.

Definition streaming_warnings (tr : list streaming_event) : nat :=
  length (omap (fun ev => match ev with
                          | StreamingLog (WarningDisable arn _) => Some arn
                          | _ => None
                          end) tr).

Definition streaming_mutated_ids (tr : list streaming_event) : list string :=
  omap (fun ev => match ev with
                  | UpdateStreamingDistribution id _ _ (Ok _) => Some id
                  | _ => None
                  end) tr.

(** The events of one invocation: every write comes right after a fetch
    of the same distribution and carries its ETag and its document, with
    ['Enabled'] set to [False]. *)
Fixpoint streaming_writes_follow_fetch (tr : list streaming_event) : Prop :=
  match tr with
  | [] => True
  | GetStreamingDistributionConfig id (Ok (cfg, etag))
    :: UpdateStreamingDistribution id' cfg' if_match res :: tr' =>
      id' = id ∧ if_match = etag ∧ cfg' = <["Enabled" := VBool false]> cfg
      ∧ streaming_writes_follow_fetch tr'
  | UpdateStreamingDistribution _ _ _ _ :: _ => False
  | _ :: tr' => streaming_writes_follow_fetch tr'
  end.

(** ** The worker pool of disable, set-protocols and the streaming disable

    [with self.executor_factory(max_workers=2) as w:
       list(w.map(self.process_distribution, distributions))]

    The tasks are taken from the queue in list order, at most two of them
    are in progress at a time, and the calls of the tasks in progress
    interleave in any order; a remote call takes effect at once, the
    service treating one request at a time.  A task goes through the
    steps of [process_distribution]: it is taken by a worker, fetches,
    writes, and logs the warning of its handler when one of the two calls
    raised.  The handler catches every exception, so a task has no other
    end. *)

(** Where a task stands: waiting in the queue, taken by a worker, after
    its fetch, after a call that raised, or at its end. *)
Inductive task_state (Doc : Type) : Type :=
| Pending
| Started
| Fetched (cfg : Doc) (etag : string)
| Failed (e : exn)
| Done.
Arguments Pending {Doc}.
Arguments Started {Doc}.
Arguments Fetched {Doc} cfg etag.
Arguments Failed {Doc} e.
Arguments Done {Doc}.

Definition is_running {Doc} (st : task_state Doc) : bool :=
  match st with
  | Started | Fetched _ _ | Failed _ => true
  | Pending | Done => false
  end.

Definition is_pending {Doc} (st : task_state Doc) : bool :=
  match st with Pending => true | _ => false end.

(** The number of steps a task may still make. *)
Definition steps_left {Doc} (st : task_state Doc) : nat :=
  match st with
  | Pending => 4
  | Started => 3
  | Fetched _ _ => 2
  | Failed _ => 1
  | Done => 0
  end.

(** The first position whose element satisfies [f]. *)
Fixpoint find_index {A} (f : A → bool) (l : list A) : option nat :=
  match l with
  | [] => None
  | x :: l' => if f x then Some 0 else S <$> find_index f l'
  end.

(** The pool: the state of every task, the remote state, and the events
    so far, each with the position of the task it belongs to. *)
Record pool (R Doc E : Type) : Type := Pool {
  states : list (task_state Doc);
  remote : R;
  tagged : list (nat * E) }.
Arguments Pool {R Doc E} states remote tagged.
Arguments states {R Doc E} p.
Arguments remote {R Doc E} p.
Arguments tagged {R Doc E} p.

(** The events of task [i], in order. *)
Definition events_of {E} (i : nat) (tr : list (nat * E)) : list E :=
  omap (λ x, if bool_decide (x.1 = i) then Some x.2 else None) tr.

(** What a task of the pool does for one distribution: the answers of
    its two remote calls, the patch applied in between, and the events
    they leave in the trace. *)
Class Task (R Doc E : Type) : Type := {
  task_fetch : Resource.t → R → result (Doc * string) * R;
  task_patch : Doc → Doc;
  task_write : Resource.t → Doc → string → R → result unit * R;
  fetch_event : Resource.t → result (Doc * string) → E;
  write_event : Resource.t → Doc → string → result unit → E;
  warning_event : Resource.t → exn → E }.

Section WorkerPool.
Context {R Doc E : Type} {T : Task R Doc E}.

(** A worker is free and task [i] is the first of the queue. *)
Definition may_pick (i : nat) (sts : list (task_state Doc)) : bool :=
  Nat.ltb (length (List.filter is_running sts)) 2
  && forallb (λ st, negb (is_pending st)) (take i sts).

(** One step of task [i]; nothing happens when the task has no step to
    make or cannot be taken yet. *)
Definition pool_step (tasks : list Resource.t) (i : nat) (p : pool R Doc E)
  : pool R Doc E :=
  match tasks !! i, states p !! i with
  | Some d, Some Pending =>
      if may_pick i (states p)
      then Pool (<[i := Started]> (states p)) (remote p) (tagged p)
      else p
  | Some d, Some Started =>
      match task_fetch d (remote p) with
      | (Ok (cfg, etag), s1) =>
          Pool (<[i := Fetched cfg etag]> (states p)) s1
               (tagged p ++ [(i, fetch_event d (Ok (cfg, etag)))])
      | (Raise e, s1) =>
          Pool (<[i := Failed e]> (states p)) s1
               (tagged p ++ [(i, fetch_event d (Raise e))])
      end
  | Some d, Some (Fetched cfg etag) =>
      match task_write d (task_patch cfg) etag (remote p) with
      | (Ok _, s1) =>
          Pool (<[i := Done]> (states p)) s1
               (tagged p
                ++ [(i, write_event d (task_patch cfg) etag (Ok tt))])
      | (Raise e, s1) =>
          Pool (<[i := Failed e]> (states p)) s1
               (tagged p
                ++ [(i, write_event d (task_patch cfg) etag (Raise e))])
      end
  | Some d, Some (Failed e) =>
      Pool (<[i := Done]> (states p)) (remote p)
           (tagged p ++ [(i, warning_event d e)])
  | _, _ => p
  end.

(** The task stepped when the schedule says nothing: the first one in
    progress, or else the first of the queue. *)
Definition next_task (sts : list (task_state Doc)) : option nat :=
  match find_index is_running sts with
  | Some i => Some i
  | None => find_index is_pending sts
  end.

(** Leaving the [with] block waits for every task. *)
Fixpoint finish (tasks : list Resource.t) (fuel : nat) (p : pool R Doc E)
  : pool R Doc E :=
  match fuel with
  | 0 => p
  | S fuel' =>
      match next_task (states p) with
      | Some i => finish tasks fuel' (pool_step tasks i p)
      | None => p
      end
  end.

(** A run of the pool.  [schedule] lists the tasks given the next step,
    in order; once it is used up the remaining steps are made.  Four
    steps per task are enough (lemma [pool_run_done]). *)
Definition pool_run (tasks : list Resource.t) (schedule : list nat) (s : R)
  : pool R Doc E :=
  finish tasks (4 * length tasks)
    (foldl (λ p i, pool_step tasks i p)
       (Pool (replicate (length tasks) Pending) s []) schedule).

(** One task run alone, and the tasks run one after the other. *)
Definition task_run (d : Resource.t) (s : R) : R * list E :=
  match task_fetch d s with
  | (Ok (cfg, etag), s1) =>
      match task_write d (task_patch cfg) etag s1 with
      | (Ok _, s2) =>
          (s2, [fetch_event d (Ok (cfg, etag));
                write_event d (task_patch cfg) etag (Ok tt)])
      | (Raise e, s2) =>
          (s2, [fetch_event d (Ok (cfg, etag));
                write_event d (task_patch cfg) etag (Raise e);
                warning_event d e])
      end
  | (Raise e, s1) => (s1, [fetch_event d (Raise e); warning_event d e])
  end.

Fixpoint serial_run (l : list Resource.t) (s : R) : R * list E :=
  match l with
  | [] => (s, [])
  | d :: l' =>
      let x := task_run d s in
      let y := serial_run l' x.1 in
      (y.1, x.2 ++ y.2)
  end.

(** The complete runs of one task, as lists of events. *)
Definition task_complete (d : Resource.t) (evs : list E) : Prop :=
  (∃ e, evs = [fetch_event d (Raise e); warning_event d e])
  ∨ (∃ cfg etag e,
       evs = [fetch_event d (Ok (cfg, etag));
              write_event d (task_patch cfg) etag (Raise e);
              warning_event d e])
  ∨ (∃ cfg etag,
       evs = [fetch_event d (Ok (cfg, etag));
              write_event d (task_patch cfg) etag (Ok tt)]).

(** The events of a task according to its state. *)
Definition task_shape (d : Resource.t) (st : task_state Doc) (evs : list E)
  : Prop :=
  match st with
  | Pending | Started => evs = []
  | Fetched cfg etag => evs = [fetch_event d (Ok (cfg, etag))]
  | Failed e =>
      evs = [fetch_event d (Raise e)]
      ∨ ∃ cfg etag, evs = [fetch_event d (Ok (cfg, etag));
                           write_event d (task_patch cfg) etag (Raise e)]
  | Done => task_complete d evs
  end.

(** What every run of the pool keeps true: one state per task, and the
    events of each task in the shape of its state. *)
Definition pool_invariant (tasks : list Resource.t) (p : pool R Doc E)
  : Prop :=
  length (states p) = length tasks
  ∧ ∀ i, match tasks !! i, states p !! i with
         | Some d, Some st => task_shape d st (events_of i (tagged p))
         | _, _ => events_of i (tagged p) = []
         end.

(** The steps the pool may still make. *)
Definition work_left (sts : list (task_state Doc)) : nat :=
  sum_list (steps_left <$> sts).

End WorkerPool.

(** *** The three pools *)

(** The task of disable and of set-protocols: the steps of
    [process_distribution] for one distribution, with its patch and its
    warning.  Run alone, the task is the method (lemma
    [cycle_task_run]). *)
Definition cycle_task {R} `{CF : CloudFrontClient R}
    (patch : Config.t → Config.t) (warn : Resource.t → exn → log_record)
  : Task R Config.t event :=
  {| task_fetch := λ d, get_distribution_config (Resource.Id d);
     task_patch := patch;
     task_write := λ d, update_distribution (Resource.Id d);
     fetch_event := λ d, GetDistributionConfig (Resource.Id d);
     write_event := λ d, UpdateDistribution (Resource.Id d);
     warning_event := λ d e, Log (warn d e) |}.

Definition DistributionDisableAction_task {R} `{CF : CloudFrontClient R}
  : Task R Config.t event :=
  cycle_task (Config.set_Enabled false) (λ d, WarningDisable (Resource.ARN d)).

Definition DistributionSSLAction_task {R} `{CF : CloudFrontClient R}
    (data : SetProtocolsData.t) : Task R Config.t event :=
  cycle_task (set_protocols_transform data)
             (λ d, WarningForceSsl (Resource.ARN d)).

(** The task of the streaming disable; run alone it is
    [process_distribution] (lemma [streaming_task_run]). *)
Definition StreamingDistributionDisableAction_task
    {R} `{SC : StreamingClient R}
  : Task R (gmap string value) streaming_event :=
  {| task_fetch := λ d, get_streaming_distribution_config (Resource.Id d);
     task_patch := <["Enabled" := VBool false]>;
     task_write := λ d, update_streaming_distribution (Resource.Id d);
     fetch_event := λ d, GetStreamingDistributionConfig (Resource.Id d);
     write_event := λ d, UpdateStreamingDistribution (Resource.Id d);
     warning_event :=
       λ d e, StreamingLog (WarningDisable (Resource.ARN d) e) |}.

(** The workers of [DistributionDisableAction.process] at the end of the
    [with] block. *)
Definition DistributionDisableAction_workers {R} `{CF : CloudFrontClient R}
    (schedule : list nat) (distributions : list Resource.t) (s : R)
  : pool R Config.t event :=
  pool_run (T := DistributionDisableAction_task) distributions schedule s.

(** [with self.executor_factory(max_workers=2) as w:
       list(w.map(self.process_distribution, distributions))]
    No task raises, so collecting the results raises nothing. *)
Definition DistributionDisableAction_process {R} `{CF : CloudFrontClient R}
    (schedule : list nat) (distributions : list Resource.t) : M R unit :=
  λ s, let p := DistributionDisableAction_workers schedule distributions s in
       (Ok tt, remote p, (tagged p).*2).

Definition DistributionSSLAction_workers {R} `{CF : CloudFrontClient R}
    (data : SetProtocolsData.t) (schedule : list nat)
    (distributions : list Resource.t) (s : R) : pool R Config.t event :=
  pool_run (T := DistributionSSLAction_task data) distributions schedule s.

Definition DistributionSSLAction_process {R} `{CF : CloudFrontClient R}
    (data : SetProtocolsData.t) (schedule : list nat)
    (distributions : list Resource.t) : M R unit :=
  λ s, let p := DistributionSSLAction_workers data schedule distributions s in
       (Ok tt, remote p, (tagged p).*2).

Definition StreamingDistributionDisableAction_workers
    {R} `{SC : StreamingClient R} (schedule : list nat)
    (distributions : list Resource.t) (s : R)
  : pool R (gmap string value) streaming_event :=
  pool_run (T := StreamingDistributionDisableAction_task) distributions
           schedule s.

Definition StreamingDistributionDisableAction_process
    {R} `{SC : StreamingClient R} (schedule : list nat)
    (distributions : list Resource.t) (s : R)
  : result unit * R * list streaming_event :=
  let p := StreamingDistributionDisableAction_workers schedule
             distributions s in
  (Ok tt, remote p, (tagged p).*2).

(** ** Azure blob output (tools/c7n_azure/c7n_azure/output.py) *)

(** [s.lstrip('/')], [s.rstrip('/')] and [s.strip('/')] *)
Fixpoint lstrip_slash (s : string) : string :=
  match s with
  | String c s' => if Ascii.eqb c "/"%char then lstrip_slash s' else s
  | EmptyString => EmptyString
  end.

Fixpoint rstrip_slash (s : string) : string :=
  match s with
  | String c s' =>
      match rstrip_slash s' with
      | EmptyString =>
          if Ascii.eqb c "/"%char then EmptyString else String c EmptyString
      | t => String c t
      end
  | EmptyString => EmptyString
  end.

Definition strip_slash (s : string) : string := rstrip_slash (lstrip_slash s).

(** [root[len(self.root_dir):]] *)
Fixpoint string_drop (n : nat) (s : string) : string :=
  match n, s with
  | S n', String _ s' => string_drop n' s'
  | _, _ => s
  end.

(** The blob name computed in the loop of [upload] (lines 62-67) for file
    [f] found in directory [root] of the walk. *)
Definition blob_name (file_prefix date_path root_dir root f : string)
  : string :=
  strip_slash
    (file_prefix +:+ "/" +:+ date_path
     +:+ (string_drop (String.length root_dir) root +:+ "/" +:+ f)).

(** * Theorems *)

(** ** Reference resolution *)

Section Resolution.

Lemma in_values_known_identifier (x : string) (m : gmap string string) :
  in_values x m = true ↔ known_identifier m x.
Proof.
  unfold in_values, known_identifier.
  rewrite bool_decide_eq_true, list_elem_of_fmap. split.
  - intros [[n v] [-> Hin]]. exists n. by apply elem_of_map_to_list.
  - intros [n Hn]. exists (n, x). split; [done|].
    by apply elem_of_map_to_list.
Qed.

Lemma in_values_unknown_identifier (x : string) (m : gmap string string) :
  in_values x m = false ↔ ¬ known_identifier m x.
Proof.
  rewrite <- in_values_known_identifier. destruct (in_values x m); naive_solver.
Qed.

Lemma resolve_known_name (wafs : list Waf.t) (x i : string) :
  waf_name_id_map wafs !! x = Some i → resolve wafs x = Ok i.
Proof.
  intros Hx. unfold resolve. rewrite Hx. simpl.
  assert (in_values i (waf_name_id_map wafs) = true) as ->; [|done].
  apply in_values_known_identifier. by exists x.
Qed.

Lemma resolve_not_a_name (wafs : list Waf.t) (x : string) :
  ¬ known_name (waf_name_id_map wafs) x →
  resolve wafs x =
    if in_values x (waf_name_id_map wafs) then Ok x
    else Raise (ValueError ("invalid web acl: " +:+ x)).
Proof.
  intros Hx. unfold resolve.
  destruct (waf_name_id_map wafs !! x) as [i|] eqn:E; [|done].
  exfalso. apply Hx. by exists i.
Qed.

Lemma resolve_unknown_reference (wafs : list Waf.t) (x : string) :
  ¬ known_name (waf_name_id_map wafs) x →
  ¬ known_identifier (waf_name_id_map wafs) x →
  resolve wafs x = Raise (ValueError ("invalid web acl: " +:+ x)).
Proof.
  intros Hn Hi. rewrite resolve_not_a_name by done.
  apply in_values_unknown_identifier in Hi. by rewrite Hi.
Qed.

(** C4 fails as stated: an identifier of the table's value set that is
    also the name of another entry is not returned unchanged. *)
Lemma resolve_identifier_shadowed_by_name :
  let wafs := [Waf.mk "id-123" "id-456"; Waf.mk "acl-b" "id-123"] in
  known_identifier (waf_name_id_map wafs) "id-123"
  ∧ resolve wafs "id-123" = Ok "id-456"
  ∧ resolve wafs "id-123" ≠ Ok "id-123".
Proof.
  split; [|split].
  - exists "acl-b". vm_compute. reflexivity.
  - vm_compute. reflexivity.
  - vm_compute. discriminate.
Qed.

(** C4, amended.  For a fixed lookup table [resolve] is a function of the
    table and the input: a known name resolves to its mapped identifier
    (names take precedence); an input that is not a known name but is an
    identifier of the value set is returned unchanged; an input that is
    neither fails with the invalid-reference error.  The filter's variant
    agrees with it on every non-empty reference. *)
Theorem resolve_names_take_precedence (wafs : list Waf.t) (x : string) :
  let m := waf_name_id_map wafs in
  (∀ i, m !! x = Some i → resolve wafs x = Ok i)
  ∧ (¬ known_name m x → known_identifier m x → resolve wafs x = Ok x)
  ∧ (¬ known_name m x → ¬ known_identifier m x →
     resolve wafs x = Raise (ValueError ("invalid web acl: " +:+ x)))
  ∧ (∀ wafs', waf_name_id_map wafs' = m → resolve wafs' x = resolve wafs x)
  ∧ (x ≠ "" →
     resolve_filter wafs (Some x) =
       match resolve wafs x with
       | Ok i => Ok (Some i)
       | Raise e => Raise e
       end).
Proof.
  intros m. subst m. repeat split.
  - intros i. apply resolve_known_name.
  - intros Hn Hi. rewrite resolve_not_a_name by done.
    apply in_values_known_identifier in Hi. by rewrite Hi.
  - intros Hn Hi. rewrite resolve_not_a_name by done.
    apply in_values_unknown_identifier in Hi. by rewrite Hi.
  - intros wafs' Heq. unfold resolve. by rewrite Heq.
  - intros Hx. unfold resolve_filter, resolve.
    set (m := waf_name_id_map wafs).
    destruct (m !! x) as [i|] eqn:E; simpl.
    + assert (in_values i m = true) as ->.
      { apply in_values_known_identifier. by exists x. }
      by rewrite andb_false_r.
    + rewrite (bool_decide_eq_false_2 (x = "")) by done. simpl.
      by destruct (in_values x m).
Qed.

(** The table and the three references of the specification's example. *)
Lemma resolve_names_take_precedence_witness :
  resolve Mock.wafs "acl-a" = Ok "id-123"
  ∧ resolve Mock.wafs "id-456" = Ok "id-456"
  ∧ resolve Mock.wafs "acl-z" = Raise (ValueError "invalid web acl: acl-z")
  ∧ resolve_filter Mock.wafs (Some "acl-b") = Ok (Some "id-456").
Proof.
  split; [|split; [|split]].
  - destruct (resolve_names_take_precedence Mock.wafs "acl-a") as (H & _).
    apply H. vm_compute. reflexivity.
  - destruct (resolve_names_take_precedence Mock.wafs "id-456")
      as (_ & H & _).
    apply H.
    + intros [i Hi]. vm_compute in Hi. discriminate.
    + apply in_values_known_identifier. vm_compute. reflexivity.
  - destruct (resolve_names_take_precedence Mock.wafs "acl-z")
      as (_ & _ & H & _).
    apply H.
    + intros [i Hi]. vm_compute in Hi. discriminate.
    + apply in_values_unknown_identifier. vm_compute. reflexivity.
  - destruct (resolve_names_take_precedence Mock.wafs "acl-b")
      as (_ & _ & _ & _ & H).
    rewrite H by discriminate. vm_compute. reflexivity.
Defined.

End Resolution.

(** ** The association-state predicate (waf-enabled) *)

Section WafEnabled.

(** A loop whose test never raises is a filter. *)
Lemma select_filter (p : Resource.t → result bool) (q : Resource.t → bool)
    (resources : list Resource.t) :
  Forall (λ r, p r = Ok (q r)) resources →
  select p resources = Ok (filter (λ r, q r = true) resources).
Proof.
  induction 1 as [|r rest Hr _ IH]; [done|].
  simpl. rewrite Hr, IH. rewrite filter_cons.
  destruct (q r); by rewrite decide_bool_decide.
Qed.

(** The loop stops at the first resource whose test raises. *)
Lemma select_raise (p : Resource.t → result bool) (e : exn)
    (before after : list Resource.t) (r : Resource.t) :
  Forall (λ r, is_ok (p r) = true) before →
  p r = Raise e →
  select p (before ++ r :: after) = Raise e.
Proof.
  intros Hb Hr. induction Hb as [|r0 rest H0 _ IH]; simpl.
  - by rewrite Hr.
  - destruct (p r0); [|done]. by rewrite IH.
Qed.

Lemma resolve_filter_unspecified (wafs : list Waf.t) :
  resolve_filter wafs None = Ok None.
Proof. done. Qed.

Lemma resolve_filter_specified (wafs : list Waf.t) (t id : string) :
  resolve wafs t = Ok id → resolve_filter wafs (Some t) = Ok (Some id).
Proof.
  unfold resolve, resolve_filter.
  destruct (in_values _ _) eqn:E; [|done].
  intros [= <-]. cbv beta iota zeta. by rewrite andb_false_r.
Qed.

Lemma match_any_association (r : Resource.t) :
  waf_enabled_match true None r = Ok (truthy (Resource.WebACLId r)).
Proof.
  unfold waf_enabled_match. simpl.
  by destruct (truthy (Resource.WebACLId r)).
Qed.

Lemma match_no_association (r : Resource.t) :
  waf_enabled_match false None r = Ok (negb (truthy (Resource.WebACLId r))).
Proof.
  unfold waf_enabled_match. simpl.
  by destruct (truthy (Resource.WebACLId r)).
Qed.

Lemma match_equal (id a : string) (r : Resource.t) :
  id ≠ "" → Resource.WebACLId r = Some a →
  waf_enabled_match true (Some id) r = Ok (bool_decide (Some a = Some id)).
Proof.
  intros Hid Ha. unfold waf_enabled_match, getitem_WebACLId.
  rewrite Ha. simpl. rewrite (bool_decide_eq_false_2 (id = "")) by done.
  simpl. by destruct (bool_decide (Some a = Some id)).
Qed.

Lemma match_different (id a : string) (r : Resource.t) :
  id ≠ "" → Resource.WebACLId r = Some a →
  waf_enabled_match false (Some id) r
  = Ok (negb (bool_decide (Some a = Some id))).
Proof.
  intros Hid Ha. unfold waf_enabled_match, getitem_WebACLId.
  rewrite Ha. simpl. by rewrite (bool_decide_eq_false_2 (id = "")) by done.
Qed.

(** With a target, a snapshot without the attribute makes the test
    raise, whatever the state. *)
Lemma match_missing_attribute (state : bool) (id : string) (r : Resource.t) :
  id ≠ "" → Resource.WebACLId r = None →
  waf_enabled_match state (Some id) r = Raise (KeyError "WebACLId").
Proof.
  intros Hid Ha. unfold waf_enabled_match, getitem_WebACLId.
  rewrite Ha. simpl. rewrite (bool_decide_eq_false_2 (id = "")) by done.
  by destruct state.
Qed.

(** An empty-string target is neither unspecified nor a usable target:
    the filter selects nothing. *)
Lemma match_empty_target (state : bool) (r : Resource.t) :
  waf_enabled_match state (Some "") r = Ok false.
Proof. unfold waf_enabled_match. by destruct state. Qed.

(** The truth table of the waf-enabled filter, where the code realises
    it.  Without a target, [state = true] selects exactly the resources
    with a non-empty association and [state = false] (also the default)
    exactly those with none.  With a target that resolves to a non-empty
    identifier, over snapshots that carry the association attribute,
    [state = true] selects exactly the resources whose association is the
    resolved identifier and [state = false] exactly those whose association
    differs from it. *)
Lemma waf_enabled_truth_table (wafs : list Waf.t)
    (resources : list Resource.t) :
  IsWafEnabled_process wafs (IsWafEnabledData.mk None (Some true)) resources
  = Ok (filter (λ r, truthy (Resource.WebACLId r) = true) resources)
  ∧ IsWafEnabled_process wafs (IsWafEnabledData.mk None (Some false)) resources
    = Ok (filter (λ r, truthy (Resource.WebACLId r) = false) resources)
  ∧ IsWafEnabled_process wafs (IsWafEnabledData.mk None None) resources
    = Ok (filter (λ r, truthy (Resource.WebACLId r) = false) resources)
  ∧ ∀ t id,
      resolve wafs t = Ok id → id ≠ "" →
      Forall (λ r, is_Some (Resource.WebACLId r)) resources →
      IsWafEnabled_process wafs (IsWafEnabledData.mk (Some t) (Some true))
                           resources
      = Ok (filter (λ r, Resource.WebACLId r = Some id) resources)
      ∧ IsWafEnabled_process wafs (IsWafEnabledData.mk (Some t) (Some false))
                             resources
        = Ok (filter (λ r, Resource.WebACLId r ≠ Some id) resources).
Proof.
  assert (Hnone : select (waf_enabled_match false None) resources
                  = Ok (filter (λ r, truthy (Resource.WebACLId r) = false)
                               resources)).
  { rewrite (select_filter _ (λ r, negb (truthy (Resource.WebACLId r)))).
    - f_equal. apply list_filter_iff. intros r.
      by destruct (truthy (Resource.WebACLId r)).
    - apply Forall_forall. intros r _. apply match_no_association. }
  split; [|split; [|split]].
  - unfold IsWafEnabled_process. simpl.
    apply select_filter, Forall_forall. intros r _.
    apply match_any_association.
  - exact Hnone.
  - exact Hnone.
  - intros t id Hres Hid Hall. unfold IsWafEnabled_process. simpl.
    rewrite (resolve_filter_specified _ _ _ Hres). simpl. split.
    + rewrite (select_filter _
                 (λ r, bool_decide (Resource.WebACLId r = Some id))).
      * f_equal. apply list_filter_iff. intros r.
        by rewrite bool_decide_eq_true.
      * eapply Forall_impl; [exact Hall|]. intros r [a Ha]. simpl.
        rewrite (match_equal id a) by done. by rewrite Ha.
    + rewrite (select_filter _
                 (λ r, negb (bool_decide (Resource.WebACLId r = Some id)))).
      * f_equal. apply list_filter_iff. intros r.
        by rewrite negb_true_iff, bool_decide_eq_false.
      * eapply Forall_impl; [exact Hall|]. intros r [a Ha]. simpl.
        rewrite (match_different id a) by done. by rewrite Ha.
Qed.

(** C6 fails on the code.  With [state = false] and the target [acl-a],
    which resolves to [id-123], the claim selects both [d1], which has no
    association, and [d2], associated with [id-456].  When the snapshot of
    [d1] has no ['WebACLId'] key the filter raises instead of returning
    them; with the key present and empty it returns both.  Without a
    target the snapshot that lacks the key is selected as a resource with
    no association. *)
Theorem waf_enabled_table_breaks_on_missing_attribute :
  let data := IsWafEnabledData.mk (Some "acl-a") (Some false) in
  let d2 := Mock.distribution "d2" (Some "id-456") in
  IsWafEnabled_process Mock.wafs data [Mock.distribution "d1" None; d2]
  = Raise (KeyError "WebACLId")
  ∧ IsWafEnabled_process Mock.wafs data [Mock.distribution "d1" (Some ""); d2]
    = Ok [Mock.distribution "d1" (Some ""); d2]
  ∧ IsWafEnabled_process Mock.wafs (IsWafEnabledData.mk None (Some false))
      [Mock.distribution "d1" None; d2]
    = Ok [Mock.distribution "d1" None].
Proof. repeat split; vm_compute; reflexivity. Qed.

(** C10 fails on the code: with a target, a snapshot without the
    ['WebACLId'] key makes the filter raise [KeyError] in both states,
    while without a target the same snapshot is handled. *)
Theorem waf_enabled_missing_attribute_KeyError :
  let r := Mock.distribution "d1" None in
  IsWafEnabled_process Mock.wafs
    (IsWafEnabledData.mk (Some "acl-a") (Some true)) [r]
  = Raise (KeyError "WebACLId")
  ∧ IsWafEnabled_process Mock.wafs
      (IsWafEnabledData.mk (Some "acl-a") (Some false)) [r]
    = Raise (KeyError "WebACLId")
  ∧ IsWafEnabled_process Mock.wafs
      (IsWafEnabledData.mk None (Some true)) [r] = Ok []
  ∧ IsWafEnabled_process Mock.wafs
      (IsWafEnabledData.mk None (Some false)) [r] = Ok [r].
Proof. repeat split; vm_compute; reflexivity. Qed.

(** The filter raises as soon as one snapshot lacks the attribute, for
    every non-empty target and both states. *)
Lemma waf_enabled_raises_on_missing_attribute (wafs : list Waf.t)
    (t id : string) (state : option bool)
    (before after : list Resource.t) (r : Resource.t) :
  resolve wafs t = Ok id → id ≠ "" →
  Forall (λ r, is_Some (Resource.WebACLId r)) before →
  Resource.WebACLId r = None →
  IsWafEnabled_process wafs (IsWafEnabledData.mk (Some t) state)
                       (before ++ r :: after)
  = Raise (KeyError "WebACLId").
Proof.
  intros Hres Hid Hall Hr. unfold IsWafEnabled_process. simpl.
  rewrite (resolve_filter_specified _ _ _ Hres).
  apply select_raise; [|by apply match_missing_attribute].
  eapply Forall_impl; [exact Hall|]. intros r0 [a Ha]. simpl.
  destruct (default false state).
  - by rewrite (match_equal id a).
  - by rewrite (match_different id a).
Qed.

Lemma waf_enabled_truth_table_witness :
  let a := Mock.distribution "d1" (Some "id-123") in
  let b := Mock.distribution "d2" (Some "id-456") in
  let c := Mock.distribution "d3" (Some "") in
  IsWafEnabled_process Mock.wafs
    (IsWafEnabledData.mk (Some "acl-a") (Some true)) [a; b; c] = Ok [a]
  ∧ IsWafEnabled_process Mock.wafs
      (IsWafEnabledData.mk (Some "acl-a") (Some false)) [a; b; c]
    = Ok [b; c].
Proof.
  intros a b c.
  destruct (waf_enabled_truth_table Mock.wafs [a; b; c]) as (_ & _ & _ & H).
  destruct (H "acl-a" "id-123") as [H1 H2].
  - vm_compute. reflexivity.
  - discriminate.
  - repeat constructor; eexists; reflexivity.
  - rewrite H1, H2. split; vm_compute; reflexivity.
Defined.

End WafEnabled.

(** ** Loops and traces *)

Section Loops.
Context {R : Type}.

Lemma for_each_cons_ok {A} (body : A → M R unit) (x : A) (l : list A)
    (s s1 : R) (t1 : list event) :
  body x s = (Ok tt, s1, t1) →
  for_each body (x :: l) s
  = (outcome (for_each body l s1), final (for_each body l s1),
     t1 ++ trace (for_each body l s1)).
Proof.
  intros Hx. simpl. unfold bind. rewrite Hx.
  by destruct (for_each body l s1) as [[r s2] t2].
Qed.

Lemma for_each_cons_raise {A} (body : A → M R unit) (x : A) (l : list A)
    (s s1 : R) (t1 : list event) (e : exn) :
  body x s = (Raise e, s1, t1) →
  for_each body (x :: l) s = (Raise e, s1, t1).
Proof. intros Hx. simpl. unfold bind. by rewrite Hx. Qed.

Lemma token_discipline_other (held : gmap string string) (ev : event)
    (tr : list event) :
  is_fetch ev = false → is_write ev = false →
  token_discipline held (ev :: tr) = token_discipline held tr.
Proof. by destruct ev. Qed.

Lemma disciplined_nil : disciplined [].
Proof. intros held. by exists held. Qed.

Lemma disciplined_app (t1 t2 : list event) :
  disciplined t1 → disciplined t2 → disciplined (t1 ++ t2).
Proof.
  intros H1 H2 held. destruct (H1 held) as [held1 E1].
  destruct (H2 held1) as [held2 E2]. exists held2. intros rest.
  by rewrite <- app_assoc, E1, E2.
Qed.

Lemma disciplined_log (rec : log_record) : disciplined [Log rec].
Proof. intros held. by exists held. Qed.

Lemma disciplined_failed_fetch (id : string) (e : exn) :
  disciplined [GetDistributionConfig id (Raise e)].
Proof. intros held. by exists (delete id held). Qed.

Lemma disciplined_accepted (tr : list event) :
  disciplined tr → token_discipline ∅ tr = true.
Proof.
  intros H. destruct (H ∅) as [held' E].
  specialize (E []). by rewrite app_nil_r in E.
Qed.

(** A loop keeps the discipline when each iteration does. *)
Lemma for_each_disciplined {A} (body : A → M R unit) (l : list A) :
  (∀ x s, disciplined (trace (body x s))) →
  ∀ s, disciplined (trace (for_each body l s)).
Proof.
  intros Hbody. induction l as [|x l IH]; intros s.
  - apply disciplined_nil.
  - specialize (Hbody x s).
    destruct (body x s) as [[[[]|e] s1] t1] eqn:Hx.
    + rewrite (for_each_cons_ok _ _ _ _ _ _ Hx). simpl.
      apply disciplined_app; [done | apply IH].
    + by rewrite (for_each_cons_raise _ _ _ _ _ _ _ Hx).
Qed.

Lemma fetched_ids_app (t1 t2 : list event) :
  fetched_ids (t1 ++ t2) = fetched_ids t1 ++ fetched_ids t2.
Proof. apply omap_app. Qed.

Lemma mutated_ids_app (t1 t2 : list event) :
  mutated_ids (t1 ++ t2) = mutated_ids t1 ++ mutated_ids t2.
Proof. apply omap_app. Qed.

Lemma count_warnings_app (t1 t2 : list event) :
  count_warnings (t1 ++ t2) = count_warnings t1 + count_warnings t2.
Proof. unfold count_warnings. by rewrite filter_app, length_app. Qed.

End Loops.

(** ** The read-modify-write cycle of disable and set-protocols *)

Section FetchWrite.
Context {R : Type} `{CF : CloudFrontClient R}.

Lemma disable_is_cycle (d : Resource.t) :
  DistributionDisableAction_process_distribution d
  = cycle (Resource.Id d) (Config.set_Enabled false)
          (WarningDisable (Resource.ARN d)).
Proof. reflexivity. Qed.

Lemma set_protocols_is_cycle (data : SetProtocolsData.t) (d : Resource.t) :
  DistributionSSLAction_process_distribution data d
  = cycle (Resource.Id d) (set_protocols_transform data)
          (WarningForceSsl (Resource.ARN d)).
Proof. reflexivity. Qed.

(** The three runs of a cycle. *)
Lemma cycle_fetch_fails id patch warn (s s1 : R) (e : exn) :
  get_distribution_config id s = (Raise e, s1) →
  cycle id patch warn s
  = (Ok tt, s1, [GetDistributionConfig id (Raise e); Log (warn e)]).
Proof.
  intros Hf. unfold cycle, try_except, bind, client_get_distribution_config,
    call. by rewrite Hf.
Qed.

Lemma cycle_write_fails id patch warn (s s1 s2 : R) cfg etag (e : exn) :
  get_distribution_config id s = (Ok (cfg, etag), s1) →
  update_distribution id (patch cfg) etag s1 = (Raise e, s2) →
  cycle id patch warn s
  = (Ok tt, s2,
     [GetDistributionConfig id (Ok (cfg, etag));
      UpdateDistribution id (patch cfg) etag (Raise e);
      Log (warn e)]).
Proof.
  intros Hf Hu. unfold cycle, try_except, bind,
    client_get_distribution_config, client_update_distribution, call.
  rewrite Hf. simpl. by rewrite Hu.
Qed.

Lemma cycle_write_accepted id patch warn (s s1 s2 : R) cfg etag :
  get_distribution_config id s = (Ok (cfg, etag), s1) →
  update_distribution id (patch cfg) etag s1 = (Ok tt, s2) →
  cycle id patch warn s
  = (Ok tt, s2,
     [GetDistributionConfig id (Ok (cfg, etag));
      UpdateDistribution id (patch cfg) etag (Ok tt)]).
Proof.
  intros Hf Hu. unfold cycle, try_except, bind,
    client_get_distribution_config, client_update_distribution, call.
  rewrite Hf. simpl. by rewrite Hu.
Qed.

(** Case analysis on a cycle, for the proofs below. *)
Lemma cycle_cases id patch warn (s : R) :
  (∃ s1 e, get_distribution_config id s = (Raise e, s1)
     ∧ cycle id patch warn s
       = (Ok tt, s1, [GetDistributionConfig id (Raise e); Log (warn e)]))
  ∨ (∃ s1 s2 cfg etag e,
       get_distribution_config id s = (Ok (cfg, etag), s1)
       ∧ update_distribution id (patch cfg) etag s1 = (Raise e, s2)
       ∧ cycle id patch warn s
         = (Ok tt, s2,
            [GetDistributionConfig id (Ok (cfg, etag));
             UpdateDistribution id (patch cfg) etag (Raise e);
             Log (warn e)]))
  ∨ (∃ s1 s2 cfg etag,
       get_distribution_config id s = (Ok (cfg, etag), s1)
       ∧ update_distribution id (patch cfg) etag s1 = (Ok tt, s2)
       ∧ cycle id patch warn s
         = (Ok tt, s2,
            [GetDistributionConfig id (Ok (cfg, etag));
             UpdateDistribution id (patch cfg) etag (Ok tt)])).
Proof.
  destruct (get_distribution_config id s) as [[[cfg etag]|e] s1] eqn:Hf.
  - destruct (update_distribution id (patch cfg) etag s1)
      as [[[]|e] s2] eqn:Hu.
    + right; right. exists s1, s2, cfg, etag.
      eauto using cycle_write_accepted.
    + right; left. exists s1, s2, cfg, etag, e.
      eauto using cycle_write_fails.
  - left. exists s1, e. eauto using cycle_fetch_fails.
Qed.

Lemma cycle_never_raises id patch warn (s : R) :
  outcome (cycle id patch warn s) = Ok tt.
Proof.
  destruct (cycle_cases id patch warn s)
    as [(?&?&_&->)|[(?&?&?&?&?&_&_&->)|(?&?&?&?&_&_&->)]]; done.
Qed.

Lemma cycle_fetches_once id patch warn (s : R) :
  fetched_ids (trace (cycle id patch warn s)) = [id].
Proof.
  destruct (cycle_cases id patch warn s)
    as [(?&?&_&->)|[(?&?&?&?&?&_&_&->)|(?&?&?&?&_&_&->)]]; done.
Qed.

Lemma cycle_writes_at_most_once id patch warn (s : R) :
  (count_writes (trace (cycle id patch warn s)) ≤ 1)%nat.
Proof.
  destruct (cycle_cases id patch warn s)
    as [(?&?&_&->)|[(?&?&?&?&?&_&_&->)|(?&?&?&?&_&_&->)]];
    vm_compute; lia.
Qed.

(** Each invocation ends mutated or with one recorded failure. *)
Lemma cycle_mutated_or_failed id patch warn (s : R) :
  (∀ e, is_warning (Log (warn e)) = true) →
  length (mutated_ids (trace (cycle id patch warn s)))
  + count_warnings (trace (cycle id patch warn s)) = 1%nat.
Proof.
  intros Hw.
  destruct (cycle_cases id patch warn s)
    as [(?&e&_&->)|[(?&?&?&?&e&_&_&->)|(?&?&?&?&_&_&->)]];
    try done; unfold count_warnings, trace; simpl;
    rewrite ?filter_cons, ?filter_nil; simpl;
    rewrite (decide_True (P := is_warning (Log (warn e)) = true)) by done;
    done.
Qed.

Lemma cycle_disciplined id patch warn (s : R) :
  disciplined (trace (cycle id patch warn s)).
Proof.
  destruct (cycle_cases id patch warn s)
    as [(?&?&_&->)|[(?&?&?&etag&?&_&_&->)|(?&?&?&etag&_&_&->)]];
    intros held; simpl.
  - by exists (delete id held).
  - exists (<[id := etag]> held). intros rest. simpl.
    by rewrite lookup_insert_eq, bool_decide_eq_true_2.
  - exists (delete id (<[id := etag]> held)). intros rest. simpl.
    by rewrite lookup_insert_eq, bool_decide_eq_true_2.
Qed.

End FetchWrite.

(** ** The retried write of set-waf *)

Section Retry.
Context {R : Type} `{CF : CloudFrontClient R}.

(** A retried write is a run of rejected attempts, each rejected with a
    retryable code, followed by one last attempt that decides the
    outcome; every attempt has the same arguments and there are at most
    [retries] rejected ones before the last. *)
Lemma retry_loop_update_shape (codes : list string) (retries : nat)
    (id : string) (cfg : Config.t) (etag : string) (s : R) :
  let x := retry_loop codes retries
             (client_update_distribution id cfg etag) s in
  ∃ rejected : list string,
    Forall (λ c, c ∈ codes) rejected
    ∧ (length rejected ≤ retries)%nat
    ∧ trace x
      = ((λ c, UpdateDistribution id cfg etag (Raise (ClientError c)))
           <$> rejected)
        ++ [UpdateDistribution id cfg etag (outcome x)].
Proof.
  pose proof (Forall_nil (λ c : string, c ∈ codes)) as Hnil.
  revert s. induction retries as [|n IH]; intros s; cbv zeta.
  - unfold retry_loop, client_update_distribution, call.
    destruct (update_distribution id cfg etag s) as [[[]|e] s1].
    { exists []. split; [done|]. split; [simpl; lia|done]. }
    destruct e;
      try (exists []; split; [done|]; split; [simpl; lia|done]).
    case_bool_decide;
      exists []; (split; [done|]); split; simpl; (lia || done).
  - cbn [retry_loop]. unfold client_update_distribution, call in *.
    destruct (update_distribution id cfg etag s) as [[[]|e] s1].
    { exists []. split; [done|]. split; [simpl; lia|done]. }
    destruct e;
      try (exists []; split; [done|]; split; [simpl; lia|done]).
    case_bool_decide as Hc;
      [|exists []; (split; [done|]); split; [simpl; lia|done]].
    destruct (IH s1) as (rej & Hrej & Hlen & Htr).
    destruct (retry_loop codes n _ s1) as [[r s2] t2].
    unfold trace, outcome in *. simpl in *. exists (code :: rej).
    split; [by constructor|]. split; [simpl; lia|].
    by rewrite Htr.
Qed.

Lemma retry_loop_rejected (codes : list string) (retries : nat) {A}
    (func : M R A) (s s1 : R) (t1 : list event) (code : string) :
  code ∉ codes →
  func s = (Raise (ClientError code), s1, t1) →
  retry_loop codes retries func s = (Raise (ClientError code), s1, t1).
Proof.
  intros Hc Hf. destruct retries; simpl; rewrite Hf;
    by rewrite bool_decide_eq_false_2.
Qed.

Lemma writes_fetch_nothing (id : string) (cfg : Config.t) (etag : string)
    (answers : list (result unit)) :
  fetched_ids (UpdateDistribution id cfg etag <$> answers) = [].
Proof. by induction answers. Qed.

(** Rejected attempts followed by a last one keep the token. *)
Lemma token_discipline_attempts (held : gmap string string) (id : string)
    (cfg : Config.t) (etag : string) (rejected : list string)
    (last : result unit) (rest : list event) :
  held !! id = Some etag →
  token_discipline held
    ((((λ c, UpdateDistribution id cfg etag (Raise (ClientError c)))
         <$> rejected)
      ++ [UpdateDistribution id cfg etag last]) ++ rest)
  = token_discipline (if is_ok last then delete id held else held) rest.
Proof.
  intros Hheld. induction rejected as [|c rej IH]; simpl.
  - by rewrite Hheld, bool_decide_eq_true_2.
  - by rewrite Hheld, bool_decide_eq_true_2.
Qed.

End Retry.

(** ** set-waf, one resource *)

Section SetWafResource.
Context {R : Type} `{CF : CloudFrontClient R}.
Variable max_attempts : nat.

Lemma SetWaf_skips_true (force : bool) (target_acl_id : string)
    (r : Resource.t) (s : R) :
  SetWaf_skips force target_acl_id r = true →
  SetWaf_process_resource max_attempts force target_acl_id r s
  = (Ok tt, s, []).
Proof.
  unfold SetWaf_skips, SetWaf_process_resource.
  destruct (truthy _ && negb force); [done|].
  destruct (bool_decide _); done.
Qed.

Lemma SetWaf_skips_false (force : bool) (target_acl_id : string)
    (r : Resource.t) :
  SetWaf_skips force target_acl_id r = false →
  SetWaf_process_resource max_attempts force target_acl_id r
  = (result <- client_get_distribution_config (Resource.Id r) ;;
     retry max_attempts
       (client_update_distribution (Resource.Id r)
          (Config.set_WebACLId target_acl_id result.1) result.2)).
Proof.
  unfold SetWaf_skips, SetWaf_process_resource.
  destruct (truthy _ && negb force); [done|].
  destruct (bool_decide _); done.
Qed.

Lemma SetWaf_fetch_fails (force : bool) (target_acl_id : string)
    (r : Resource.t) (s s1 : R) (e : exn) :
  SetWaf_skips force target_acl_id r = false →
  get_distribution_config (Resource.Id r) s = (Raise e, s1) →
  SetWaf_process_resource max_attempts force target_acl_id r s
  = (Raise e, s1, [GetDistributionConfig (Resource.Id r) (Raise e)]).
Proof.
  intros Hskip Hf. rewrite SetWaf_skips_false by done.
  unfold bind, client_get_distribution_config, call. by rewrite Hf.
Qed.

Lemma SetWaf_fetch_ok (force : bool) (target_acl_id : string)
    (r : Resource.t) (s s1 : R) (cfg : Config.t) (etag : string) :
  SetWaf_skips force target_acl_id r = false →
  get_distribution_config (Resource.Id r) s = (Ok (cfg, etag), s1) →
  SetWaf_process_resource max_attempts force target_acl_id r s
  = let y := retry max_attempts
               (client_update_distribution (Resource.Id r)
                  (Config.set_WebACLId target_acl_id cfg) etag) s1 in
    (outcome y, final y,
     GetDistributionConfig (Resource.Id r) (Ok (cfg, etag)) :: trace y).
Proof.
  intros Hskip Hf. rewrite SetWaf_skips_false by done.
  unfold bind, client_get_distribution_config.
  unfold call at 1. rewrite Hf. simpl.
  by destruct (retry _ _ s1) as [[out s2] t2].
Qed.

(** A resource that is not skipped and whose fetch succeeds is written
    with the fetched ETag: rejected attempts, all throttled, then one
    last attempt whose answer is the outcome. *)
Lemma SetWaf_fetch_succeeds (force : bool) (target_acl_id : string)
    (r : Resource.t) (s s1 : R) (cfg : Config.t) (etag : string) :
  SetWaf_skips force target_acl_id r = false →
  get_distribution_config (Resource.Id r) s = (Ok (cfg, etag), s1) →
  let x := SetWaf_process_resource max_attempts force target_acl_id r s in
  let write := UpdateDistribution (Resource.Id r)
                 (Config.set_WebACLId target_acl_id cfg) etag in
  ∃ rejected : list string,
    Forall (λ c, c = "Throttling") rejected
    ∧ (length rejected ≤ max_attempts - 1)%nat
    ∧ trace x
      = GetDistributionConfig (Resource.Id r) (Ok (cfg, etag))
        :: ((λ c, write (Raise (ClientError c))) <$> rejected)
        ++ [write (outcome x)].
Proof.
  intros Hskip Hf x write. subst x write.
  rewrite (SetWaf_fetch_ok _ _ _ _ _ _ _ Hskip Hf). cbv zeta.
  unfold retry.
  destruct (retry_loop_update_shape ["Throttling"] (max_attempts - 1)
              (Resource.Id r) (Config.set_WebACLId target_acl_id cfg)
              etag s1) as (rej & Hrej & Hlen & Htr).
  exists rej. split; [|split; [done|]].
  - eapply Forall_impl; [exact Hrej|]. intros c Hc.
    by apply list_elem_of_singleton in Hc.
  - unfold trace at 1, outcome at 1. simpl. by rewrite Htr.
Qed.

(** A write rejected with a code that is not retryable ends the
    invocation at once, with that error. *)
Lemma SetWaf_write_rejected (force : bool) (target_acl_id : string)
    (r : Resource.t) (s s1 s2 : R) (cfg : Config.t) (etag code : string) :
  SetWaf_skips force target_acl_id r = false →
  get_distribution_config (Resource.Id r) s = (Ok (cfg, etag), s1) →
  update_distribution (Resource.Id r)
    (Config.set_WebACLId target_acl_id cfg) etag s1
  = (Raise (ClientError code), s2) →
  code ≠ "Throttling" →
  SetWaf_process_resource max_attempts force target_acl_id r s
  = (Raise (ClientError code), s2,
     [GetDistributionConfig (Resource.Id r) (Ok (cfg, etag));
      UpdateDistribution (Resource.Id r)
        (Config.set_WebACLId target_acl_id cfg) etag
        (Raise (ClientError code))]).
Proof.
  intros Hskip Hf Hu Hc.
  rewrite (SetWaf_fetch_ok _ _ _ _ _ _ _ Hskip Hf). cbv zeta.
  unfold retry.
  rewrite (retry_loop_rejected _ _ _ s1 s2
             [UpdateDistribution (Resource.Id r)
                (Config.set_WebACLId target_acl_id cfg) etag
                (Raise (ClientError code))] code); [done| |].
  - by intros ?%list_elem_of_singleton.
  - unfold client_update_distribution, call. by rewrite Hu.
Qed.

Lemma SetWaf_resource_disciplined (force : bool) (target_acl_id : string)
    (r : Resource.t) (s : R) :
  disciplined
    (trace (SetWaf_process_resource max_attempts force target_acl_id r s)).
Proof.
  destruct (SetWaf_skips force target_acl_id r) eqn:Hskip.
  { rewrite SetWaf_skips_true by done. apply disciplined_nil. }
  destruct (get_distribution_config (Resource.Id r) s)
    as [[[cfg etag]|e] s1] eqn:Hf.
  - destruct (SetWaf_fetch_succeeds force target_acl_id r s s1 cfg etag
                Hskip Hf) as (rej & _ & _ & ->).
    intros held. eexists. intros rest. cbn [app token_discipline].
    rewrite (token_discipline_attempts (<[Resource.Id r := etag]> held));
      [done|apply lookup_insert_eq].
  - rewrite (SetWaf_fetch_fails _ _ _ _ _ _ Hskip Hf).
    apply disciplined_failed_fetch.
Qed.

End SetWafResource.

(** ** The mutators *)

Section Mutators.
Context {R : Type} `{CF : CloudFrontClient R}.
Variable max_attempts : nat.

(** *** disable and set-protocols, one invocation after the other *)

(** Cycles made one after the other never raise, fetch every resource
    exactly once, in list order, and end each one either mutated or with
    one recorded failure. *)
Lemma cycles_isolated (patch : Config.t → Config.t)
    (warn : Resource.t → exn → log_record)
    (distributions : list Resource.t) (s : R) :
  (∀ d e, is_warning (Log (warn d e)) = true) →
  let x := for_each (λ d, cycle (Resource.Id d) patch (warn d))
                    distributions s in
  outcome x = Ok tt
  ∧ fetched_ids (trace x) = Resource.Id <$> distributions
  ∧ length (mutated_ids (trace x)) + count_warnings (trace x)
    = length distributions.
Proof.
  intros Hw. revert s. induction distributions as [|d ds IH]; intros s.
  - done.
  - pose proof (cycle_never_raises (Resource.Id d) patch (warn d) s) as Hok.
    pose proof (cycle_fetches_once (Resource.Id d) patch (warn d) s) as Hf.
    pose proof (cycle_mutated_or_failed (Resource.Id d) patch (warn d) s
                  (Hw d)) as Hm.
    destruct (cycle (Resource.Id d) patch (warn d) s) as [[out s1] t1] eqn:E.
    unfold outcome, trace in Hok, Hf, Hm. simpl in Hok, Hf, Hm. subst out.
    cbv zeta.
    rewrite (for_each_cons_ok (λ d, cycle (Resource.Id d) patch (warn d))
               d ds s s1 t1 E).
    destruct (IH s1) as (IH1 & IH2 & IH3). clear IH.
    destruct (for_each _ ds s1) as [[o2 s2] t2].
    unfold outcome, trace in *. simpl in *.
    rewrite fetched_ids_app, mutated_ids_app, count_warnings_app,
      length_app, Hf, IH2.
    split; [done|]. split; [done|]. lia.
Qed.

Lemma disable_batch_isolated (distributions : list Resource.t) (s : R) :
  let x := DistributionDisableAction_process_serial distributions s in
  outcome x = Ok tt
  ∧ fetched_ids (trace x) = Resource.Id <$> distributions
  ∧ length (mutated_ids (trace x)) + count_warnings (trace x)
    = length distributions.
Proof.
  apply (cycles_isolated (Config.set_Enabled false)
           (λ d, WarningDisable (Resource.ARN d))). done.
Qed.

Lemma set_protocols_batch_isolated (data : SetProtocolsData.t)
    (distributions : list Resource.t) (s : R) :
  let x := DistributionSSLAction_process_serial data distributions s in
  outcome x = Ok tt
  ∧ fetched_ids (trace x) = Resource.Id <$> distributions
  ∧ length (mutated_ids (trace x)) + count_warnings (trace x)
    = length distributions.
Proof.
  apply (cycles_isolated (set_protocols_transform data)
           (λ d, WarningForceSsl (Resource.ARN d))). done.
Qed.

(** *** set-waf *)

Lemma SetWaf_process_resolved (wafs : list Waf.t) (data : SetWafData.t)
    (resources : list Resource.t) (target_acl_id : string) :
  resolve wafs (SetWafData.web_acl data) = Ok target_acl_id →
  SetWaf_process max_attempts wafs data resources
  = for_each (SetWaf_process_resource max_attempts
                (default false (SetWafData.force data)) target_acl_id)
             resources.
Proof. intros H. unfold SetWaf_process. by rewrite H. Qed.

Lemma SetWaf_process_unresolved (wafs : list Waf.t) (data : SetWafData.t)
    (resources : list Resource.t) (e : exn) (s : R) :
  resolve wafs (SetWafData.web_acl data) = Raise e →
  SetWaf_process max_attempts wafs data resources s = (Raise e, s, []).
Proof. intros H. unfold SetWaf_process. by rewrite H. Qed.

(** C5.  When the web-acl reference is neither a name nor an identifier
    of the lookup table, set-waf raises the invalid-reference error with
    no remote call made: the trace is empty and the remote state is the
    initial one, whatever the resources. *)
Theorem SetWaf_unknown_reference_writes_nothing (wafs : list Waf.t)
    (data : SetWafData.t) (resources : list Resource.t) (s : R) :
  ¬ known_name (waf_name_id_map wafs) (SetWafData.web_acl data) →
  ¬ known_identifier (waf_name_id_map wafs) (SetWafData.web_acl data) →
  SetWaf_process max_attempts wafs data resources s
  = (Raise (ValueError ("invalid web acl: " +:+ SetWafData.web_acl data)),
     s, []).
Proof.
  intros Hn Hi. apply SetWaf_process_unresolved.
  by apply resolve_unknown_reference.
Qed.

End Mutators.

(** ** The fetch-decide-write protocol *)

Section Protocol.
Context {R : Type} `{CF : CloudFrontClient R}.
Variable max_attempts : nat.

Lemma SetWaf_process_disciplined (wafs : list Waf.t) (data : SetWafData.t)
    (resources : list Resource.t) (s : R) :
  disciplined (trace (SetWaf_process max_attempts wafs data resources s)).
Proof.
  destruct (resolve wafs (SetWafData.web_acl data)) as [id|e] eqn:Hres.
  - rewrite (SetWaf_process_resolved _ _ _ _ _ Hres).
    apply for_each_disciplined. intros r s'.
    apply SetWaf_resource_disciplined.
  - rewrite (SetWaf_process_unresolved _ _ _ _ _ _ Hres).
    apply disciplined_nil.
Qed.

(** C8.  In every run of set-waf, disable and set-protocols, over a batch
    or for a single resource, each [update_distribution] call carries as
    [IfMatch] the ETag answered by the latest [get_distribution_config]
    of the same resource in that run, and that token has not been used by
    an accepted write since.  The batches of disable and set-protocols
    are taken with their invocations made one after the other. *)
Theorem writes_carry_fetched_token (s : R) :
  (∀ wafs data resources,
     token_discipline ∅
       (trace (SetWaf_process max_attempts wafs data resources s)) = true)
  ∧ (∀ force target_acl_id r,
       token_discipline ∅
         (trace (SetWaf_process_resource max_attempts force target_acl_id
                   r s)) = true)
  ∧ (∀ distributions,
       token_discipline ∅
         (trace (DistributionDisableAction_process_serial distributions s))
       = true)
  ∧ (∀ distribution,
       token_discipline ∅
         (trace (DistributionDisableAction_process_distribution
                   distribution s)) = true)
  ∧ (∀ data distributions,
       token_discipline ∅
         (trace (DistributionSSLAction_process_serial data distributions s))
       = true)
  ∧ (∀ data distribution,
       token_discipline ∅
         (trace (DistributionSSLAction_process_distribution data
                   distribution s)) = true).
Proof.
  repeat split; intros; apply disciplined_accepted.
  - apply SetWaf_process_disciplined.
  - apply SetWaf_resource_disciplined.
  - apply for_each_disciplined. intros d s'. rewrite disable_is_cycle.
    apply cycle_disciplined.
  - rewrite disable_is_cycle. apply cycle_disciplined.
  - apply for_each_disciplined. intros d s'.
    rewrite set_protocols_is_cycle. apply cycle_disciplined.
  - rewrite set_protocols_is_cycle. apply cycle_disciplined.
Qed.

(** C3, amended.  The two skip tests of set-waf are made on the resource
    snapshot handed to the action, before any fetch: a skipped resource
    causes no remote call at all and leaves the remote state untouched,
    whatever the remote configuration is; a resource that is not skipped
    is fetched first, exactly once. *)
Theorem SetWaf_skip_decided_on_snapshot (force : bool)
    (target_acl_id : string) (r : Resource.t) (s : R) :
  let x := SetWaf_process_resource max_attempts force target_acl_id r s in
  (SetWaf_skips force target_acl_id r = true → x = (Ok tt, s, []))
  ∧ (SetWaf_skips force target_acl_id r = false →
     ∃ answer rest,
       trace x = GetDistributionConfig (Resource.Id r) answer :: rest
       ∧ fetched_ids rest = []).
Proof.
  intros x. subst x. split; intros Hskip.
  - by apply SetWaf_skips_true.
  - destruct (get_distribution_config (Resource.Id r) s)
      as [[[cfg etag]|e] s1] eqn:Hf.
    + destruct (SetWaf_fetch_succeeds max_attempts force target_acl_id r
                  s s1 cfg etag Hskip Hf) as (rej & _ & _ & ->).
      eexists _, _. split; [done|].
      rewrite fetched_ids_app. simpl. rewrite app_nil_r.
      by induction rej.
    + rewrite (SetWaf_fetch_fails _ _ _ _ _ _ _ Hskip Hf).
      by eexists _, _.
Qed.

Lemma for_each_app_ok {A} (body : A → M R unit) (l1 l2 : list A)
    (s0 s : R) (t0 : list event) :
  for_each body l1 s0 = (Ok tt, s, t0) →
  for_each body (l1 ++ l2) s0
  = (outcome (for_each body l2 s), final (for_each body l2 s),
     t0 ++ trace (for_each body l2 s)).
Proof.
  revert s0 t0. induction l1 as [|x l1 IH]; intros s0 t0.
  - intros [= -> <-]. simpl. by destruct (for_each body l2 s) as [[? ?] ?].
  - destruct (body x s0) as [[[[]|e] sa] ta] eqn:Hx.
    + rewrite (for_each_cons_ok _ _ _ _ _ _ Hx).
      change ((x :: l1) ++ l2) with (x :: (l1 ++ l2)).
      rewrite (for_each_cons_ok _ _ _ _ _ _ Hx).
      destruct (for_each body l1 sa) as [[r sb] tb] eqn:Hl1.
      unfold outcome, final, trace. simpl. intros [= -> -> <-].
      rewrite (IH sa tb Hl1). unfold outcome, final, trace. simpl.
      by rewrite app_assoc.
    + by rewrite (for_each_cons_raise _ _ _ _ _ _ _ Hx).
Qed.

Lemma retry_loop_ok (codes : list string) (retries : nat) {A}
    (func : M R A) (s s1 : R) (t1 : list event) (a : A) :
  func s = (Ok a, s1, t1) →
  retry_loop codes retries func s = (Ok a, s1, t1).
Proof. intros Hf. destruct retries; simpl; by rewrite Hf. Qed.

Lemma retry_loop_throttled_once (codes : list string) (retries : nat) {A}
    (func : M R A) (s s2 s3 : R) (t1 t2 : list event) (a : A)
    (code : string) :
  code ∈ codes →
  func s = (Raise (ClientError code), s2, t1) →
  func s2 = (Ok a, s3, t2) →
  retry_loop codes (S retries) func s = (Ok a, s3, t1 ++ t2).
Proof.
  intros Hc H1 H2. cbn [retry_loop]. rewrite H1.
  rewrite bool_decide_eq_true_2 by done.
  by rewrite (retry_loop_ok _ _ _ _ _ _ _ H2).
Qed.

(** C1, amended.  A write rejected with an error code that is not
    [Throttling] (a version mismatch in particular) is not followed by a
    fetch or by another write of that resource: the invocation has made
    one fetch and one write.  disable and set-protocols log a warning,
    whatever was raised, and the invocation ends normally; set-waf lets
    the error leave its loop at the resource that met it, wherever it
    stands in the list, so the resources after it are not processed.  The
    only retry is that of set-waf on [Throttling]: the same write, with
    the same document and the same token and without a fetch, throttled
    at most [max_attempts - 1] times before the attempt that decides the
    outcome; a throttled write followed by an accepted one is a
    success. *)
Theorem rejected_write_ends_the_invocation (d : Resource.t) (s s1 : R)
    (cfg : Config.t) (etag : string) :
  get_distribution_config (Resource.Id d) s = (Ok (cfg, etag), s1) →
  (∀ e s2,
     update_distribution (Resource.Id d) (Config.set_Enabled false cfg)
       etag s1 = (Raise e, s2) →
     DistributionDisableAction_process_distribution d s
     = (Ok tt, s2,
        [GetDistributionConfig (Resource.Id d) (Ok (cfg, etag));
         UpdateDistribution (Resource.Id d) (Config.set_Enabled false cfg)
           etag (Raise e);
         Log (WarningDisable (Resource.ARN d) e)]))
  ∧ (∀ data e s2,
       update_distribution (Resource.Id d) (set_protocols_transform data cfg)
         etag s1 = (Raise e, s2) →
       DistributionSSLAction_process_distribution data d s
       = (Ok tt, s2,
          [GetDistributionConfig (Resource.Id d) (Ok (cfg, etag));
           UpdateDistribution (Resource.Id d)
             (set_protocols_transform data cfg) etag (Raise e);
           Log (WarningForceSsl (Resource.ARN d) e)]))
  ∧ (∀ wafs data target_acl_id before rest s0 t0 code s2,
       resolve wafs (SetWafData.web_acl data) = Ok target_acl_id →
       SetWaf_process max_attempts wafs data before s0 = (Ok tt, s, t0) →
       SetWaf_skips (default false (SetWafData.force data)) target_acl_id d
       = false →
       update_distribution (Resource.Id d)
         (Config.set_WebACLId target_acl_id cfg) etag s1
       = (Raise (ClientError code), s2) →
       code ≠ "Throttling" →
       SetWaf_process max_attempts wafs data (before ++ d :: rest) s0
       = (Raise (ClientError code), s2,
          t0 ++ [GetDistributionConfig (Resource.Id d) (Ok (cfg, etag));
                 UpdateDistribution (Resource.Id d)
                   (Config.set_WebACLId target_acl_id cfg) etag
                   (Raise (ClientError code))]))
  ∧ (∀ force target_acl_id,
       SetWaf_skips force target_acl_id d = false →
       let x := SetWaf_process_resource max_attempts force target_acl_id
                  d s in
       let write := UpdateDistribution (Resource.Id d)
                      (Config.set_WebACLId target_acl_id cfg) etag in
       ∃ rejected : list string,
         Forall (λ c, c = "Throttling") rejected
         ∧ (length rejected ≤ max_attempts - 1)%nat
         ∧ trace x
           = GetDistributionConfig (Resource.Id d) (Ok (cfg, etag))
             :: ((λ c, write (Raise (ClientError c))) <$> rejected)
             ++ [write (outcome x)])
  ∧ (∀ force target_acl_id s2 s3,
       SetWaf_skips force target_acl_id d = false →
       (2 ≤ max_attempts)%nat →
       update_distribution (Resource.Id d)
         (Config.set_WebACLId target_acl_id cfg) etag s1
       = (Raise (ClientError "Throttling"), s2) →
       update_distribution (Resource.Id d)
         (Config.set_WebACLId target_acl_id cfg) etag s2 = (Ok tt, s3) →
       SetWaf_process_resource max_attempts force target_acl_id d s
       = (Ok tt, s3,
          [GetDistributionConfig (Resource.Id d) (Ok (cfg, etag));
           UpdateDistribution (Resource.Id d)
             (Config.set_WebACLId target_acl_id cfg) etag
             (Raise (ClientError "Throttling"));
           UpdateDistribution (Resource.Id d)
             (Config.set_WebACLId target_acl_id cfg) etag (Ok tt)])).
Proof.
  intros Hf. split; [|split; [|split; [|split]]].
  - intros e s2 Hu. rewrite disable_is_cycle.
    by apply (cycle_write_fails _ _ _ s s1 s2 cfg etag).
  - intros data e s2 Hu. rewrite set_protocols_is_cycle.
    by apply (cycle_write_fails _ _ _ s s1 s2 cfg etag).
  - intros wafs data id before rest s0 t0 code s2 Hres Hbefore Hskip Hu Hc.
    rewrite (SetWaf_process_resolved _ _ _ _ _ Hres) in Hbefore.
    rewrite (SetWaf_process_resolved _ _ _ _ _ Hres).
    rewrite (for_each_app_ok _ _ _ _ _ _ Hbefore).
    rewrite (for_each_cons_raise _ d rest s s2
               [GetDistributionConfig (Resource.Id d) (Ok (cfg, etag));
                UpdateDistribution (Resource.Id d)
                  (Config.set_WebACLId id cfg) etag
                  (Raise (ClientError code))] (ClientError code)); [done|].
    by apply (SetWaf_write_rejected _ _ _ _ s s1 s2 cfg etag code).
  - intros force id Hskip.
    by apply (SetWaf_fetch_succeeds max_attempts force id d s s1 cfg etag).
  - intros force id s2 s3 Hskip Hmax Hu1 Hu2.
    rewrite (SetWaf_fetch_ok _ _ _ _ _ _ _ _ Hskip Hf). cbv zeta.
    unfold retry. destruct max_attempts as [|[|n]]; [lia|lia|].
    replace (S (S n) - 1) with (S n) by lia.
    rewrite (retry_loop_throttled_once _ n _ s1 s2 s3
               [UpdateDistribution (Resource.Id d)
                  (Config.set_WebACLId id cfg) etag
                  (Raise (ClientError "Throttling"))]
               [UpdateDistribution (Resource.Id d)
                  (Config.set_WebACLId id cfg) etag (Ok tt)]
               tt "Throttling"); [done|by apply list_elem_of_singleton|..].
    + unfold client_update_distribution, call. by rewrite Hu1.
    + unfold client_update_distribution, call. by rewrite Hu2.
Qed.

End Protocol.

(** ** Runs against the concrete service *)

Section Scenarios.

(** The checker of the token discipline rejects a write that carries a
    token older than the latest fetch, a write without a fetch, and a
    second write with a token already used. *)
Lemma token_discipline_rejects_stale_writes :
  let c := Mock.config "" in
  token_discipline ∅
    [GetDistributionConfig "d1" (Ok (c, "E0"));
     GetDistributionConfig "d1" (Ok (c, "E1"));
     UpdateDistribution "d1" c "E0" (Ok tt)] = false
  ∧ token_discipline ∅ [UpdateDistribution "d1" c "E0" (Ok tt)] = false
  ∧ token_discipline ∅
      [GetDistributionConfig "d1" (Ok (c, "E0"));
       UpdateDistribution "d1" c "E0" (Ok tt);
       UpdateDistribution "d1" c "E0" (Ok tt)] = false
  ∧ token_discipline ∅
      [GetDistributionConfig "d1" (Ok (c, "E0"));
       GetDistributionConfig "d2" (Ok (c, "E7"));
       UpdateDistribution "d1" c "E0" (Ok tt)] = true.
Proof. repeat split; vm_compute; reflexivity. Qed.

(** C1 fails as stated.  Another writer modifies distribution [d1] right
    after it is fetched, so the write is rejected as a version mismatch.
    disable logs the failure and stops; set-waf raises.  Neither fetches
    again, although a second cycle would have succeeded. *)
Lemma version_mismatch_is_not_retried :
  let s := Mock.mk Mock.fleet ["d1"] [] 0 ∅ in
  let d := Mock.distribution "d1" (Some "") in
  let x := DistributionDisableAction_process_distribution d s in
  let y := SetWaf_process 8 Mock.wafs (SetWafData.mk "acl-a" None None)
             [d] s in
  trace x
  = [GetDistributionConfig "d1" (Ok (Mock.config "", "E0"));
     UpdateDistribution "d1" (Config.set_Enabled false (Mock.config ""))
       "E0" (Raise (ClientError "PreconditionFailed"));
     Log (WarningDisable (Resource.ARN d)
            (ClientError "PreconditionFailed"))]
  ∧ restarts_at_fetch "PreconditionFailed" (trace x) = false
  ∧ outcome y = Raise (ClientError "PreconditionFailed")
  ∧ fetched_ids (trace y) = ["d1"]
  ∧ restarts_at_fetch "PreconditionFailed" (trace y) = false
  ∧ is_ok (outcome (DistributionDisableAction_process_distribution d
                      (final x))) = true
  ∧ mutated_ids (trace (DistributionDisableAction_process_distribution d
                          (final x))) = ["d1"].
Proof. repeat split; vm_compute; reflexivity. Qed.

Lemma rejected_write_ends_the_invocation_witness :
  let rival := Mock.mk Mock.fleet ["d1"] [] 0 ∅ in
  let slow := Mock.mk Mock.fleet [] [] 1 ∅ in
  let data := SetWafData.mk "acl-a" None None in
  let d := Mock.distribution "d1" (Some "") in
  let d2 := Mock.distribution "d2" (Some "") in
  let d3 := Mock.distribution "d3" (Some "") in
  count_fetches
    (trace (DistributionDisableAction_process_distribution d rival))
  = 1%nat
  ∧ count_writes
      (trace (DistributionSSLAction_process_distribution
                (SetProtocolsData.mk None None (Some "https-only")) d rival))
    = 1%nat
  ∧ fetched_ids (trace (SetWaf_process 8 Mock.wafs data [d2; d; d3] rival))
    = ["d2"; "d1"]
  ∧ count_writes
      (trace (DistributionDisableAction_process_distribution d slow))
    = 1%nat
  ∧ count_writes (trace (SetWaf_process_resource 8 false "id-123" d slow))
    = 2%nat
  ∧ outcome (SetWaf_process_resource 8 false "id-123" d slow) = Ok tt.
Proof.
  intros rival slow data d d2 d3.
  set (after := final (SetWaf_process 8 Mock.wafs data [d2] rival)).
  destruct (rejected_write_ends_the_invocation 8 d rival
              (Mock.fetch "d1" rival).2 (Mock.config "") "E0")
    as (H1 & H2 & _); [vm_compute; reflexivity|].
  destruct (rejected_write_ends_the_invocation 8 d after
              (Mock.fetch "d1" after).2 (Mock.config "") "E0")
    as (_ & _ & H3 & _); [vm_compute; reflexivity|].
  destruct (rejected_write_ends_the_invocation 8 d slow
              (Mock.fetch "d1" slow).2 (Mock.config "") "E0")
    as (H4 & _ & _ & _ & H5); [vm_compute; reflexivity|].
  split; [|split; [|split; [|split; [|split]]]].
  - rewrite (H1 (ClientError "PreconditionFailed") (Mock.fetch "d1" rival).2)
      by (vm_compute; reflexivity).
    vm_compute. reflexivity.
  - rewrite (H2 (SetProtocolsData.mk None None (Some "https-only"))
               (ClientError "PreconditionFailed") (Mock.fetch "d1" rival).2)
      by (vm_compute; reflexivity).
    vm_compute. reflexivity.
  - change [d2; d; d3] with ([d2] ++ d :: [d3]).
    rewrite (H3 Mock.wafs data "id-123" [d2] [d3] rival
               (trace (SetWaf_process 8 Mock.wafs data [d2] rival))
               "PreconditionFailed" (Mock.fetch "d1" after).2);
      [vm_compute; reflexivity|vm_compute; reflexivity|
       vm_compute; reflexivity|vm_compute; reflexivity|
       vm_compute; reflexivity|discriminate].
  - rewrite (H4 (ClientError "Throttling") (Mock.mk Mock.fleet [] [] 0 ∅))
      by (vm_compute; reflexivity).
    vm_compute. reflexivity.
  - rewrite (H5 false "id-123" (Mock.mk Mock.fleet [] [] 0 ∅)
               (Mock.update "d1" (Config.set_WebACLId "id-123"
                                    (Mock.config "")) "E0"
                  (Mock.mk Mock.fleet [] [] 0 ∅)).2);
      [vm_compute; reflexivity|vm_compute; reflexivity|lia|
       vm_compute; reflexivity|vm_compute; reflexivity].
  - rewrite (H5 false "id-123" (Mock.mk Mock.fleet [] [] 0 ∅)
               (Mock.update "d1" (Config.set_WebACLId "id-123"
                                    (Mock.config "")) "E0"
                  (Mock.mk Mock.fleet [] [] 0 ∅)).2);
      [vm_compute; reflexivity|vm_compute; reflexivity|lia|
       vm_compute; reflexivity|vm_compute; reflexivity].
Defined.

(** C2 fails on the code for set-waf.  Five distributions, the update of
    the third fails with an error that is not retryable: set-waf raises,
    the fourth and fifth are never fetched, and nothing is logged.  On
    the same input disable, with its invocations made one after the
    other, returns normally, fetches all five, mutates the other four and
    logs exactly one failure. *)
Theorem SetWaf_stops_at_first_failure :
  let s := Mock.mk Mock.fleet [] ["d3"] 0 ∅ in
  let x := SetWaf_process 8 Mock.wafs (SetWafData.mk "acl-a" None None)
             Mock.five s in
  let y := DistributionDisableAction_process_serial Mock.five s in
  outcome x = Raise (ClientError "InternalError")
  ∧ fetched_ids (trace x) = ["d1"; "d2"; "d3"]
  ∧ mutated_ids (trace x) = ["d1"; "d2"]
  ∧ count_warnings (trace x) = 0%nat
  ∧ outcome y = Ok tt
  ∧ fetched_ids (trace y) = ["d1"; "d2"; "d3"; "d4"; "d5"]
  ∧ mutated_ids (trace y) = ["d1"; "d2"; "d4"; "d5"]
  ∧ count_warnings (trace y) = 1%nat.
Proof. repeat split; vm_compute; reflexivity. Qed.

(** C3 fails as stated.  The snapshot of [d1] shows an association that
    the remote configuration no longer has: set-waf skips the resource
    without fetching it, although the configuration a fetch would return
    calls for the change.  Conversely, with a snapshot that shows no
    association and a remote configuration already associated with the
    target, set-waf writes. *)
Lemma SetWaf_skip_ignores_fetched_configuration :
  let data := SetWafData.mk "acl-a" None None in
  let stale := Mock.distribution "d1" (Some "id-456") in
  let x := SetWaf_process 8 Mock.wafs data [stale] Mock.quiet in
  let settled :=
    Mock.mk {["d1" := (Mock.config "id-123", 0%nat)]} [] [] 0 ∅ in
  let y := SetWaf_process 8 Mock.wafs data [Mock.distribution "d1" (Some "")]
             settled in
  (get_distribution_config "d1" Mock.quiet).1 = Ok (Mock.config "", "E0")
  ∧ skips_on_fetched false "id-123" (Mock.config "") = false
  ∧ x = (Ok tt, Mock.quiet, [])
  ∧ (get_distribution_config "d1" settled).1 = Ok (Mock.config "id-123", "E0")
  ∧ skips_on_fetched false "id-123" (Mock.config "id-123") = true
  ∧ mutated_ids (trace y) = ["d1"].
Proof. repeat split; vm_compute; reflexivity. Qed.

Lemma SetWaf_skip_decided_on_snapshot_witness :
  let stale := Mock.distribution "d1" (Some "id-456") in
  SetWaf_process_resource 8 false "id-123" stale Mock.quiet
  = (Ok tt, Mock.quiet, [])
  ∧ fetched_ids
      (trace (SetWaf_process_resource 8 true "id-123" stale Mock.quiet))
    = ["d1"].
Proof.
  intros stale. split.
  - apply (SetWaf_skip_decided_on_snapshot 8 false "id-123" stale
             Mock.quiet).
    vm_compute. reflexivity.
  - destruct (SetWaf_skip_decided_on_snapshot 8 true "id-123" stale
                Mock.quiet) as [_ H].
    destruct H as (answer & rest & -> & Hrest).
    + vm_compute. reflexivity.
    + simpl. by rewrite Hrest.
Defined.

Lemma SetWaf_unknown_reference_writes_nothing_witness :
  SetWaf_process 8 Mock.wafs (SetWafData.mk "acl-z" (Some true) None)
    Mock.five Mock.quiet
  = (Raise (ValueError "invalid web acl: acl-z"), Mock.quiet, []).
Proof.
  apply (SetWaf_unknown_reference_writes_nothing 8 Mock.wafs
           (SetWafData.mk "acl-z" (Some true) None) Mock.five Mock.quiet).
  - intros [i Hi]. vm_compute in Hi. discriminate.
  - apply in_values_unknown_identifier. vm_compute. reflexivity.
Defined.

End Scenarios.

(** ** The dependency-existence filter (check-s3-origin) *)

Section CheckS3Origin.
Context {R : Type} `{S3 : S3Client R}.

Lemma check_origin_not_s3 (accounts : list string) (x : Origin.t)
    (r : Resource.t) (results : list Resource.t) (s : R) :
  Origin.S3OriginConfig x = false →
  check_origin accounts x (r, results) s = (Ok (r, results), s, []).
Proof. intros Hx. unfold check_origin. by rewrite Hx. Qed.

Lemma check_origin_present (accounts : list string) (x : Origin.t)
    (r : Resource.t) (results : list Resource.t) (s s1 : R)
    (owner : string) :
  Origin.S3OriginConfig x = true →
  get_bucket_acl (before_dot (Origin.DomainName x)) s = (Ok owner, s1) →
  check_origin accounts x (r, results) s
  = let b := before_dot (Origin.DomainName x) in
    if owner_rejected accounts owner
    then (Ok (r, results), s1,
          [GetBucketAcl b (Ok owner); Log (DebugBucketExists b);
           Log (DebugOwnerNotInAccounts b)])
    else (Ok (set_c7n_s3_origin r, results ++ [set_c7n_s3_origin r]), s1,
          [GetBucketAcl b (Ok owner); Log (DebugBucketExists b)]).
Proof.
  intros Hx Hacl. unfold check_origin. rewrite Hx.
  unfold try_except_ClientError, bind, client_get_bucket_acl, call.
  rewrite Hacl. simpl. by destruct (owner_rejected accounts owner).
Qed.

Lemma check_origin_absent (accounts : list string) (x : Origin.t)
    (r : Resource.t) (results : list Resource.t) (s s1 : R) (e : exn) :
  Origin.S3OriginConfig x = true →
  get_bucket_acl (before_dot (Origin.DomainName x)) s = (Raise e, s1) →
  check_origin accounts x (r, results) s
  = let b := before_dot (Origin.DomainName x) in
    if bool_decide (e = ClientError "AccessDenied")
    then (Ok (r, results), s1,
          [GetBucketAcl b (Raise e); Log (DebugNonAccessible b)])
    else if bool_decide (e = ClientError "NoSuchBucket")
    then (Ok (r, results), s1,
          [GetBucketAcl b (Raise e); Log (DebugNonExistent b)])
    else (Raise e, s1, [GetBucketAcl b (Raise e)]).
Proof.
  intros Hx Hacl. unfold check_origin. rewrite Hx.
  unfold try_except_ClientError, bind, client_get_bucket_acl, call.
  rewrite Hacl. simpl. destruct e as [code| | |]; try done.
  destruct (decide (code = "AccessDenied")) as [->|Hne1]; [done|].
  rewrite (bool_decide_eq_false_2 (code = "AccessDenied")) by done.
  rewrite (bool_decide_eq_false_2 (ClientError code = _)) by congruence.
  destruct (decide (code = "NoSuchBucket")) as [->|Hne2]; [done|].
  rewrite (bool_decide_eq_false_2 (code = "NoSuchBucket")) by done.
  by rewrite (bool_decide_eq_false_2 (ClientError code = _)) by congruence.
Qed.

(** With an empty account list the owner is not looked at: every bucket
    that exists is a match. *)
Lemma check_origin_no_account_list (x : Origin.t) (r : Resource.t)
    (results : list Resource.t) (s s1 : R) (owner : string) :
  Origin.S3OriginConfig x = true →
  get_bucket_acl (before_dot (Origin.DomainName x)) s = (Ok owner, s1) →
  check_origin [] x (r, results) s
  = (Ok (set_c7n_s3_origin r, results ++ [set_c7n_s3_origin r]), s1,
     [GetBucketAcl (before_dot (Origin.DomainName x)) (Ok owner);
      Log (DebugBucketExists (before_dot (Origin.DomainName x)))]).
Proof.
  intros Hx Hacl. by rewrite (check_origin_present _ _ _ _ _ _ _ Hx Hacl).
Qed.

Lemma fatal_not_absorbed (b : string) (e : exn) :
  e ≠ ClientError "AccessDenied" → e ≠ ClientError "NoSuchBucket" →
  fatal (GetBucketAcl b (Raise e)) = Some e.
Proof.
  intros H1 H2. destruct e as [code| | |]; try done. simpl.
  rewrite (bool_decide_eq_false_2 (code = "AccessDenied")) by congruence.
  by rewrite (bool_decide_eq_false_2 (code = "NoSuchBucket")) by congruence.
Qed.

Lemma ret_invariant {A} (a : A) (s : R) : pass_invariant (ret a s).
Proof. unfold pass_invariant. simpl. constructor. Qed.

Lemma bind_invariant {A B} (m : M R A) (f : A → M R B) (s : R) :
  pass_invariant (m s) → (∀ a s', pass_invariant (f a s')) →
  pass_invariant (bind m f s).
Proof.
  intros Hm Hf. unfold bind.
  destruct (m s) as [[[a|e] s1] t1]; [|exact Hm].
  specialize (Hf a s1). destruct (f a s1) as [[[b|e] s2] t2];
    unfold pass_invariant, outcome, trace in *; simpl in *.
  - by apply Forall_app.
  - destruct Hf as (tr & b & -> & Hfatal & Htr).
    exists (t1 ++ tr), b. rewrite app_assoc.
    split; [done|]. split; [done|]. by apply Forall_app.
Qed.

Lemma fold_m_invariant {A St} (body : A → St → M R St) (l : list A) :
  (∀ x st s, pass_invariant (body x st s)) →
  ∀ st s, pass_invariant (fold_m body l st s).
Proof.
  intros Hbody. induction l as [|x l IH]; intros st s; simpl.
  - apply ret_invariant.
  - apply bind_invariant; [apply Hbody|]. intros st' s'. apply IH.
Qed.

Lemma check_origin_invariant (accounts : list string) (x : Origin.t)
    (st : Resource.t * list Resource.t) (s : R) :
  pass_invariant (check_origin accounts x st s).
Proof.
  destruct st as [r results].
  destruct (Origin.S3OriginConfig x) eqn:Hx.
  - destruct (get_bucket_acl (before_dot (Origin.DomainName x)) s)
      as [[owner|e] s1] eqn:Hacl.
    + rewrite (check_origin_present _ _ _ _ _ _ _ Hx Hacl). cbv zeta.
      destruct (owner_rejected accounts owner);
        unfold pass_invariant; simpl; by repeat constructor.
    + rewrite (check_origin_absent _ _ _ _ _ _ _ Hx Hacl). cbv zeta.
      case_bool_decide as H1; [subst e|case_bool_decide as H2; [subst e|]].
      * unfold pass_invariant; simpl; by repeat constructor.
      * unfold pass_invariant; simpl; by repeat constructor.
      * exists [], (before_dot (Origin.DomainName x)).
        split; [done|].
        split; [by apply fatal_not_absorbed|constructor].
  - rewrite check_origin_not_s3 by done. apply ret_invariant.
Qed.

Lemma check_resource_invariant (accounts : list string) (r : Resource.t)
    (results : list Resource.t) (s : R) :
  pass_invariant (check_resource accounts r results s).
Proof.
  unfold check_resource. apply bind_invariant.
  - apply fold_m_invariant. apply check_origin_invariant.
  - intros. apply ret_invariant.
Qed.

Lemma checked_buckets_app (t1 t2 : list event) :
  checked_buckets (t1 ++ t2) = checked_buckets t1 ++ checked_buckets t2.
Proof. apply omap_app. Qed.

(** In a loop that returns, every iteration has run. *)
Lemma fold_m_checked {A St} (body : A → St → M R St)
    (g : A → list string) (l : list A) :
  (∀ x st s, is_ok (outcome (body x st s)) = true →
             checked_buckets (trace (body x st s)) = g x) →
  ∀ st s, is_ok (outcome (fold_m body l st s)) = true →
          checked_buckets (trace (fold_m body l st s)) = flat_map g l.
Proof.
  intros Hbody. induction l as [|x l IH]; intros st s; simpl; [done|].
  unfold bind. specialize (Hbody x st s).
  destruct (body x st s) as [[[st1|e] s1] t1]; [|done].
  specialize (IH st1 s1).
  destruct (fold_m body l st1 s1) as [[out s2] t2].
  unfold outcome, trace in *. simpl in *. intros Hok.
  by rewrite checked_buckets_app, Hbody, IH.
Qed.

Lemma check_origin_checked (accounts : list string) (x : Origin.t)
    (st : Resource.t * list Resource.t) (s : R) :
  is_ok (outcome (check_origin accounts x st s)) = true →
  checked_buckets (trace (check_origin accounts x st s)) = origin_buckets x.
Proof.
  destruct st as [r results]. unfold origin_buckets.
  destruct (Origin.S3OriginConfig x) eqn:Hx.
  - destruct (get_bucket_acl (before_dot (Origin.DomainName x)) s)
      as [[owner|e] s1] eqn:Hacl.
    + rewrite (check_origin_present _ _ _ _ _ _ _ Hx Hacl). cbv zeta.
      by destruct (owner_rejected accounts owner).
    + rewrite (check_origin_absent _ _ _ _ _ _ _ Hx Hacl). cbv zeta.
      by repeat case_bool_decide.
  - by rewrite check_origin_not_s3.
Qed.

Lemma check_resource_checked (accounts : list string) (r : Resource.t)
    (results : list Resource.t) (s : R) :
  is_ok (outcome (check_resource accounts r results s)) = true →
  checked_buckets (trace (check_resource accounts r results s))
  = s3_buckets r.
Proof.
  unfold check_resource, bind.
  pose proof (fold_m_checked (check_origin accounts) origin_buckets
                (Resource.Origins_Items r)
                (check_origin_checked accounts) (r, results) s) as H.
  destruct (fold_m _ _ _ s) as [[[st|e] s1] t1]; [|done].
  unfold outcome, trace in *. simpl in *. intros _.
  rewrite app_nil_r. by apply H.
Qed.

Variable get_values : ValuesFrom.t → result (list string).

Lemma CheckS3Origin_process_resolved (data : CheckS3OriginData.t)
    (src : ValuesFrom.t) (accounts : list string)
    (resources : list Resource.t) :
  CheckS3OriginData.accounts_from data = Some src →
  get_values src = Ok accounts →
  CheckS3Origin_process get_values data resources
  = fold_m (check_resource accounts) resources [].
Proof. intros H1 H2. unfold CheckS3Origin_process. by rewrite H1, H2. Qed.

(** C7, amended.  For an origin with an [S3OriginConfig]: a check
    answered [AccessDenied] or [NoSuchBucket] is logged and the origin is
    left out of the results, without an exception; a check answered with
    any other error raises that error; a bucket that exists but whose
    owner is not in the supplied account list is logged and left out as
    well when that list is not empty, whereas with an empty list the
    owner is not looked at and every bucket that exists is a match.  For
    the whole pass: an error that is not absorbed is raised by the pass,
    on the very call that answered it; and a pass whose checks are all
    answered or absorbed returns, having checked every S3 origin of every
    resource, in order. *)
Theorem check_s3_origin_error_policy (accounts : list string) :
  (∀ x r results s s1 e,
     Origin.S3OriginConfig x = true →
     get_bucket_acl (before_dot (Origin.DomainName x)) s = (Raise e, s1) →
     e = ClientError "AccessDenied" ∨ e = ClientError "NoSuchBucket" →
     ∃ rec,
       check_origin accounts x (r, results) s
       = (Ok (r, results), s1,
          [GetBucketAcl (before_dot (Origin.DomainName x)) (Raise e);
           Log rec]))
  ∧ (∀ x r results s s1 e,
       Origin.S3OriginConfig x = true →
       get_bucket_acl (before_dot (Origin.DomainName x)) s = (Raise e, s1) →
       e ≠ ClientError "AccessDenied" → e ≠ ClientError "NoSuchBucket" →
       check_origin accounts x (r, results) s
       = (Raise e, s1,
          [GetBucketAcl (before_dot (Origin.DomainName x)) (Raise e)]))
  ∧ (∀ x r results s s1 owner,
       Origin.S3OriginConfig x = true →
       get_bucket_acl (before_dot (Origin.DomainName x)) s = (Ok owner, s1) →
       accounts ≠ [] → owner ∉ accounts →
       check_origin accounts x (r, results) s
       = (Ok (r, results), s1,
          [GetBucketAcl (before_dot (Origin.DomainName x)) (Ok owner);
           Log (DebugBucketExists (before_dot (Origin.DomainName x)));
           Log (DebugOwnerNotInAccounts
                  (before_dot (Origin.DomainName x)))]))
  ∧ (∀ x r results s s1 owner,
       Origin.S3OriginConfig x = true →
       get_bucket_acl (before_dot (Origin.DomainName x)) s = (Ok owner, s1) →
       accounts = [] →
       check_origin accounts x (r, results) s
       = (Ok (set_c7n_s3_origin r, results ++ [set_c7n_s3_origin r]), s1,
          [GetBucketAcl (before_dot (Origin.DomainName x)) (Ok owner);
           Log (DebugBucketExists (before_dot (Origin.DomainName x)))]))
  ∧ (∀ data src resources s,
       CheckS3OriginData.accounts_from data = Some src →
       get_values src = Ok accounts →
       let pass := CheckS3Origin_process get_values data resources s in
       (∀ b e, GetBucketAcl b (Raise e) ∈ trace pass →
               e ≠ ClientError "AccessDenied" →
               e ≠ ClientError "NoSuchBucket" →
               outcome pass = Raise e
               ∧ last (trace pass) = Some (GetBucketAcl b (Raise e)))
       ∧ (Forall (λ ev, fatal ev = None) (trace pass) →
          is_ok (outcome pass) = true
          ∧ checked_buckets (trace pass) = flat_map s3_buckets resources)).
Proof.
  split; [|split; [|split; [|split]]].
  - intros x r results s s1 e Hx Hacl He.
    rewrite (check_origin_absent _ _ _ _ _ _ _ Hx Hacl). cbv zeta.
    destruct He as [-> | ->]; by eexists.
  - intros x r results s s1 e Hx Hacl H1 H2.
    rewrite (check_origin_absent _ _ _ _ _ _ _ Hx Hacl). cbv zeta.
    by rewrite !bool_decide_eq_false_2.
  - intros x r results s s1 owner Hx Hacl Hne Hout.
    rewrite (check_origin_present _ _ _ _ _ _ _ Hx Hacl). cbv zeta.
    unfold owner_rejected.
    by rewrite !bool_decide_eq_false_2.
  - intros x r results s s1 owner Hx Hacl ->.
    by apply check_origin_no_account_list.
  - intros data src resources s Hsrc Hvals pass. subst pass.
    rewrite (CheckS3Origin_process_resolved _ _ _ _ Hsrc Hvals).
    pose proof (fold_m_invariant (check_resource accounts) resources
                  (check_resource_invariant accounts) [] s) as Hinv.
    pose proof (fold_m_checked (check_resource accounts) s3_buckets
                  resources (check_resource_checked accounts) [] s) as Hchk.
    destruct (fold_m _ resources [] s) as [[[results|e'] s1] tr].
    + unfold pass_invariant, outcome, trace in *. cbn [fst snd] in *.
      split.
      * intros b e Hin H1 H2. exfalso.
        pose proof (proj1 (Forall_forall _ _) Hinv _ Hin) as Hev.
        pose proof (fatal_not_absorbed b e H1 H2) as Hf.
        cbv beta in Hev. congruence.
      * intros _. split; [done|by apply Hchk].
    + unfold pass_invariant, outcome, trace in *. cbn [fst snd] in *.
      destruct Hinv as (tr' & b' & -> & Hfatal & Htr'). split.
      * intros b e Hin H1 H2. rewrite last_snoc.
        apply elem_of_app in Hin as [Hin|Hin].
        -- exfalso.
           pose proof (proj1 (Forall_forall _ _) Htr' _ Hin) as Hev.
           pose proof (fatal_not_absorbed b e H1 H2) as Hf.
           cbv beta in Hev. congruence.
        -- apply list_elem_of_singleton in Hin. by injection Hin as -> ->.
      * intros Hall. exfalso. apply Forall_app in Hall as [_ Hall].
        rewrite Forall_singleton in Hall. congruence.
Qed.

End CheckS3Origin.

(** ** Runs of the dependency filter against the concrete service *)

Section DependencyScenarios.

(** C9 fails on the code: a distribution with two S3 origins that both
    pass the check is appended to the results twice. *)
Theorem check_s3_origin_duplicates :
  let r := Mock.with_origins "d1"
             [Mock.s3_origin "assets"; Mock.s3_origin "logs"] in
  let pass := CheckS3Origin_process Mock.get_values
                (CheckS3OriginData.mk (Some Mock.accounts_list)) [r]
                Mock.with_buckets in
  outcome pass = Ok [set_c7n_s3_origin r; set_c7n_s3_origin r]
  ∧ ∀ results, outcome pass = Ok results → ¬ NoDup results.
Proof.
  intros r pass. split; [vm_compute; reflexivity|].
  intros results. vm_compute. intros [= <-]. intros Hnd.
  apply NoDup_cons in Hnd as [Hnotin _]. apply Hnotin. left.
Qed.

(** C7 fails as stated.  An account list is supplied and it is empty:
    the bucket [foreign] exists, its owner is outside the list, and yet
    its origin is a match and the distribution is returned. *)
Lemma check_s3_origin_empty_list_accepts_any_owner :
  let r := Mock.with_origins "d1" [Mock.s3_origin "foreign"] in
  let src := ValuesFrom.mk "" "" in
  let pass := CheckS3Origin_process Mock.get_values
                (CheckS3OriginData.mk (Some src)) [r] Mock.with_buckets in
  Mock.get_values src = Ok []
  ∧ (get_bucket_acl "foreign" Mock.with_buckets).1 = Ok "owner-9"
  ∧ ("owner-9" ∉ @nil string)
  ∧ outcome pass = Ok [set_c7n_s3_origin r]
  ∧ trace pass
    = [GetBucketAcl "foreign" (Ok "owner-9");
       Log (DebugBucketExists "foreign")].
Proof.
  intros r src pass. split; [reflexivity|]. split; [reflexivity|].
  split; [apply not_elem_of_nil|]. split; vm_compute; reflexivity.
Qed.

Lemma check_s3_origin_error_policy_witness :
  let accounts := ["owner-1"] in
  let data := CheckS3OriginData.mk (Some Mock.accounts_list) in
  let r1 := Mock.with_origins "d1"
              [Mock.s3_origin "private"; Mock.s3_origin "assets"] in
  let r2 := Mock.with_origins "d2" [Mock.s3_origin "logs"] in
  let r3 := Mock.with_origins "d3" [Mock.s3_origin "broken"] in
  let s := Mock.with_buckets in
  (∃ rec,
     check_origin accounts (Mock.s3_origin "private") (r1, []) s
     = (Ok (r1, []), s,
        [GetBucketAcl "private" (Raise (ClientError "AccessDenied"));
         Log rec]))
  ∧ check_origin accounts (Mock.s3_origin "broken") (r3, []) s
    = (Raise (ClientError "InternalError"), s,
       [GetBucketAcl "broken" (Raise (ClientError "InternalError"))])
  ∧ check_origin accounts (Mock.s3_origin "foreign") (r1, []) s
    = (Ok (r1, []), s,
       [GetBucketAcl "foreign" (Ok "owner-9");
        Log (DebugBucketExists "foreign");
        Log (DebugOwnerNotInAccounts "foreign")])
  ∧ outcome (CheckS3Origin_process Mock.get_values data [r1; r3; r2] s)
    = Raise (ClientError "InternalError")
  ∧ is_ok (outcome (CheckS3Origin_process Mock.get_values data [r1; r2] s))
    = true
  ∧ checked_buckets
      (trace (CheckS3Origin_process Mock.get_values data [r1; r2] s))
    = ["private"; "assets"; "logs"].
Proof.
  intros accounts data r1 r2 r3 s.
  destruct (check_s3_origin_error_policy Mock.get_values accounts)
    as (H1 & H2 & H3 & _ & H4).
  split; [|split; [|split; [|split]]].
  - apply (H1 (Mock.s3_origin "private") r1 [] s s
             (ClientError "AccessDenied")).
    + reflexivity.
    + vm_compute. reflexivity.
    + by left.
  - apply (H2 (Mock.s3_origin "broken") r3 [] s s
             (ClientError "InternalError")).
    + reflexivity.
    + vm_compute. reflexivity.
    + discriminate.
    + discriminate.
  - apply (H3 (Mock.s3_origin "foreign") r1 [] s s "owner-9").
    + reflexivity.
    + vm_compute. reflexivity.
    + discriminate.
    + intros Hin. apply list_elem_of_singleton in Hin. discriminate.
  - destruct (H4 data Mock.accounts_list [r1; r3; r2] s) as [Hfatal _].
    + reflexivity.
    + vm_compute. reflexivity.
    + apply (Hfatal "broken" (ClientError "InternalError")).
      * apply list_elem_of_In. vm_compute. tauto.
      * discriminate.
      * discriminate.
  - destruct (H4 data Mock.accounts_list [r1; r2] s) as [_ Hok].
    + reflexivity.
    + vm_compute. reflexivity.
    + destruct Hok as [Hret Hchk].
      * vm_compute. repeat constructor.
      * split; [exact Hret|]. rewrite Hchk. vm_compute. reflexivity.
Defined.

(** The sixth testable property of the specification: of the two origins
    of [d1] only the readable one is matched, and [d2] is still
    processed. *)
Lemma access_denied_excludes_one_origin :
  let r1 := Mock.with_origins "d1"
              [Mock.s3_origin "private"; Mock.s3_origin "assets"] in
  let r2 := Mock.with_origins "d2" [Mock.s3_origin "logs"] in
  outcome (CheckS3Origin_process Mock.get_values
             (CheckS3OriginData.mk (Some Mock.accounts_list)) [r1; r2]
             Mock.with_buckets)
  = Ok [set_c7n_s3_origin r1; set_c7n_s3_origin r2].
Proof. vm_compute. reflexivity. Qed.

End DependencyScenarios.

(** * Further properties of the module *)

(** ** The lookup table *)

Section LookupTable.

Lemma waf_name_id_map_snoc (wafs : list Waf.t) (w : Waf.t) :
  waf_name_id_map (wafs ++ [w])
  = <[Waf.Name w := Waf.WebACLId w]> (waf_name_id_map wafs).
Proof. unfold waf_name_id_map. by rewrite foldl_snoc. Qed.

Lemma waf_name_id_map_lookup (wafs : list Waf.t) (n : string) :
  waf_name_id_map wafs !! n
  = Waf.WebACLId <$> last (filter (λ w, Waf.Name w = n) wafs).
Proof.
  induction wafs as [|w wafs IH] using rev_ind; [done|].
  rewrite waf_name_id_map_snoc, filter_app, filter_cons, filter_nil.
  destruct (decide (Waf.Name w = n)) as [Heq|Hne].
  - rewrite Heq, lookup_insert_eq. by rewrite last_snoc.
  - rewrite lookup_insert_ne by done. by rewrite app_nil_r.
Qed.

Lemma filter_none {A} (P : A → Prop) `{!∀ x, Decision (P x)} (l : list A) :
  (∀ x, x ∈ l → ¬ P x) → filter P l = [].
Proof.
  induction l as [|x l IH]; intros Hall; [done|].
  rewrite filter_cons, decide_False by (apply Hall; left).
  apply IH. intros y Hy. apply Hall. by right.
Qed.

(** X1.  The table built from the WAF listing maps a name to the
    identifier of the last entry of the listing that has this name, and
    has no entry for a name that no WAF has: of several WAFs with the same
    name only the last one can be referred to by name. *)
Theorem waf_name_id_map_last_wins (wafs : list Waf.t) (n : string) :
  waf_name_id_map wafs !! n
  = Waf.WebACLId <$> last (filter (λ w, Waf.Name w = n) wafs)
  ∧ (waf_name_id_map wafs !! n = None ↔ n ∉ Waf.Name <$> wafs)
  ∧ ∀ before w after,
      wafs = before ++ w :: after → Waf.Name w = n →
      Forall (λ w', Waf.Name w' ≠ n) after →
      waf_name_id_map wafs !! n = Some (Waf.WebACLId w).
Proof.
  split; [apply waf_name_id_map_lookup|split].
  - rewrite waf_name_id_map_lookup, fmap_None, last_None. split.
    + intros Hnil Hin. apply list_elem_of_fmap in Hin as (w & -> & Hw).
      by eapply (filter_nil_not_elem_of _ _ w); [exact Hnil| |].
    + intros Hn. apply filter_none. intros w Hw Heq. apply Hn.
      apply list_elem_of_fmap. by exists w.
  - intros before w after -> Hname Hafter.
    rewrite waf_name_id_map_lookup, filter_app, filter_cons.
    rewrite decide_True by done.
    rewrite (filter_none _ after).
    + by rewrite last_snoc.
    + intros w' Hw'. by apply (proj1 (Forall_forall _ _) Hafter).
Qed.

Lemma waf_name_id_map_last_wins_witness :
  waf_name_id_map [Waf.mk "acl" "id-1"; Waf.mk "other" "id-2";
                   Waf.mk "acl" "id-3"] !! "acl" = Some "id-3".
Proof.
  destruct (waf_name_id_map_last_wins
              [Waf.mk "acl" "id-1"; Waf.mk "other" "id-2"; Waf.mk "acl" "id-3"]
              "acl") as (_ & _ & H).
  apply (H [Waf.mk "acl" "id-1"; Waf.mk "other" "id-2"]
           (Waf.mk "acl" "id-3") []); [reflexivity|reflexivity|constructor].
Defined.

Lemma filter_name_NoDup (wafs : list Waf.t) (w : Waf.t) :
  NoDup (Waf.Name <$> wafs) → w ∈ wafs →
  filter (λ w', Waf.Name w' = Waf.Name w) wafs = [w].
Proof.
  induction wafs as [|w0 wafs IH]; intros Hnd Hin.
  - by apply elem_of_nil in Hin.
  - rewrite fmap_cons in Hnd. apply NoDup_cons in Hnd as [Hnotin Hnd].
    rewrite filter_cons. apply elem_of_cons in Hin as [->|Hin].
    + rewrite decide_True by done. f_equal. apply filter_none.
      intros w' Hw' Heq. apply Hnotin. rewrite <- Heq.
      apply list_elem_of_fmap. by exists w'.
    + rewrite decide_False; [by apply IH|].
      intros Heq. apply Hnotin. rewrite Heq.
      apply list_elem_of_fmap. by exists w.
Qed.

(** X2.  When no two WAFs of the listing share a name, every WAF of the
    listing resolves by its name to its own identifier, and its identifier
    is one the table accepts. *)
Theorem resolve_listed_waf (wafs : list Waf.t) (w : Waf.t) :
  NoDup (Waf.Name <$> wafs) → w ∈ wafs →
  resolve wafs (Waf.Name w) = Ok (Waf.WebACLId w)
  ∧ known_identifier (waf_name_id_map wafs) (Waf.WebACLId w).
Proof.
  intros Hnd Hin.
  assert (waf_name_id_map wafs !! Waf.Name w = Some (Waf.WebACLId w)) as Hl.
  { by rewrite waf_name_id_map_lookup, filter_name_NoDup. }
  split; [by apply resolve_known_name|by exists (Waf.Name w)].
Qed.

Lemma resolve_listed_waf_witness :
  resolve Mock.wafs "acl-b" = Ok "id-456"
  ∧ known_identifier (waf_name_id_map Mock.wafs) "id-456".
Proof.
  apply (resolve_listed_waf Mock.wafs (Waf.mk "acl-b" "id-456")).
  - refine (bool_decide_unpack _ _). vm_compute. exact I.
  - right. left.
Defined.

End LookupTable.

(** ** More on the waf-enabled filter *)

Section WafEnabledMore.

Lemma select_sublist (p : Resource.t → result bool)
    (resources results : list Resource.t) :
  select p resources = Ok results → results `sublist_of` resources.
Proof.
  revert results. induction resources as [|r rest IH]; intros results; simpl.
  - intros [= <-]. constructor.
  - destruct (p r) as [b|e]; [|done].
    destruct (select p rest) as [res|e]; [|done].
    intros [= <-]. destruct b; constructor; by apply IH.
Qed.

Lemma select_ok_all (p : Resource.t → result bool)
    (resources results : list Resource.t) :
  select p resources = Ok results →
  Forall (λ r, is_ok (p r) = true) resources.
Proof.
  revert results. induction resources as [|r rest IH]; intros results; simpl.
  - constructor.
  - destruct (p r) as [b|e] eqn:Hp; [|done].
    destruct (select p rest) as [res|e]; [|done].
    intros _. constructor; [by rewrite Hp|by eapply IH].
Qed.

(** X3.  The filter returns a sublist of its input: the selected resources
    are input resources, unchanged, in input order and without
    repetition of a position. *)
Theorem waf_enabled_returns_sublist (wafs : list Waf.t)
    (data : IsWafEnabledData.t) (resources results : list Resource.t) :
  IsWafEnabled_process wafs data resources = Ok results →
  results `sublist_of` resources.
Proof.
  unfold IsWafEnabled_process.
  destruct (resolve_filter wafs _) as [target|e]; [|done].
  apply select_sublist.
Qed.

Lemma waf_enabled_returns_sublist_witness :
  [Mock.distribution "d2" (Some "id-456")]
  `sublist_of` [Mock.distribution "d1" (Some "");
                Mock.distribution "d2" (Some "id-456")].
Proof.
  apply (waf_enabled_returns_sublist Mock.wafs
           (IsWafEnabledData.mk None (Some true))).
  vm_compute. reflexivity.
Defined.

(** X4.  A non-empty web-acl reference that is neither a name nor an
    identifier of the table makes the filter raise the invalid-reference
    error for every state and every resource list, the empty list
    included: the reference is checked before any resource is looked at. *)
Theorem waf_enabled_unknown_reference (wafs : list Waf.t) (t : string)
    (state : option bool) (resources : list Resource.t) :
  t ≠ "" →
  ¬ known_name (waf_name_id_map wafs) t →
  ¬ known_identifier (waf_name_id_map wafs) t →
  IsWafEnabled_process wafs (IsWafEnabledData.mk (Some t) state) resources
  = Raise (ValueError ("invalid web acl: " +:+ t)).
Proof.
  intros Ht Hn Hi. unfold IsWafEnabled_process, resolve_filter. simpl.
  destruct (waf_name_id_map wafs !! t) as [i|] eqn:E.
  { exfalso. apply Hn. by exists i. }
  simpl. rewrite (bool_decide_eq_false_2 (t = "")) by done.
  apply in_values_unknown_identifier in Hi. by rewrite Hi.
Qed.

Lemma waf_enabled_unknown_reference_witness :
  IsWafEnabled_process Mock.wafs (IsWafEnabledData.mk (Some "acl-z") None) []
  = Raise (ValueError "invalid web acl: acl-z").
Proof.
  apply (waf_enabled_unknown_reference Mock.wafs "acl-z" None []).
  - discriminate.
  - intros [i Hi]. vm_compute in Hi. discriminate.
  - apply in_values_unknown_identifier. vm_compute. reflexivity.
Defined.

(** X5.  An empty-string web-acl that is not the name of a WAF is not
    checked against the table: the filter raises nothing and selects no
    resource, whatever the state and the resources. *)
Theorem waf_enabled_empty_reference (wafs : list Waf.t)
    (state : option bool) (resources : list Resource.t) :
  ¬ known_name (waf_name_id_map wafs) "" →
  IsWafEnabled_process wafs (IsWafEnabledData.mk (Some "") state) resources
  = Ok [].
Proof.
  intros Hn. unfold IsWafEnabled_process, resolve_filter. simpl.
  destruct (waf_name_id_map wafs !! "") as [i|] eqn:E.
  { exfalso. apply Hn. by exists i. }
  simpl. rewrite (select_filter _ (λ _, false)).
  - f_equal. by apply filter_none.
  - apply Forall_forall. intros r _. apply match_empty_target.
Qed.

Lemma waf_enabled_empty_reference_witness :
  IsWafEnabled_process Mock.wafs (IsWafEnabledData.mk (Some "") (Some false))
    Mock.five = Ok [].
Proof.
  apply (waf_enabled_empty_reference Mock.wafs (Some false) Mock.five).
  intros [i Hi]. vm_compute in Hi. discriminate.
Defined.

Lemma match_ok_has_attribute (state : bool) (id : string) (r : Resource.t) :
  id ≠ "" → is_ok (waf_enabled_match state (Some id) r) = true →
  is_Some (Resource.WebACLId r).
Proof.
  intros Hid Hok. destruct (Resource.WebACLId r) as [a|] eqn:Ha; [by eexists|].
  by rewrite (match_missing_attribute state id r Hid Ha) in Hok.
Qed.

(** X6.  With the same web-acl setting, the runs with [state = true] and
    [state = false] split the input between them: when there is no
    web-acl, or when it resolves to a non-empty identifier and both runs
    return, every input resource is selected by exactly one of the two. *)
Theorem waf_enabled_states_partition (wafs : list Waf.t)
    (web_acl : option string) (resources yes no : list Resource.t) :
  (web_acl = None
   ∨ ∃ t id, web_acl = Some t ∧ resolve wafs t = Ok id ∧ id ≠ "") →
  IsWafEnabled_process wafs (IsWafEnabledData.mk web_acl (Some true)) resources
  = Ok yes →
  IsWafEnabled_process wafs (IsWafEnabledData.mk web_acl (Some false))
    resources = Ok no →
  yes ++ no ≡ₚ resources.
Proof.
  intros [->|(t & id & -> & Hres & Hid)] Hyes Hno.
  - destruct (waf_enabled_truth_table wafs resources) as (H1 & H2 & _).
    rewrite H1 in Hyes. rewrite H2 in Hno.
    injection Hyes as <-. injection Hno as <-.
    rewrite (list_filter_iff (λ r, truthy (Resource.WebACLId r) = false)
               (λ r, ¬ truthy (Resource.WebACLId r) = true)).
    + apply filter_app_complement.
    + intros r. by destruct (truthy (Resource.WebACLId r)).
  - assert (Forall (λ r, is_Some (Resource.WebACLId r)) resources) as Hall.
    { unfold IsWafEnabled_process in Hyes. simpl in Hyes.
      rewrite (resolve_filter_specified _ _ _ Hres) in Hyes.
      apply select_ok_all in Hyes.
      eapply Forall_impl; [exact Hyes|]. intros r. simpl.
      by apply match_ok_has_attribute. }
    destruct (waf_enabled_truth_table wafs resources) as (_ & _ & _ & H).
    destruct (H t id Hres Hid Hall) as [H1 H2].
    rewrite H1 in Hyes. rewrite H2 in Hno.
    injection Hyes as <-. injection Hno as <-.
    apply filter_app_complement.
Qed.

Lemma waf_enabled_states_partition_witness :
  let a := Mock.distribution "d1" (Some "id-123") in
  let b := Mock.distribution "d2" (Some "id-456") in
  let c := Mock.distribution "d3" (Some "") in
  [a] ++ [b; c] ≡ₚ [a; b; c].
Proof.
  intros a b c.
  apply (waf_enabled_states_partition Mock.wafs (Some "acl-a")).
  - right. exists "acl-a", "id-123". split; [done|].
    split; [vm_compute; reflexivity|discriminate].
  - vm_compute. reflexivity.
  - vm_compute. reflexivity.
Defined.

End WafEnabledMore.

(** ** The bucket of an origin *)

Section BucketName.

Lemma before_dot_append_dot (b rest : string) :
  before_dot (b +:+ "." +:+ rest) = before_dot b.
Proof.
  induction b as [|c b IH]; simpl; [done|].
  destruct (Ascii.eqb c "."); [done|]. by rewrite IH.
Qed.

Lemma before_dot_dotless (b : string) : dotless b → before_dot b = b.
Proof.
  unfold dotless. induction b as [|c b IH]; simpl; [done|].
  intros Hnd. apply not_elem_of_cons in Hnd as [Hc Hb].
  destruct (Ascii.eqb_spec c "."); [done|]. by rewrite IH.
Qed.

(** X7.  The bucket checked for an origin is the part of its domain name
    before the first dot: for a bucket name without a dot, the domain
    [<bucket>.<anything>] gives back the bucket. *)
Theorem before_dot_recovers_bucket (bucket rest : string) :
  dotless bucket → before_dot (bucket +:+ "." +:+ rest) = bucket.
Proof.
  intros Hb. rewrite before_dot_append_dot. by apply before_dot_dotless.
Qed.

Lemma before_dot_recovers_bucket_witness :
  before_dot "assets.s3.amazonaws.com" = "assets".
Proof.
  apply (before_dot_recovers_bucket "assets" "s3.amazonaws.com").
  unfold dotless. simpl. intros H.
  repeat (apply elem_of_cons in H as [H|H]; [discriminate|]).
  by apply elem_of_nil in H.
Defined.

(** X8.  The bucket checked for an origin never contains a dot and is a
    prefix of the domain name, so a bucket whose own name contains a dot
    is checked under the part of its name before that dot: for every
    domain [b.rest] the bucket checked is the one checked for [b]. *)
Theorem before_dot_cuts_at_first_dot (s : string) :
  dotless (before_dot s)
  ∧ (∃ rest, s = before_dot s +:+ rest)
  ∧ (∀ b rest, s = b +:+ "." +:+ rest → before_dot s = before_dot b).
Proof.
  split; [|split].
  - unfold dotless. induction s as [|c s IH]; simpl.
    + apply not_elem_of_nil.
    + destruct (Ascii.eqb_spec c "."); simpl.
      * apply not_elem_of_nil.
      * apply not_elem_of_cons. by split.
  - induction s as [|c s [rest IH]]; simpl.
    + by exists "".
    + destruct (Ascii.eqb c ".").
      * by eexists.
      * exists rest. change (String c s = String c (before_dot s +:+ rest)).
        by f_equal.
  - intros b rest ->. apply before_dot_append_dot.
Qed.

End BucketName.

(** ** More on the dependency-existence filter *)

Section CheckS3OriginMore.
Context {R : Type} `{S3 : S3Client R}.
Variable get_values : ValuesFrom.t → result (list string).






(** X9.  The filter needs its [accounts_from] setting: without it the
    filter raises [KeyError] before any bucket is checked, and an error of
    the account-list source is raised the same way, whatever the
    resources. *)
Theorem check_s3_origin_needs_accounts (resources : list Resource.t) (s : R) :
  CheckS3Origin_process get_values (CheckS3OriginData.mk None) resources s
  = (Raise (KeyError "accounts_from"), s, [])
  ∧ ∀ src e, get_values src = Raise e →
      CheckS3Origin_process get_values (CheckS3OriginData.mk (Some src))
        resources s
      = (Raise e, s, []).
Proof.
  split; [done|]. intros src e He. unfold CheckS3Origin_process. simpl.
  by rewrite He.
Qed.




(** X12.  Resources without an S3 origin cost no bucket check: when no
    input resource has an origin with an [S3OriginConfig], the filter,
    once it has obtained the account list, returns the empty list
    without a call to S3 and leaves the state of S3 untouched. *)
Theorem check_s3_origin_without_s3_origins (data : CheckS3OriginData.t)
    (src : ValuesFrom.t) (accounts : list string)
    (resources : list Resource.t) (s : R) :
  CheckS3OriginData.accounts_from data = Some src →
  get_values src = Ok accounts →
  Forall (λ r, s3_buckets r = []) resources →
  CheckS3Origin_process get_values data resources s = (Ok [], s, []).
Proof.
  intros Hsrc Hvals Hall.
  rewrite (CheckS3Origin_process_resolved _ _ _ _ _ Hsrc Hvals).
  assert (∀ xs rc res,
            flat_map origin_buckets xs = [] →
            fold_m (check_origin accounts) xs (rc, res) s
            = (Ok (rc, res), s, [])) as Horigins.
  { induction xs as [|x xs IH]; intros rc res Hxs; [done|].
    simpl in Hxs. apply app_eq_nil in Hxs as [Hx Hxs].
    unfold origin_buckets in Hx.
    destruct (Origin.S3OriginConfig x) eqn:E; [done|].
    cbn [fold_m]. unfold bind. rewrite check_origin_not_s3 by done.
    by rewrite IH. }
  generalize (@nil Resource.t) as res.
  induction Hall as [|r rs Hr _ IH]; intros res; [done|].
  simpl. unfold bind, check_resource at 1, bind.
  rewrite Horigins by done. simpl. by rewrite IH.
Qed.

End CheckS3OriginMore.

Section CheckS3OriginWitnesses.

Lemma check_s3_origin_needs_accounts_witness :
  CheckS3Origin_process (λ _, Raise (OtherException "source unreachable"))
    (CheckS3OriginData.mk (Some Mock.accounts_list))
    [Mock.with_origins "d1" [Mock.s3_origin "assets"]] Mock.with_buckets
  = (Raise (OtherException "source unreachable"), Mock.with_buckets, []).
Proof.
  destruct (check_s3_origin_needs_accounts
              (λ _, Raise (OtherException "source unreachable"))
              [Mock.with_origins "d1" [Mock.s3_origin "assets"]]
              Mock.with_buckets) as [_ H].
  by apply H.
Defined.



Lemma check_s3_origin_without_s3_origins_witness :
  CheckS3Origin_process Mock.get_values
    (CheckS3OriginData.mk (Some Mock.accounts_list))
    [Mock.with_origins "d1" [Origin.mk "www.example.org" false None];
     Mock.with_origins "d2" []] Mock.with_buckets
  = (Ok [], Mock.with_buckets, []).
Proof.
  apply (check_s3_origin_without_s3_origins Mock.get_values
           (CheckS3OriginData.mk (Some Mock.accounts_list))
           Mock.accounts_list ["owner-1"]).
  - reflexivity.
  - vm_compute. reflexivity.
  - by repeat constructor.
Defined.

End CheckS3OriginWitnesses.

(** ** What the mutators fetch and write *)

Section MutatorsMore.
Context {R : Type} `{CF : CloudFrontClient R}.
Variable max_attempts : nat.

Lemma rejected_writes_mutate_nothing (id : string) (cfg : Config.t)
    (etag : string) (rejected : list string) :
  mutated_ids ((λ c, UpdateDistribution id cfg etag (Raise (ClientError c)))
                 <$> rejected) = []
  ∧ fetched_ids ((λ c, UpdateDistribution id cfg etag (Raise (ClientError c)))
                   <$> rejected) = [].
Proof. by induction rejected. Qed.

(** One resource of a set-waf run that does not raise: skipped without a
    call, or fetched once and written with success. *)
Lemma SetWaf_resource_success (force : bool) (target_acl_id : string)
    (r : Resource.t) (s : R) :
  let x := SetWaf_process_resource max_attempts force target_acl_id r s in
  outcome x = Ok tt →
  fetched_ids (trace x)
  = (if SetWaf_skips force target_acl_id r then [] else [Resource.Id r])
  ∧ mutated_ids (trace x)
    = (if SetWaf_skips force target_acl_id r then [] else [Resource.Id r]).
Proof.
  intros x. subst x.
  destruct (SetWaf_skips force target_acl_id r) eqn:Hskip.
  { by rewrite SetWaf_skips_true. }
  destruct (get_distribution_config (Resource.Id r) s)
    as [[[cfg etag]|e] s1] eqn:Hf.
  - destruct (SetWaf_fetch_succeeds max_attempts force target_acl_id r s s1
                cfg etag Hskip Hf) as (rej & _ & _ & Htr).
    intros Hok. rewrite Htr, Hok.
    change (?ev :: ?l ++ ?k) with ([ev] ++ (l ++ k)).
    destruct (rejected_writes_mutate_nothing (Resource.Id r)
                (Config.set_WebACLId target_acl_id cfg) etag rej) as [Hm Hfe].
    rewrite (fetched_ids_app [_]), (mutated_ids_app [_]).
    by rewrite fetched_ids_app, mutated_ids_app, Hm, Hfe.
  - by rewrite (SetWaf_fetch_fails _ _ _ _ _ _ _ Hskip Hf).
Qed.

(** X13.  A set-waf run that returns has fetched, once each and in input
    order, exactly the resources its skip tests let through, and has had a
    write accepted for each of them: no resource is fetched without being
    written, and none is written twice. *)
Theorem SetWaf_success_fetches_and_writes_the_unskipped
    (wafs : list Waf.t) (data : SetWafData.t) (resources : list Resource.t)
    (target_acl_id : string) (s : R) :
  resolve wafs (SetWafData.web_acl data) = Ok target_acl_id →
  let x := SetWaf_process max_attempts wafs data resources s in
  let todo :=
    filter (λ r, SetWaf_skips (default false (SetWafData.force data))
                   target_acl_id r = false) resources in
  outcome x = Ok tt →
  fetched_ids (trace x) = Resource.Id <$> todo
  ∧ mutated_ids (trace x) = Resource.Id <$> todo.
Proof.
  intros Hres x todo. subst x todo.
  rewrite (SetWaf_process_resolved _ _ _ _ _ Hres).
  set (force := default false (SetWafData.force data)).
  revert s. induction resources as [|r rs IH]; intros s; [done|].
  pose proof (SetWaf_resource_success force target_acl_id r s) as Hr.
  destruct (SetWaf_process_resource max_attempts force target_acl_id r s)
    as [[[[]|e] s1] t1] eqn:E.
  - rewrite (for_each_cons_ok _ _ _ _ _ _ E).
    destruct (Hr eq_refl) as [Hf Hm]. unfold trace in Hf, Hm. simpl in Hf, Hm.
    specialize (IH s1).
    destruct (for_each _ rs s1) as [[out s2] t2].
    unfold outcome, trace in *. simpl in *. intros Hok.
    destruct (IH Hok) as [IHf IHm].
    rewrite fetched_ids_app, mutated_ids_app, Hf, Hm, IHf, IHm.
    rewrite filter_cons.
    destruct (SetWaf_skips force target_acl_id r).
    + by rewrite decide_False.
    + by rewrite decide_True.
  - by rewrite (for_each_cons_raise _ _ _ _ _ _ _ E).
Qed.

Lemma patched_nil (patch : Config.t → Config.t) : patched patch [].
Proof. intros held. by exists held. Qed.

Lemma patched_app (patch : Config.t → Config.t) (t1 t2 : list event) :
  patched patch t1 → patched patch t2 → patched patch (t1 ++ t2).
Proof.
  intros H1 H2 held. destruct (H1 held) as [held1 E1].
  destruct (H2 held1) as [held2 E2]. exists held2. intros rest.
  by rewrite <- app_assoc, E1, E2.
Qed.

Lemma patched_accepted (patch : Config.t → Config.t) (tr : list event) :
  patched patch tr → patch_discipline patch ∅ tr = true.
Proof.
  intros H. destruct (H ∅) as [held' E].
  specialize (E []). by rewrite app_nil_r in E.
Qed.

Lemma for_each_patched {A} (patch : Config.t → Config.t)
    (body : A → M R unit) (l : list A) :
  (∀ x s, patched patch (trace (body x s))) →
  ∀ s, patched patch (trace (for_each body l s)).
Proof.
  intros Hbody. induction l as [|x l IH]; intros s.
  - apply patched_nil.
  - specialize (Hbody x s).
    destruct (body x s) as [[[[]|e] s1] t1] eqn:Hx.
    + rewrite (for_each_cons_ok _ _ _ _ _ _ Hx). simpl.
      apply patched_app; [done | apply IH].
    + by rewrite (for_each_cons_raise _ _ _ _ _ _ _ Hx).
Qed.

Lemma cycle_patched id patch warn (s : R) :
  patched patch (trace (cycle id patch warn s)).
Proof.
  destruct (cycle_cases id patch warn s)
    as [(?&?&_&->)|[(?&?&cfg&?&?&_&_&->)|(?&?&cfg&?&_&_&->)]];
    intros held; simpl.
  - by exists (delete id held).
  - exists (<[id := cfg]> held). intros rest. simpl.
    by rewrite lookup_insert_eq, bool_decide_eq_true_2.
  - exists (<[id := cfg]> held). intros rest. simpl.
    by rewrite lookup_insert_eq, bool_decide_eq_true_2.
Qed.

Lemma patch_discipline_attempts (patch : Config.t → Config.t)
    (held : gmap string Config.t) (id : string) (cfg : Config.t)
    (etag : string) (rejected : list string) (last : result unit)
    (rest : list event) :
  held !! id = Some cfg →
  patch_discipline patch held
    ((((λ c, UpdateDistribution id (patch cfg) etag (Raise (ClientError c)))
         <$> rejected)
      ++ [UpdateDistribution id (patch cfg) etag last]) ++ rest)
  = patch_discipline patch held rest.
Proof.
  intros Hheld. induction rejected as [|c rej IH]; simpl.
  - by rewrite Hheld, bool_decide_eq_true_2.
  - by rewrite Hheld, bool_decide_eq_true_2.
Qed.

Lemma SetWaf_resource_patched (force : bool) (target_acl_id : string)
    (r : Resource.t) (s : R) :
  patched (Config.set_WebACLId target_acl_id)
    (trace (SetWaf_process_resource max_attempts force target_acl_id r s)).
Proof.
  destruct (SetWaf_skips force target_acl_id r) eqn:Hskip.
  { rewrite SetWaf_skips_true by done. apply patched_nil. }
  destruct (get_distribution_config (Resource.Id r) s)
    as [[[cfg etag]|e] s1] eqn:Hf.
  - destruct (SetWaf_fetch_succeeds max_attempts force target_acl_id r s s1
                cfg etag Hskip Hf) as (rej & _ & _ & ->).
    intros held. eexists. intros rest. cbn [app patch_discipline].
    rewrite (patch_discipline_attempts _ (<[Resource.Id r := cfg]> held));
      [done|apply lookup_insert_eq].
  - rewrite (SetWaf_fetch_fails _ _ _ _ _ _ _ Hskip Hf).
    intros held. by exists (delete (Resource.Id r) held).
Qed.

(** X14.  In every invocation, the document a mutator writes is the
    document that invocation fetched for the resource, with only its
    patch applied: [WebACLId] replaced by the resolved identifier for
    set-waf, [Enabled] set to [False] for disable, the protocol settings
    rewritten for set-protocols.  This holds of every invocation of the
    two [process_distribution] methods and of every run of the loop of
    set-waf, which writes nothing when its reference does not resolve. *)
Theorem mutators_write_the_patched_fetched_document (s : R) :
  (∀ wafs data resources,
     match resolve wafs (SetWafData.web_acl data) with
     | Ok target_acl_id =>
         patch_discipline (Config.set_WebACLId target_acl_id) ∅
           (trace (SetWaf_process max_attempts wafs data resources s)) = true
     | Raise _ =>
         trace (SetWaf_process max_attempts wafs data resources s) = []
     end)
  ∧ (∀ distribution,
       patch_discipline (Config.set_Enabled false) ∅
         (trace (DistributionDisableAction_process_distribution
                   distribution s)) = true)
  ∧ (∀ data distribution,
       patch_discipline (set_protocols_transform data) ∅
         (trace (DistributionSSLAction_process_distribution data
                   distribution s)) = true).
Proof.
  split; [|split].
  - intros wafs data resources.
    destruct (resolve wafs (SetWafData.web_acl data)) as [id|e] eqn:Hres.
    + rewrite (SetWaf_process_resolved _ _ _ _ _ Hres).
      apply patched_accepted, for_each_patched. intros r s'.
      apply SetWaf_resource_patched.
    + by rewrite (SetWaf_process_unresolved _ _ _ _ _ _ Hres).
  - intros d. apply patched_accepted. rewrite disable_is_cycle.
    apply cycle_patched.
  - intros data d. apply patched_accepted. rewrite set_protocols_is_cycle.
    apply cycle_patched.
Qed.

End MutatorsMore.

Section MutatorsMoreWitnesses.

(** The checker of written documents rejects a write whose document is not
    the patched fetched one, and a write without a fetch. *)
Lemma patch_discipline_rejects_other_documents :
  let c := Mock.config "" in
  patch_discipline (Config.set_Enabled false) ∅
    [GetDistributionConfig "d1" (Ok (c, "E0"));
     UpdateDistribution "d1" c "E0" (Ok tt)] = false
  ∧ patch_discipline (Config.set_Enabled false) ∅
      [UpdateDistribution "d1" (Config.set_Enabled false c) "E0" (Ok tt)]
    = false
  ∧ patch_discipline (Config.set_Enabled false) ∅
      [GetDistributionConfig "d1" (Ok (c, "E0"));
       UpdateDistribution "d1" (Config.set_Enabled false c) "E0" (Ok tt)]
    = true.
Proof. repeat split; vm_compute; reflexivity. Qed.

Lemma SetWaf_success_fetches_and_writes_the_unskipped_witness :
  let resources :=
    [Mock.distribution "d1" (Some ""); Mock.distribution "d2" (Some "id-456");
     Mock.distribution "d3" (Some "id-123"); Mock.distribution "d4" None] in
  let x := SetWaf_process 8 Mock.wafs (SetWafData.mk "acl-a" None None)
             resources Mock.quiet in
  fetched_ids (trace x) = ["d1"; "d4"] ∧ mutated_ids (trace x) = ["d1"; "d4"].
Proof.
  intros resources x.
  destruct (SetWaf_success_fetches_and_writes_the_unskipped 8 Mock.wafs
              (SetWafData.mk "acl-a" None None) resources "id-123" Mock.quiet)
    as [Hf Hm].
  - vm_compute. reflexivity.
  - vm_compute. reflexivity.
  - subst x. rewrite Hf, Hm. split; vm_compute; reflexivity.
Defined.

End MutatorsMoreWitnesses.

(** ** The set-protocols patch *)

Section SetProtocolsPatch.

Lemma set_protocols_origin_counted (data : SetProtocolsData.t)
    (x : Origin.t) :
  origin_counted (set_protocols_origin data x).
Proof.
  unfold origin_counted, set_protocols_origin.
  destruct (Origin.CustomOriginConfig x) as [c|] eqn:E; simpl; [done|].
  by rewrite E.
Qed.

Lemma set_protocols_origin_idempotent (data : SetProtocolsData.t)
    (x : Origin.t) :
  set_protocols_origin data (set_protocols_origin data x)
  = set_protocols_origin data x.
Proof.
  unfold set_protocols_origin.
  destruct (Origin.CustomOriginConfig x) as [c|] eqn:E; simpl; [|by rewrite E].
  destruct data as [[p|] [l|] v]; reflexivity.
Qed.

Lemma set_protocols_cache_behavior_idempotent (data : SetProtocolsData.t)
    (item : CacheBehavior.t) :
  set_protocols_cache_behavior data (set_protocols_cache_behavior data item)
  = set_protocols_cache_behavior data item.
Proof.
  unfold set_protocols_cache_behavior.
  by destruct (SetProtocolsData.ViewerProtocolPolicy data).
Qed.

(** X16.  After the patch every custom origin of the document has an
    [OriginSslProtocols.Quantity] equal to the length of its [Items],
    whatever the document fetched and whatever the policy data. *)
Theorem set_protocols_recounts (data : SetProtocolsData.t) (dc : Config.t) :
  config_counted (set_protocols_transform data dc).
Proof.
  unfold config_counted, set_protocols_transform. simpl.
  destruct (Config.Origins_Items dc) as [items|]; simpl; [|done].
  apply Forall_forall. intros x Hx. apply list_elem_of_In in Hx.
  apply in_map_iff in Hx as (x0 & <- & _).
  apply set_protocols_origin_counted.
Qed.

(** X17.  The patch is idempotent: applying it to an already patched
    document changes nothing, so running set-protocols again with the same
    data writes the same document. *)
Theorem set_protocols_idempotent (data : SetProtocolsData.t) (dc : Config.t) :
  set_protocols_transform data (set_protocols_transform data dc)
  = set_protocols_transform data dc.
Proof.
  unfold set_protocols_transform. simpl. f_equal.
  - destruct (Config.CacheBehaviors_Items dc) as [items|]; simpl; [|done].
    f_equal. rewrite List.map_map. apply List.map_ext. intros item.
    apply set_protocols_cache_behavior_idempotent.
  - by destruct (SetProtocolsData.ViewerProtocolPolicy data).
  - destruct (Config.Origins_Items dc) as [items|]; simpl; [|done].
    f_equal. rewrite List.map_map. apply List.map_ext. intros x.
    apply set_protocols_origin_idempotent.
Qed.

Lemma map_id_on {A} (f : A → A) (l : list A) :
  Forall (λ x, f x = x) l → map f l = l.
Proof. induction 1 as [|x l Hx _ IH]; simpl; [done|]. by rewrite Hx, IH. Qed.

(** X18.  With no protocol setting in the policy data, the patch leaves a
    document whose counts are consistent exactly as it was fetched. *)
Theorem set_protocols_without_settings (dc : Config.t) :
  config_counted dc →
  set_protocols_transform (SetProtocolsData.mk None None None) dc = dc.
Proof.
  intros Hc. destruct dc as [w e cb dv os]. unfold set_protocols_transform.
  unfold config_counted in Hc. simpl in *. f_equal.
  - destruct cb as [items|]; simpl; [|done]. f_equal.
    apply map_id_on, Forall_forall. intros [pp vp] _. reflexivity.
  - destruct os as [items|]; simpl; [|done]. f_equal.
    apply map_id_on. eapply Forall_impl; [exact Hc|].
    intros [dn s3 [[opp its q]|]]; unfold origin_counted, set_protocols_origin;
      simpl; [intros ->|]; reflexivity.
Qed.

Lemma set_protocols_without_settings_witness :
  let dc := Config.mk "id-123" true
              (Some [CacheBehavior.mk "/img/*" "allow-all"]) "allow-all"
              (Some [Origin.mk "www.example.org" false
                       (Some (CustomOrigin.mk "http-only" ["TLSv1"; "SSLv3"] 2));
                     Mock.s3_origin "assets"]) in
  set_protocols_transform (SetProtocolsData.mk None None None) dc = dc.
Proof.
  intros dc. apply set_protocols_without_settings.
  unfold config_counted. simpl. repeat constructor.
Defined.

(** X19.  The patch touches nothing but the protocol settings: the
    association, the enabled flag, the list of cache behaviours with their
    path patterns, and the list of origins with their domain names and
    S3 settings are as fetched; a missing [Items] list stays missing; an
    origin without a custom origin configuration is unchanged. *)
Theorem set_protocols_preserves_the_rest (data : SetProtocolsData.t)
    (dc : Config.t) :
  let dc' := set_protocols_transform data dc in
  Config.WebACLId dc' = Config.WebACLId dc
  ∧ Config.Enabled dc' = Config.Enabled dc
  ∧ map CacheBehavior.PathPattern <$> Config.CacheBehaviors_Items dc'
    = map CacheBehavior.PathPattern <$> Config.CacheBehaviors_Items dc
  ∧ map Origin.DomainName <$> Config.Origins_Items dc'
    = map Origin.DomainName <$> Config.Origins_Items dc
  ∧ map Origin.S3OriginConfig <$> Config.Origins_Items dc'
    = map Origin.S3OriginConfig <$> Config.Origins_Items dc
  ∧ (∀ x, Origin.CustomOriginConfig x = None →
          set_protocols_origin data x = x).
Proof.
  unfold set_protocols_transform. simpl.
  split; [done|]. split; [done|]. split; [|split; [|split]].
  - destruct (Config.CacheBehaviors_Items dc) as [items|]; simpl; [|done].
    f_equal. rewrite List.map_map. by apply List.map_ext.
  - destruct (Config.Origins_Items dc) as [items|]; simpl; [|done].
    f_equal. rewrite List.map_map. apply List.map_ext. intros x.
    unfold set_protocols_origin. by destruct (Origin.CustomOriginConfig x).
  - destruct (Config.Origins_Items dc) as [items|]; simpl; [|done].
    f_equal. rewrite List.map_map. apply List.map_ext. intros x.
    unfold set_protocols_origin. by destruct (Origin.CustomOriginConfig x).
  - intros x Hx. unfold set_protocols_origin. by rewrite Hx.
Qed.

Lemma set_protocols_preserves_the_rest_witness :
  set_protocols_origin (SetProtocolsData.mk (Some "https-only") None None)
    (Mock.s3_origin "assets") = Mock.s3_origin "assets".
Proof.
  destruct (set_protocols_preserves_the_rest
              (SetProtocolsData.mk (Some "https-only") None None)
              (Mock.config "")) as (_ & _ & _ & _ & _ & H).
  by apply H.
Defined.

(** X20.  Each setting given in the policy data is applied on its own,
    whether or not the others are given: a given viewer policy is that of
    the default cache behaviour and of every listed cache behaviour; a
    given origin policy is that of every custom origin; a given protocol
    list is that of every custom origin, with the count of the given
    list. *)
Theorem set_protocols_applies_settings (data : SetProtocolsData.t)
    (dc : Config.t) :
  let dc' := set_protocols_transform data dc in
  (∀ p, SetProtocolsData.ViewerProtocolPolicy data = Some p →
        Config.DefaultCacheBehavior_ViewerProtocolPolicy dc' = p
        ∧ ∀ items, Config.CacheBehaviors_Items dc' = Some items →
            Forall (λ i, CacheBehavior.ViewerProtocolPolicy i = p) items)
  ∧ (∀ q items x c,
       SetProtocolsData.OriginProtocolPolicy data = Some q →
       Config.Origins_Items dc' = Some items → x ∈ items →
       Origin.CustomOriginConfig x = Some c →
       CustomOrigin.OriginProtocolPolicy c = q)
  ∧ (∀ l items x c,
       SetProtocolsData.OriginSslProtocols data = Some l →
       Config.Origins_Items dc' = Some items → x ∈ items →
       Origin.CustomOriginConfig x = Some c →
       CustomOrigin.OriginSslProtocols_Items c = l
       ∧ CustomOrigin.OriginSslProtocols_Quantity c = length l).
Proof.
  unfold set_protocols_transform. simpl. split; [|split].
  - intros p Hp. rewrite Hp. split; [done|]. intros items Hitems.
    destruct (Config.CacheBehaviors_Items dc) as [items0|]; [|done].
    injection Hitems as <-. apply Forall_forall. intros i Hi.
    apply list_elem_of_In, in_map_iff in Hi as (i0 & <- & _).
    unfold set_protocols_cache_behavior. by rewrite Hp.
  - intros q items x c Hq Hitems Hx Hc.
    destruct (Config.Origins_Items dc) as [items0|]; [|done].
    injection Hitems as <-.
    apply list_elem_of_In, in_map_iff in Hx as (x0 & <- & _).
    unfold set_protocols_origin in Hc.
    destruct (Origin.CustomOriginConfig x0) as [c0|] eqn:E; simpl in Hc.
    + rewrite Hq in Hc. simpl in Hc. by injection Hc as <-.
    + by rewrite E in Hc.
  - intros l items x c Hl Hitems Hx Hc.
    destruct (Config.Origins_Items dc) as [items0|]; [|done].
    injection Hitems as <-.
    apply list_elem_of_In, in_map_iff in Hx as (x0 & <- & _).
    unfold set_protocols_origin in Hc.
    destruct (Origin.CustomOriginConfig x0) as [c0|] eqn:E; simpl in Hc.
    + rewrite Hl in Hc. simpl in Hc. by injection Hc as <-.
    + by rewrite E in Hc.
Qed.

Lemma set_protocols_applies_settings_witness :
  let custom := Origin.mk "www.example.org" false
                  (Some (CustomOrigin.mk "http-only" ["TLSv1"; "SSLv3"] 2)) in
  let dc := Config.mk "" true (Some [CacheBehavior.mk "/img/*" "allow-all"])
              "allow-all" (Some [custom; Mock.s3_origin "assets"]) in
  let policy_only := SetProtocolsData.mk (Some "https-only") None None in
  let list_only := SetProtocolsData.mk None (Some ["TLSv1.2"]) None in
  Config.DefaultCacheBehavior_ViewerProtocolPolicy
    (set_protocols_transform
       (SetProtocolsData.mk None None (Some "https-only")) dc)
  = "https-only"
  ∧ CustomOrigin.OriginProtocolPolicy
      (CustomOrigin.mk "https-only" ["TLSv1"; "SSLv3"] 2) = "https-only"
  ∧ Config.Origins_Items (set_protocols_transform policy_only dc)
    = Some [Origin.mk "www.example.org" false
              (Some (CustomOrigin.mk "https-only" ["TLSv1"; "SSLv3"] 2));
            Mock.s3_origin "assets"]
  ∧ Config.Origins_Items (set_protocols_transform list_only dc)
    = Some [Origin.mk "www.example.org" false
              (Some (CustomOrigin.mk "http-only" ["TLSv1.2"] 1));
            Mock.s3_origin "assets"].
Proof.
  intros custom dc policy_only list_only.
  destruct (set_protocols_applies_settings
              (SetProtocolsData.mk None None (Some "https-only")) dc)
    as [H _].
  destruct (set_protocols_applies_settings policy_only dc) as (_ & Hq & _).
  split; [by destruct (H "https-only" eq_refl)|]. split; [|by split].
  apply (Hq "https-only"
           [Origin.mk "www.example.org" false
              (Some (CustomOrigin.mk "https-only" ["TLSv1"; "SSLv3"] 2));
            Mock.s3_origin "assets"]
           (Origin.mk "www.example.org" false
              (Some (CustomOrigin.mk "https-only" ["TLSv1"; "SSLv3"] 2))));
    [reflexivity|reflexivity|left|reflexivity].
Defined.

End SetProtocolsPatch.

(** ** Disabling streaming distributions *)

Section StreamingDisable.
Context {R : Type} `{SC : StreamingClient R}.

(** The three runs of one invocation. *)
Lemma streaming_cases (d : Resource.t) (s : R) :
  let id := Resource.Id d in
  let x := StreamingDistributionDisableAction_process_distribution d s in
  (∃ s1 e, x = (Ok tt, s1,
                [GetStreamingDistributionConfig id (Raise e);
                 StreamingLog (WarningDisable (Resource.ARN d) e)]))
  ∨ (∃ s2 cfg etag e,
       x = (Ok tt, s2,
            [GetStreamingDistributionConfig id (Ok (cfg, etag));
             UpdateStreamingDistribution id (<["Enabled" := VBool false]> cfg)
               etag (Raise e);
             StreamingLog (WarningDisable (Resource.ARN d) e)]))
  ∨ (∃ s2 cfg etag,
       x = (Ok tt, s2,
            [GetStreamingDistributionConfig id (Ok (cfg, etag));
             UpdateStreamingDistribution id (<["Enabled" := VBool false]> cfg)
               etag (Ok tt)])).
Proof.
  intros id x. subst id x.
  unfold StreamingDistributionDisableAction_process_distribution.
  destruct (get_streaming_distribution_config (Resource.Id d) s)
    as [[[cfg etag]|e] s1].
  - destruct (update_streaming_distribution _ _ etag s1) as [[[]|e] s2].
    + right; right. by exists s2, cfg, etag.
    + right; left. by exists s2, cfg, etag, e.
  - left. by exists s1, e.
Qed.

(** X22.  In every invocation of [process_distribution] for a streaming
    distribution, a write comes right after the fetch of that invocation
    and carries the ETag of that fetch and the fetched document with only
    ['Enabled'] set to [False]: every other key of the document is
    written back as fetched.  The invocation never raises, fetches its
    distribution once, and ends either with an accepted write or with
    exactly one logged warning. *)
Theorem streaming_disable_writes_follow_fetch (d : Resource.t) (s : R) :
  let x := StreamingDistributionDisableAction_process_distribution d s in
  streaming_writes_follow_fetch x.2
  ∧ x.1.1 = Ok tt
  ∧ streaming_fetched_ids x.2 = [Resource.Id d]
  ∧ length (streaming_mutated_ids x.2) + streaming_warnings x.2 = 1%nat
  ∧ ∀ (cfg : gmap string value) (k : string),
      <["Enabled" := VBool false]> cfg !! "Enabled" = Some (VBool false)
      ∧ (k ≠ "Enabled" →
         <["Enabled" := VBool false]> cfg !! k = cfg !! k).
Proof.
  cbv zeta. split; [|split; [|split; [|split]]].
  - destruct (streaming_cases d s)
      as [(s1&e&->)|[(s1&cfg&etag&e&->)|(s1&cfg&etag&->)]]; simpl; auto.
  - destruct (streaming_cases d s)
      as [(s1&e&->)|[(s1&cfg&etag&e&->)|(s1&cfg&etag&->)]]; done.
  - destruct (streaming_cases d s)
      as [(s1&e&->)|[(s1&cfg&etag&e&->)|(s1&cfg&etag&->)]]; done.
  - destruct (streaming_cases d s)
      as [(s1&e&->)|[(s1&cfg&etag&e&->)|(s1&cfg&etag&->)]]; done.
  - intros cfg k. split; [apply lookup_insert_eq|].
    intros Hk. by apply lookup_insert_ne.
Qed.

End StreamingDisable.

(** ** Blob names of the Azure output *)

Section BlobNames.

Lemma string_app_assoc (a b c : string) : (a +:+ b) +:+ c = a +:+ b +:+ c.
Proof.
  induction a as [|x a IH]; [done|].
  change (String x ((a +:+ b) +:+ c) = String x (a +:+ b +:+ c)).
  by rewrite IH.
Qed.

Lemma lstrip_slash_head (s t : string) : lstrip_slash s ≠ String "/" t.
Proof.
  induction s as [|c s IH]; simpl; [done|].
  destruct (Ascii.eqb_spec c "/"); [done|]. congruence.
Qed.

Lemma rstrip_slash_head (s t : string) :
  s ≠ String "/" (string_drop 1 s) → rstrip_slash s ≠ String "/" t.
Proof.
  destruct s as [|c s]; simpl; [done|]. intros Hc.
  destruct (rstrip_slash s); [|congruence].
  destruct (Ascii.eqb_spec c "/"); [done|]. congruence.
Qed.

Lemma rstrip_slash_tail (s t : string) : rstrip_slash s ≠ t +:+ "/".
Proof.
  revert t. induction s as [|c s IH]; intros t; cbn.
  - destruct t; cbv [String.append]; congruence.
  - destruct (rstrip_slash s) as [|c' s'] eqn:E.
    + destruct (Ascii.eqb_spec c "/").
      * destruct t; cbv [String.append]; congruence.
      * destruct t as [|c0 [|c1 t]]; cbv [String.append]; congruence.
    + destruct t as [|c0 t]; cbv [String.append]; fold String.append;
        [congruence|].
      intros [= <- Heq]. by apply (IH t).
Qed.

(** X23.  A blob name never begins and never ends with a slash, whatever
    the prefix, the date path, the directories and the file name, so an
    empty prefix or a prefix with surrounding slashes yields no empty
    leading or trailing path segment. *)
Theorem blob_name_has_no_outer_slash
    (file_prefix date_path root_dir root f t : string) :
  blob_name file_prefix date_path root_dir root f ≠ String "/" t
  ∧ blob_name file_prefix date_path root_dir root f ≠ t +:+ "/".
Proof.
  unfold blob_name, strip_slash. split; [|apply rstrip_slash_tail].
  apply rstrip_slash_head.
  destruct (lstrip_slash _) as [|c s] eqn:E; [done|]. simpl.
  intros [= -> ]. by apply lstrip_slash_head in E.
Qed.

Lemma string_drop_app (a b : string) :
  string_drop (String.length a) (a +:+ b) = b.
Proof.
  induction a as [|x a IH]; [done|].
  cbv [String.append String.length string_drop].
  fold String.append String.length string_drop. exact IH.
Qed.

Lemma rstrip_slash_keeps (s : string) (d : ascii) :
  d ≠ "/"%char →
  rstrip_slash (s +:+ String d "") = s +:+ String d "".
Proof.
  intros Hd. induction s as [|c s IH].
  - cbv [String.append rstrip_slash]. by destruct (Ascii.eqb_spec d "/").
  - change (String c s +:+ String d "") with (String c (s +:+ String d "")).
    cbn [rstrip_slash]. rewrite IH.
    destruct s; cbv [String.append]; done.
Qed.

(** X24.  The layout of a blob name, for a file name that does not end
    with a slash.  With a prefix that is not empty and does not begin
    with a slash, the name is the prefix, a slash, the date path, the
    directory's path below the root directory, a slash and the file name,
    in this order and unchanged.  With the empty prefix the name has no
    leading slash: it begins with the date path (which does not begin
    with a slash) and goes on in the same way. *)
Theorem blob_name_layout (d : ascii) (date_path root_dir sub f : string) :
  d ≠ "/"%char →
  (∀ c prefix,
     c ≠ "/"%char →
     blob_name (String c prefix) date_path root_dir (root_dir +:+ sub)
               (f +:+ String d "")
     = String c prefix +:+ "/" +:+ date_path +:+ sub +:+ "/" +:+ f
       +:+ String d "")
  ∧ (∀ c rest,
       c ≠ "/"%char → date_path = String c rest →
       blob_name "" date_path root_dir (root_dir +:+ sub) (f +:+ String d "")
       = date_path +:+ sub +:+ "/" +:+ f +:+ String d "").
Proof.
  intros Hd.
  assert (∀ c x, c ≠ "/"%char → lstrip_slash (String c x) = String c x) as Hl.
  { intros c x Hc. simpl. by destruct (Ascii.eqb_spec c "/"). }
  split.
  - intros c prefix Hc. unfold blob_name, strip_slash.
    rewrite string_drop_app.
    assert (String c prefix +:+ "/" +:+ date_path
            +:+ (sub +:+ "/" +:+ f +:+ String d "")
            = (String c prefix +:+ "/" +:+ date_path +:+ sub +:+ "/" +:+ f)
              +:+ String d "") as ->.
    { by rewrite !string_app_assoc. }
    change ((String c prefix +:+ ?y) +:+ ?z)
      with (String c ((prefix +:+ y) +:+ z)).
    rewrite Hl by done.
    change (String c ((prefix +:+ ?y) +:+ ?z))
      with ((String c prefix +:+ y) +:+ z).
    rewrite rstrip_slash_keeps by done. by rewrite !string_app_assoc.
  - intros c rest Hc ->. unfold blob_name, strip_slash.
    rewrite string_drop_app.
    change ("" +:+ "/" +:+ ?y) with (String "/" y).
    change (lstrip_slash (String "/" ?y)) with (lstrip_slash y).
    assert (String c rest +:+ (sub +:+ "/" +:+ f +:+ String d "")
            = (String c rest +:+ sub +:+ "/" +:+ f) +:+ String d "") as ->.
    { by rewrite !string_app_assoc. }
    change ((String c rest +:+ ?y) +:+ ?z)
      with (String c ((rest +:+ y) +:+ z)).
    rewrite Hl by done.
    change (String c ((rest +:+ ?y) +:+ ?z))
      with ((String c rest +:+ y) +:+ z).
    rewrite rstrip_slash_keeps by done. by rewrite !string_app_assoc.
Qed.

Lemma blob_name_layout_witness :
  blob_name "policies" "2018/06/01/12" "/tmp/tmpx1" "/tmp/tmpx1/ec2"
            "custodian-run.log.gz"
  = "policies/2018/06/01/12/ec2/custodian-run.log.gz"
  ∧ blob_name "" "2018/06/01/12" "/tmp/tmpx1" "/tmp/tmpx1/ec2"
              "custodian-run.log.gz"
    = "2018/06/01/12/ec2/custodian-run.log.gz".
Proof.
  destruct (blob_name_layout "z" "2018/06/01/12" "/tmp/tmpx1" "/ec2"
              "custodian-run.log.g") as [H1 H2]; [discriminate|].
  split.
  - apply (H1 "p"%char "olicies"). discriminate.
  - apply (H2 "2"%char "018/06/01/12"); [discriminate|reflexivity].
Defined.

End BlobNames.

(** ** set-waf on a fleet that needs no change *)

Section SetWafNoop.
Context {R : Type} `{CF : CloudFrontClient R}.
Variable max_attempts : nat.

(** X25.  set-waf leaves alone the distributions that need no change:
    when every snapshot is already associated with the resolved target,
    or has some association while [force] is not set, the run, once the
    WAF listing has resolved the reference, returns normally without a
    call to CloudFront, neither a fetch nor a write, and leaves the state
    of CloudFront as it was. *)
Theorem SetWaf_noop_when_all_skipped (wafs : list Waf.t)
    (data : SetWafData.t) (resources : list Resource.t)
    (target_acl_id : string) (s : R) :
  resolve wafs (SetWafData.web_acl data) = Ok target_acl_id →
  Forall (λ r, Resource.WebACLId r = Some target_acl_id
               ∨ (truthy (Resource.WebACLId r) = true
                  ∧ SetWafData.force data ≠ Some true)) resources →
  SetWaf_process max_attempts wafs data resources s = (Ok tt, s, []).
Proof.
  intros Hres Hall. rewrite (SetWaf_process_resolved _ _ _ _ _ Hres).
  induction Hall as [|r rs Hr _ IH]; [done|].
  rewrite (for_each_cons_ok _ r rs s s []).
  - by rewrite IH.
  - apply SetWaf_skips_true. unfold SetWaf_skips.
    destruct Hr as [->|[Ht Hf]].
    + rewrite bool_decide_eq_true_2 by done. apply orb_true_r.
    + rewrite Ht. by destruct (SetWafData.force data) as [[]|].
Qed.

End SetWafNoop.

Section SetWafNoopWitness.

Lemma SetWaf_noop_when_all_skipped_witness :
  SetWaf_process 8 Mock.wafs (SetWafData.mk "acl-a" None None)
    [Mock.distribution "d1" (Some "id-123");
     Mock.distribution "d2" (Some "id-456")] Mock.quiet
  = (Ok tt, Mock.quiet, []).
Proof.
  apply (SetWaf_noop_when_all_skipped 8 Mock.wafs
           (SetWafData.mk "acl-a" None None) _ "id-123").
  - vm_compute. reflexivity.
  - constructor; [by left|]. constructor; [|constructor].
    right. split; [reflexivity|discriminate].
Defined.

End SetWafNoopWitness.

(** ** Runs of the worker pool *)

Section WorkerPoolRuns.
Context {R Doc E : Type} {T : Task R Doc E}.
Variable tasks : list Resource.t.

Lemma events_of_snoc_eq (i : nat) (tr : list (nat * E)) (ev : E) :
  events_of i (tr ++ [(i, ev)]) = events_of i tr ++ [ev].
Proof.
  unfold events_of. rewrite omap_app. simpl.
  by rewrite bool_decide_eq_true_2.
Qed.

Lemma events_of_snoc_ne (i j : nat) (tr : list (nat * E)) (ev : E) :
  i ≠ j → events_of i (tr ++ [(j, ev)]) = events_of i tr.
Proof.
  intros Hij. unfold events_of. rewrite omap_app. simpl.
  rewrite bool_decide_eq_false_2 by done. apply app_nil_r.
Qed.

Lemma pool_invariant_init (s : R) :
  pool_invariant tasks (Pool (replicate (length tasks) Pending) s []).
Proof.
  split; simpl; [apply length_replicate|].
  intros i. destruct (tasks !! i) as [d|] eqn:Hd; [|done].
  rewrite lookup_replicate_2; [done|]. by eapply lookup_lt_Some.
Qed.

(** A step of any task keeps the events of every task in the shape of
    its state. *)
Lemma pool_step_invariant (j : nat) (p : pool R Doc E) :
  pool_invariant tasks p → pool_invariant tasks (pool_step tasks j p).
Proof.
  intros [Hlen Hinv]. unfold pool_step.
  pose proof (Hinv j) as Hj.
  destruct (tasks !! j) as [d|] eqn:Hd; [|by split].
  destruct (states p !! j) as [st|] eqn:Hst; [|by split].
  assert (∀ st' evs,
            (∀ ev, ev ∈ evs → True) →
            task_shape d st' (events_of j (tagged p) ++ evs) →
            ∀ s1,
            pool_invariant tasks
              (Pool (<[j := st']> (states p)) s1
                    (tagged p ++ ((λ ev, (j, ev)) <$> evs)))) as Hstep.
  { intros st' evs _ Hshape s1. split; simpl.
    - by rewrite length_insert.
    - intros i. destruct (decide (i = j)) as [->|Hij].
      + rewrite Hd, list_lookup_insert_eq by (by eapply lookup_lt_Some).
        replace (events_of j (tagged p ++ ((λ ev, (j, ev)) <$> evs)))
          with (events_of j (tagged p) ++ evs); [done|].
        unfold events_of. rewrite omap_app. f_equal.
        clear. induction evs as [|ev evs IH]; [done|]. simpl.
        rewrite bool_decide_eq_true_2 by done. by f_equal.
      + rewrite list_lookup_insert_ne by done.
        replace (events_of i (tagged p ++ ((λ ev, (j, ev)) <$> evs)))
          with (events_of i (tagged p)); [apply Hinv|].
        unfold events_of. rewrite omap_app.
        replace (omap _ ((λ ev, (j, ev)) <$> evs)) with (@nil E);
          [by rewrite app_nil_r|].
        clear -Hij. induction evs as [|ev evs IH]; [done|]. simpl.
        by rewrite bool_decide_eq_false_2 by done. }
  destruct st as [| |cfg etag|e|]; simpl in Hj.
  - destruct (may_pick j (states p)); [|by split].
    specialize (Hstep Started [] ltac:(done)). simpl in Hstep.
    rewrite !app_nil_r in Hstep. by apply Hstep.
  - destruct (task_fetch d (remote p)) as [[[cfg etag]|e] s1].
    + apply (Hstep (Fetched cfg etag) [fetch_event d (Ok (cfg, etag))]);
        [done|]. by rewrite Hj.
    + apply (Hstep (Failed e) [fetch_event d (Raise e)]); [done|].
      rewrite Hj. by left.
  - destruct (task_write d (task_patch cfg) etag (remote p)) as [[[]|e] s1].
    + apply (Hstep Done [write_event d (task_patch cfg) etag (Ok tt)]); [done|].
      rewrite Hj. right; right. by exists cfg, etag.
    + apply (Hstep (Failed e) [write_event d (task_patch cfg) etag (Raise e)]);
        [done|]. rewrite Hj. right. by exists cfg, etag.
  - apply (Hstep Done [warning_event d e]); [done|].
    destruct Hj as [->|(cfg & etag & ->)].
    + left. by exists e.
    + right; left. by exists cfg, etag, e.
  - by split.
Qed.


(** *** Every schedule runs every task to its end *)

Lemma work_left_insert (sts : list (task_state Doc)) (i : nat)
    (st st' : task_state Doc) :
  sts !! i = Some st →
  work_left (<[i := st']> sts) + steps_left st
  = work_left sts + steps_left st'.
Proof.
  unfold work_left. revert i. induction sts as [|x sts IH]; intros i Hi.
  - done.
  - destruct i as [|i]; csimpl in *.
    + injection Hi as ->. lia.
    + specialize (IH i Hi). lia.
Qed.

Lemma pool_step_length (j : nat) (p : pool R Doc E) :
  length (states (pool_step tasks j p)) = length (states p).
Proof.
  unfold pool_step. destruct (tasks !! j) as [d|]; [|done].
  destruct (states p !! j) as [[| |cfg etag|e|]|]; try done.
  - destruct (may_pick j (states p)); [apply length_insert|done].
  - destruct (task_fetch d (remote p)) as [[[cfg etag]|e] s1];
      apply length_insert.
  - destruct (task_write d (task_patch cfg) etag (remote p)) as [[[]|e] s1];
      apply length_insert.
  - apply length_insert.
Qed.

Lemma pool_step_work_left (j : nat) (p : pool R Doc E) :
  (work_left (states (pool_step tasks j p)) ≤ work_left (states p))%nat.
Proof.
  unfold pool_step. destruct (tasks !! j) as [d|]; [|done].
  destruct (states p !! j) as [[| |cfg etag|e|]|] eqn:Hst; try done.
  - destruct (may_pick j (states p)); [|done]. simpl.
    pose proof (work_left_insert _ _ _ Started Hst). simpl in *. lia.
  - destruct (task_fetch d (remote p)) as [[[cfg etag]|e] s1]; simpl.
    + pose proof (work_left_insert _ _ _ (Fetched cfg etag) Hst).
      simpl in *. lia.
    + pose proof (work_left_insert _ _ _ (Failed e) Hst). simpl in *. lia.
  - destruct (task_write d (task_patch cfg) etag (remote p)) as [[[]|e] s1]; simpl.
    + pose proof (work_left_insert _ _ _ Done Hst). simpl in *. lia.
    + pose proof (work_left_insert _ _ _ (Failed e) Hst). simpl in *. lia.
  - simpl. pose proof (work_left_insert _ _ _ Done Hst). simpl in *. lia.
Qed.

Lemma find_index_Some {A} (f : A → bool) (l : list A) (i : nat) :
  find_index f l = Some i →
  ∃ x, l !! i = Some x ∧ f x = true
       ∧ forallb (λ y, negb (f y)) (take i l) = true.
Proof.
  revert i. induction l as [|x l IH]; intros i; simpl; [done|].
  destruct (f x) eqn:Hx.
  - intros [= <-]. by exists x.
  - destruct (find_index f l) as [k|]; [|done]. intros [= <-].
    destruct (IH k eq_refl) as (y & Hy & Hfy & Hall). exists y.
    simpl. by rewrite Hx.
Qed.

Lemma find_index_None {A} (f : A → bool) (l : list A) :
  find_index f l = None → Forall (λ x, f x = false) l.
Proof.
  induction l as [|x l IH]; simpl; [constructor|].
  destruct (f x) eqn:Hx; [done|].
  destruct (find_index f l); [done|]. intros _. by constructor; [|apply IH].
Qed.

Lemma filter_none_running (sts : list (task_state Doc)) :
  Forall (λ st, is_running st = false) sts → List.filter is_running sts = [].
Proof. induction 1 as [|st sts Hst _ IH]; simpl; [done|]. by rewrite Hst. Qed.

Lemma next_task_None (sts : list (task_state Doc)) :
  next_task sts = None → sts = replicate (length sts) Done.
Proof.
  unfold next_task.
  destruct (find_index is_running sts) eqn:Hr; [done|]. intros Hp.
  apply find_index_None in Hr, Hp.
  induction sts as [|st sts IH]; [done|].
  apply Forall_cons in Hr as [Hr1 Hr], Hp as [Hp1 Hp].
  simpl. rewrite <- IH by done. by destruct st.
Qed.

(** While a task is not at its end, some task can make a step. *)
Lemma next_task_progress (p : pool R Doc E) (i : nat) :
  length (states p) = length tasks →
  next_task (states p) = Some i →
  (work_left (states (pool_step tasks i p)) < work_left (states p))%nat.
Proof.
  intros Hlen. unfold next_task.
  destruct (find_index is_running (states p)) as [k|] eqn:Hr.
  - intros [= ->]. apply find_index_Some in Hr as (st & Hst & Hrun & _).
    unfold pool_step. rewrite Hst.
    destruct (tasks !! i) as [d|] eqn:Hd.
    2:{ apply lookup_ge_None in Hd. apply lookup_lt_Some in Hst. lia. }
    destruct st as [| |cfg etag|e|]; try done.
    + destruct (task_fetch d (remote p)) as [[[cfg etag]|e] s1]; simpl.
      * pose proof (work_left_insert _ _ _ (Fetched cfg etag) Hst).
        simpl in *. lia.
      * pose proof (work_left_insert _ _ _ (Failed e) Hst). simpl in *. lia.
    + destruct (task_write d (task_patch cfg) etag (remote p)) as [[[]|e] s1]; simpl.
      * pose proof (work_left_insert _ _ _ Done Hst). simpl in *. lia.
      * pose proof (work_left_insert _ _ _ (Failed e) Hst). simpl in *. lia.
    + simpl. pose proof (work_left_insert _ _ _ Done Hst). simpl in *. lia.
  - intros Hp. apply find_index_Some in Hp as (st & Hst & Hpen & Hbefore).
    apply find_index_None in Hr.
    unfold pool_step. rewrite Hst.
    destruct (tasks !! i) as [d|] eqn:Hd.
    2:{ apply lookup_ge_None in Hd. apply lookup_lt_Some in Hst. lia. }
    destruct st; try done.
    unfold may_pick. rewrite filter_none_running, Hbefore by done. simpl.
    pose proof (work_left_insert _ _ _ Started Hst). simpl in *. lia.
Qed.

Lemma finish_length (fuel : nat) (p : pool R Doc E) :
  length (states (finish tasks fuel p)) = length (states p).
Proof.
  revert p. induction fuel as [|fuel IH]; intros p; simpl; [done|].
  destruct (next_task (states p)); [|done].
  by rewrite IH, pool_step_length.
Qed.

Lemma finish_done (fuel : nat) (p : pool R Doc E) :
  length (states p) = length tasks →
  (work_left (states p) ≤ fuel)%nat →
  states (finish tasks fuel p) = replicate (length tasks) Done.
Proof.
  revert p. induction fuel as [|fuel IH]; intros p Hlen Hwork; simpl.
  - rewrite <- Hlen. apply next_task_None.
    destruct (next_task (states p)) as [i|] eqn:Hn; [|done].
    pose proof (next_task_progress p i Hlen Hn). lia.
  - destruct (next_task (states p)) as [i|] eqn:Hn.
    + apply IH; [by rewrite pool_step_length|].
      pose proof (next_task_progress p i Hlen Hn). lia.
    + rewrite <- Hlen. by apply next_task_None.
Qed.

Lemma finish_invariant (fuel : nat) (p : pool R Doc E) :
  pool_invariant tasks p → pool_invariant tasks (finish tasks fuel p).
Proof.
  revert p. induction fuel as [|fuel IH]; intros p Hp; simpl; [done|].
  destruct (next_task (states p)); [|done].
  by apply IH, pool_step_invariant.
Qed.

Lemma schedule_invariant (schedule : list nat) (p : pool R Doc E) :
  pool_invariant tasks p →
  pool_invariant tasks (foldl (λ p i, pool_step tasks i p) p schedule).
Proof.
  revert p. induction schedule as [|i schedule IH]; intros p Hp; [done|].
  simpl. by apply IH, pool_step_invariant.
Qed.

Lemma schedule_work_left (schedule : list nat) (p : pool R Doc E) :
  (work_left (states (foldl (λ p i, pool_step tasks i p) p schedule))
   ≤ work_left (states p))%nat.
Proof.
  revert p. induction schedule as [|i schedule IH]; intros p; [done|].
  simpl. etrans; [apply IH|apply pool_step_work_left].
Qed.

Lemma work_left_pending (n : nat) :
  work_left (replicate n (@Pending Doc)) = 4 * n.
Proof. unfold work_left. induction n as [|n IH]; csimpl in *; lia. Qed.

Lemma pool_run_invariant (schedule : list nat) (s : R) :
  pool_invariant tasks (pool_run tasks schedule s).
Proof.
  unfold pool_run. apply finish_invariant, schedule_invariant,
    pool_invariant_init.
Qed.

(** Whatever the schedule, every task is run to its end. *)
Lemma pool_run_done (schedule : list nat) (s : R) :
  states (pool_run tasks schedule s) = replicate (length tasks) Done.
Proof.
  unfold pool_run. apply finish_done.
  - apply schedule_invariant, pool_invariant_init.
  - etrans; [apply schedule_work_left|]. simpl.
    by rewrite work_left_pending.
Qed.

(** Whatever the schedule, the events of each task are a complete run of
    it, and every event belongs to a task. *)
Lemma pool_run_tasks (schedule : list nat) (s : R) :
  let p := pool_run tasks schedule s in
  (∀ i d, tasks !! i = Some d → task_complete d (events_of i (tagged p)))
  ∧ (∀ i ev, (i, ev) ∈ tagged p → (i < length tasks)%nat).
Proof.
  intros p. subst p.
  destruct (pool_run_invariant schedule s) as [_ Hinv].
  pose proof (pool_run_done schedule s) as Hdone. split.
  - intros i d Hd. specialize (Hinv i). rewrite Hd, Hdone in Hinv.
    rewrite lookup_replicate_2 in Hinv by (by eapply lookup_lt_Some).
    exact Hinv.
  - intros i ev Hin. destruct (decide (i < length tasks)%nat) as [|Hge]; [done|].
    specialize (Hinv i). rewrite (proj2 (lookup_ge_None tasks i)) in Hinv
      by lia.
    assert (ev ∈ events_of i (tagged (pool_run tasks schedule s))) as Hev.
    { unfold events_of. apply list_elem_of_omap. exists (i, ev).
      split; [done|]. simpl. by rewrite bool_decide_eq_true_2. }
    rewrite Hinv in Hev. by apply elem_of_nil in Hev.
Qed.

(** *** The schedule that runs one task at a time *)

Lemma find_index_done (f : task_state Doc → bool) (k : nat)
    (l : list (task_state Doc)) :
  f Done = false →
  find_index f (replicate k Done ++ l) = (λ i, k + i) <$> find_index f l.
Proof.
  intros Hf. induction k as [|k IH]; simpl.
  - by destruct (find_index f l).
  - rewrite Hf, IH. by destruct (find_index f l).
Qed.

Lemma lookup_after_done (k : nat) (x : task_state Doc)
    (l : list (task_state Doc)) :
  (replicate k Done ++ x :: l) !! k = Some x.
Proof. apply list_lookup_middle. by rewrite length_replicate. Qed.

Lemma insert_after_done (k : nat) (x y : task_state Doc)
    (l : list (task_state Doc)) :
  <[k := y]> (replicate k Done ++ x :: l) = replicate k Done ++ y :: l.
Proof.
  rewrite insert_app_r_alt by (by rewrite length_replicate).
  by rewrite length_replicate, Nat.sub_diag.
Qed.

Lemma done_after_done (k : nat) (l : list (task_state Doc)) :
  replicate k Done ++ Done :: l = replicate (S k) Done ++ l.
Proof.
  change (Done :: l) with ([Done] ++ l).
  by rewrite app_assoc, <- replicate_cons_app.
Qed.

Lemma next_task_after_done (k m : nat) (x : task_state Doc) :
  is_running x = true ∨ x = Pending →
  next_task (replicate k Done ++ x :: replicate m Pending) = Some k.
Proof.
  intros Hx. unfold next_task. rewrite !find_index_done by done. simpl.
  assert (find_index is_running (replicate m (@Pending Doc)) = None) as ->.
  { induction m as [|m IH]; simpl; [done|]. by rewrite IH. }
  destruct Hx as [Hx| ->]; simpl.
  - rewrite Hx. simpl. f_equal. lia.
  - f_equal. lia.
Qed.

Lemma may_pick_after_done (k m : nat) :
  may_pick (Doc := Doc) k
    (replicate k Done ++ Pending :: replicate m Pending) = true.
Proof.
  unfold may_pick. apply andb_true_intro. split.
  - replace (List.filter is_running _) with (@nil (task_state Doc)); [done|].
    symmetry. apply filter_none_running, Forall_app. split.
    + by apply Forall_replicate.
    + constructor; [done|]. by apply Forall_replicate.
  - rewrite take_app_length' by (by rewrite length_replicate).
    induction k as [|k IH]; [done|]. exact IH.
Qed.

Lemma finish_all_done (fuel k : nat) (s : R) (tr : list (nat * E)) :
  finish tasks fuel (Pool (replicate k Done) s tr) = Pool (replicate k Done) s tr.
Proof.
  destruct fuel as [|fuel]; [done|]. simpl.
  replace (next_task (replicate k Done)) with (@None nat); [done|].
  symmetry. unfold next_task.
  rewrite <- (app_nil_r (replicate k Done)), !find_index_done by done.
  done.
Qed.

Lemma finish_S (fuel : nat) (p : pool R Doc E) :
  finish tasks (S fuel) p
  = match next_task (states p) with
    | Some i => finish tasks fuel (pool_step tasks i p)
    | None => p
    end.
Proof. done. Qed.

Lemma finish_serial (m : nat) :
  ∀ k fuel s tr,
    k + m = length tasks → (4 * m ≤ fuel)%nat →
    let p := finish tasks fuel
               (Pool (replicate k Done ++ replicate m Pending) s tr) in
    states p = replicate (length tasks) Done
    ∧ remote p = (serial_run (drop k tasks) s).1
    ∧ (tagged p).*2 = tr.*2 ++ (serial_run (drop k tasks) s).2.
Proof.
  induction m as [|m IH]; intros k fuel s tr Hk Hfuel; cbv zeta.
  - simpl. rewrite app_nil_r, finish_all_done. simpl.
    rewrite drop_ge by lia. simpl. rewrite app_nil_r.
    by replace (length tasks) with k by lia.
  - destruct (tasks !! k) as [d|] eqn:Hd.
    2:{ apply lookup_ge_None in Hd. lia. }
    rewrite (drop_S _ _ _ Hd). cbn [serial_run replicate].
    destruct fuel as [|[|[|[|fuel]]]]; try lia.
    assert (∀ fuel' s' tr',
              (4 * m ≤ fuel')%nat →
              let p := finish tasks fuel'
                         (Pool (replicate k Done ++ Done
                                :: replicate m Pending) s' tr') in
              states p = replicate (length tasks) Done
              ∧ remote p = (serial_run (drop (S k) tasks) s').1
              ∧ (tagged p).*2
                = tr'.*2 ++ (serial_run (drop (S k) tasks) s').2) as Hnext.
    { intros fuel' s' tr' Hfuel'. rewrite done_after_done.
      apply IH; lia. }
    rewrite finish_S. cbn [states].
    rewrite next_task_after_done by (by right).
    unfold pool_step. cbn [states remote tagged].
    rewrite Hd, lookup_after_done, may_pick_after_done, insert_after_done.
    rewrite finish_S. cbn [states].
    rewrite next_task_after_done by (by left).
    unfold pool_step. cbn [states remote tagged].
    rewrite Hd, lookup_after_done. unfold task_run.
    destruct (task_fetch d s) as [[[cfg etag]|e] s1].
    + rewrite insert_after_done, finish_S. cbn [states].
      rewrite next_task_after_done by (by left).
      unfold pool_step. cbn [states remote tagged].
      rewrite Hd, lookup_after_done.
      destruct (task_write d (task_patch cfg) etag s1) as [[[]|e] s2].
      * rewrite insert_after_done.
        destruct (Hnext (S fuel) s2
                    ((tr ++ [(k, fetch_event d (Ok (cfg, etag)))])
                     ++ [(k, write_event d (task_patch cfg) etag (Ok tt))]))
          as (H1 & H2 & H3); [lia|].
        cbv zeta in H1, H2, H3. rewrite H1, H2, H3.
        split; [done|]. split; [done|].
        rewrite !fmap_app. simpl. by rewrite <- !app_assoc.
      * rewrite insert_after_done, finish_S. cbn [states].
        rewrite next_task_after_done by (by left).
        unfold pool_step. cbn [states remote tagged].
        rewrite Hd, lookup_after_done, insert_after_done.
        destruct (Hnext fuel s2
                    (((tr ++ [(k, fetch_event d (Ok (cfg, etag)))])
                      ++ [(k, write_event d (task_patch cfg) etag (Raise e))])
                     ++ [(k, warning_event d e)]))
          as (H1 & H2 & H3); [lia|].
        cbv zeta in H1, H2, H3. rewrite H1, H2, H3.
        split; [done|]. split; [done|].
        rewrite !fmap_app. simpl. by rewrite <- !app_assoc.
    + rewrite insert_after_done, finish_S. cbn [states].
      rewrite next_task_after_done by (by left).
      unfold pool_step. cbn [states remote tagged].
      rewrite Hd, lookup_after_done, insert_after_done.
      destruct (Hnext (S fuel) s1
                  ((tr ++ [(k, fetch_event d (Raise e))])
                   ++ [(k, warning_event d e)]))
        as (H1 & H2 & H3); [lia|].
      cbv zeta in H1, H2, H3. rewrite H1, H2, H3.
      split; [done|]. split; [done|].
      rewrite !fmap_app. simpl. by rewrite <- !app_assoc.
Qed.

(** With no choice made by the scheduler the pool runs the tasks one
    after the other, in list order. *)
Lemma pool_run_serial (s : R) :
  remote (pool_run tasks [] s) = (serial_run tasks s).1
  ∧ (tagged (pool_run tasks [] s)).*2 = (serial_run tasks s).2.
Proof.
  destruct (finish_serial (length tasks) 0 (4 * length tasks) s [])
    as (_ & H2 & H3); [done|lia|].
  split; [exact H2|exact H3].
Qed.

End WorkerPoolRuns.


(** *** The trace of a pool, task by task *)

Lemma events_of_cons {E} (i j : nat) (ev : E) (tr : list (nat * E)) :
  events_of i ((j, ev) :: tr)
  = (if bool_decide (j = i) then [ev] else []) ++ events_of i tr.
Proof. unfold events_of. simpl. by case_bool_decide. Qed.

Lemma join_one_more {A E} (l : list A) (j : nat) (ev : E)
    (g : nat → list E) :
  (j < length l)%nat →
  mjoin (imap (λ i _, (if bool_decide (j = i) then [ev] else []) ++ g i) l)
  ≡ₚ ev :: mjoin (imap (λ i _, g i) l).
Proof.
  revert j g. induction l as [|x l IH]; intros j g Hj; simpl in Hj; [lia|].
  rewrite !imap_cons. csimpl. destruct j as [|j].
  - case_bool_decide; [|done]. simpl. constructor.
    rewrite (imap_ext _ ((λ i _, g i) ∘ S)); [done|].
    intros i y _. unfold compose. by case_bool_decide.
  - case_bool_decide; [done|]. simpl.
    rewrite (imap_ext _ (λ i _, (if bool_decide (j = i) then [ev] else [])
                                ++ g (S i))).
    + rewrite (IH j (λ i, g (S i))) by lia.
      by rewrite <- Permutation_middle.
    + intros i y _. unfold compose. by repeat case_bool_decide; simplify_eq.
Qed.

(** The trace of a pool is an interleaving of the events of its tasks. *)
Lemma tagged_partition {A E} (l : list A) (tr : list (nat * E)) :
  (∀ i ev, (i, ev) ∈ tr → (i < length l)%nat) →
  tr.*2 ≡ₚ mjoin (imap (λ i _, events_of i tr) l).
Proof.
  induction tr as [|[j ev] tr IH]; intros Htags.
  - simpl. rewrite join_nil_2; [done|].
    apply Forall_forall. intros evs Hevs.
    apply list_elem_of_lookup in Hevs as [i Hi].
    rewrite list_lookup_imap in Hi.
    destruct (l !! i); simpl in Hi; [|done]. by injection Hi as <-.
  - rewrite (imap_ext _ (λ i _, (if bool_decide (j = i) then [ev] else [])
                                ++ events_of i tr)).
    + rewrite join_one_more by (eapply Htags; left).
      simpl. constructor. apply IH. intros i ev' Hin.
      eapply Htags. by right.
    + intros i x _. apply events_of_cons.
Qed.

Lemma omap_join {A B} (f : A → option B) (ls : list (list A)) :
  omap f (mjoin ls) = mjoin (omap f <$> ls).
Proof.
  induction ls as [|l ls IH]; [done|]. csimpl. by rewrite omap_app, IH.
Qed.

Lemma join_singletons {A B} (f : A → B) (l : list A) :
  mjoin ((λ x, [f x]) <$> l) = f <$> l.
Proof. induction l as [|x l IH]; [done|]. csimpl. by rewrite IH. Qed.

(** A count that adds up over concatenation and is one on the events of
    each task is the number of tasks on the whole trace. *)
Lemma join_count {A E} (h : list E → nat) (g : nat → A → list E)
    (l : list A) :
  h [] = 0%nat → (∀ a b, h (a ++ b) = (h a + h b)%nat) →
  (∀ i x, l !! i = Some x → h (g i x) = 1%nat) →
  h (mjoin (imap g l)) = length l.
Proof.
  intros Hnil Happ. revert g. induction l as [|x l IH]; intros g Hg.
  - done.
  - rewrite imap_cons. csimpl. rewrite Happ, (Hg 0%nat x) by done.
    rewrite IH; [done|]. intros i y Hi. by apply (Hg (S i)).
Qed.

Section CloudFrontPool.
Context {R : Type} `{CF : CloudFrontClient R}.

(** A task run alone is an invocation of [process_distribution]. *)
Lemma cycle_task_run (patch : Config.t → Config.t)
    (warn : Resource.t → exn → log_record) (d : Resource.t) (s : R) :
  cycle (Resource.Id d) patch (warn d) s
  = (Ok tt, (task_run (T := cycle_task patch warn) d s).1,
     (task_run (T := cycle_task patch warn) d s).2).
Proof.
  unfold task_run. simpl.
  destruct (cycle_cases (Resource.Id d) patch (warn d) s)
    as [(s1&e&Hf&->)|[(s1&s2&cfg&etag&e&Hf&Hu&->)|(s1&s2&cfg&etag&Hf&Hu&->)]];
    rewrite Hf; simpl; [done|by rewrite Hu..].
Qed.

Lemma cycles_serial_run (patch : Config.t → Config.t)
    (warn : Resource.t → exn → log_record) (l : list Resource.t) (s : R) :
  for_each (λ d, cycle (Resource.Id d) patch (warn d)) l s
  = (Ok tt, (serial_run (T := cycle_task patch warn) l s).1,
     (serial_run (T := cycle_task patch warn) l s).2).
Proof.
  revert s. induction l as [|d l IH]; intros s; [done|].
  rewrite (for_each_cons_ok _ d l s _ _ (cycle_task_run patch warn d s)).
  rewrite IH. done.
Qed.

(** With no choice made by the scheduler, the pool of disable runs the
    invocations one after the other. *)
Lemma disable_serial_schedule (distributions : list Resource.t) (s : R) :
  DistributionDisableAction_process [] distributions s
  = DistributionDisableAction_process_serial distributions s.
Proof.
  unfold DistributionDisableAction_process,
    DistributionDisableAction_workers. cbv zeta.
  destruct (pool_run_serial (T := DistributionDisableAction_task)
              distributions s) as [-> ->].
  symmetry.
  exact (cycles_serial_run (Config.set_Enabled false)
           (λ d, WarningDisable (Resource.ARN d)) distributions s).
Qed.

(** The same for set-protocols. *)
Lemma set_protocols_serial_schedule (data : SetProtocolsData.t)
    (distributions : list Resource.t) (s : R) :
  DistributionSSLAction_process data [] distributions s
  = DistributionSSLAction_process_serial data distributions s.
Proof.
  unfold DistributionSSLAction_process, DistributionSSLAction_workers.
  cbv zeta.
  destruct (pool_run_serial (T := DistributionSSLAction_task data)
              distributions s) as [-> ->].
  symmetry.
  exact (cycles_serial_run (set_protocols_transform data)
           (λ d, WarningForceSsl (Resource.ARN d)) distributions s).
Qed.

(** The facts common to the two pools, for every schedule. *)
Lemma cycle_pool_isolated (patch : Config.t → Config.t)
    (warn : Resource.t → exn → log_record) (schedule : list nat)
    (distributions : list Resource.t) (s : R) :
  (∀ d e, is_warning (Log (warn d e)) = true) →
  let p := pool_run (T := cycle_task patch warn) distributions schedule s in
  states p = replicate (length distributions) Done
  ∧ fetched_ids (tagged p).*2 ≡ₚ Resource.Id <$> distributions
  ∧ length (mutated_ids (tagged p).*2) + count_warnings (tagged p).*2
    = length distributions
  ∧ ∀ i d, distributions !! i = Some d →
      task_complete (T := cycle_task patch warn) d (events_of i (tagged p)).
Proof.
  intros Hw p. subst p.
  destruct (pool_run_tasks (T := cycle_task patch warn) distributions
              schedule s) as [Hshape Htags].
  pose proof (tagged_partition distributions _ Htags) as Hperm.
  split; [apply pool_run_done|]. split; [|split; [|exact Hshape]].
  - unfold fetched_ids. rewrite Hperm, omap_join, fmap_imap.
    rewrite (imap_ext _ (const (λ d, [Resource.Id d]))).
    + by rewrite imap_const, join_singletons.
    + intros i d Hd. unfold compose, const.
      destruct (Hshape i d Hd)
        as [(e&->)|[(cfg&etag&e&->)|(cfg&etag&->)]]; done.
  - unfold count_warnings, mutated_ids. rewrite Hperm.
    apply (join_count
             (λ evs, length (mutated_ids evs) + count_warnings evs)).
    + done.
    + intros a b. rewrite mutated_ids_app, count_warnings_app, !length_app.
      lia.
    + intros i d Hd.
      destruct (Hshape i d Hd)
        as [(e&->)|[(cfg&etag&e&->)|(cfg&etag&->)]];
        try done; unfold count_warnings; simpl;
        rewrite ?filter_cons, ?filter_nil; simpl;
        rewrite (decide_True (P := is_warning (Log (warn d e)) = true))
          by done; done.
Qed.

(** X15.  disable and set-protocols over their pool of two workers, for
    every schedule of the workers' calls and every behaviour of the
    service: the call returns with every task run to its end; the
    distributions fetched are the input distributions, each fetched once,
    in an order that depends on the schedule; accepted writes and logged
    warnings add up to the number of distributions; and the events of
    each task are its fetch, followed by its warning alone when the fetch
    failed, and otherwise by one write of the fetched document with the
    patch applied, conditioned on the fetched ETag, and by its warning
    when the write is rejected. *)
Theorem disable_and_set_protocols_isolate_failures (schedule : list nat)
    (distributions : list Resource.t) (s : R) :
  (let p := DistributionDisableAction_workers schedule distributions s in
   let x := DistributionDisableAction_process schedule distributions s in
   states p = replicate (length distributions) Done
   ∧ outcome x = Ok tt
   ∧ fetched_ids (trace x) ≡ₚ Resource.Id <$> distributions
   ∧ length (mutated_ids (trace x)) + count_warnings (trace x)
     = length distributions
   ∧ ∀ i d, distributions !! i = Some d →
       task_complete (T := DistributionDisableAction_task) d
         (events_of i (tagged p)))
  ∧ ∀ data,
      let q := DistributionSSLAction_workers data schedule distributions s in
      let y := DistributionSSLAction_process data schedule distributions s in
      states q = replicate (length distributions) Done
      ∧ outcome y = Ok tt
      ∧ fetched_ids (trace y) ≡ₚ Resource.Id <$> distributions
      ∧ length (mutated_ids (trace y)) + count_warnings (trace y)
        = length distributions
      ∧ ∀ i d, distributions !! i = Some d →
          task_complete (T := DistributionSSLAction_task data) d
            (events_of i (tagged q)).
Proof.
  split.
  - destruct (cycle_pool_isolated (Config.set_Enabled false)
                (λ d, WarningDisable (Resource.ARN d)) schedule
                distributions s) as (H1 & H2 & H3 & H4); done.
  - intros data.
    destruct (cycle_pool_isolated (set_protocols_transform data)
                (λ d, WarningForceSsl (Resource.ARN d)) schedule
                distributions s) as (H1 & H2 & H3 & H4); done.
Qed.

End CloudFrontPool.

Section StreamingPool.
Context {R : Type} `{SC : StreamingClient R}.

(** A task run alone is an invocation of [process_distribution]. *)
Lemma streaming_task_run (d : Resource.t) (s : R) :
  StreamingDistributionDisableAction_process_distribution d s
  = (Ok tt,
     (task_run (T := StreamingDistributionDisableAction_task) d s).1,
     (task_run (T := StreamingDistributionDisableAction_task) d s).2).
Proof.
  unfold StreamingDistributionDisableAction_process_distribution, task_run.
  simpl.
  destruct (get_streaming_distribution_config (Resource.Id d) s)
    as [[[cfg etag]|e] s1]; [|done].
  by destruct (update_streaming_distribution _ _ etag s1) as [[[]|e] s2].
Qed.

Lemma streaming_counts_app (a b : list streaming_event) :
  length (streaming_mutated_ids (a ++ b)) + streaming_warnings (a ++ b)
  = length (streaming_mutated_ids a) + streaming_warnings a
    + (length (streaming_mutated_ids b) + streaming_warnings b).
Proof.
  unfold streaming_mutated_ids, streaming_warnings.
  rewrite !omap_app, !length_app. lia.
Qed.

(** X21.  Disabling streaming distributions over the pool of two workers,
    for every schedule of the workers' calls and every behaviour of the
    service: the call returns with every task run to its end; the
    distributions fetched are the input distributions, each fetched once,
    in an order that depends on the schedule; accepted writes and logged
    warnings add up to the number of distributions; and the events of
    each task are its fetch, followed by its warning alone when the fetch
    failed, and otherwise by one write of the fetched document with
    ['Enabled'] set to [False], conditioned on the fetched ETag, and by
    its warning when the write is rejected. *)
Theorem streaming_disable_isolates_failures (schedule : list nat)
    (distributions : list Resource.t) (s : R) :
  let p := StreamingDistributionDisableAction_workers schedule
             distributions s in
  let x := StreamingDistributionDisableAction_process schedule
             distributions s in
  states p = replicate (length distributions) Done
  ∧ x.1.1 = Ok tt
  ∧ streaming_fetched_ids x.2 ≡ₚ Resource.Id <$> distributions
  ∧ length (streaming_mutated_ids x.2) + streaming_warnings x.2
    = length distributions
  ∧ ∀ i d, distributions !! i = Some d →
      task_complete (T := StreamingDistributionDisableAction_task) d
        (events_of i (tagged p))
      ∧ streaming_writes_follow_fetch (events_of i (tagged p)).
Proof.
  intros p x. subst p x.
  unfold StreamingDistributionDisableAction_process,
    StreamingDistributionDisableAction_workers. cbv zeta. cbn [fst snd].
  destruct (pool_run_tasks (T := StreamingDistributionDisableAction_task)
              distributions schedule s) as [Hshape Htags].
  pose proof (tagged_partition distributions _ Htags) as Hperm.
  split; [apply pool_run_done|]. split; [done|]. split; [|split].
  - unfold streaming_fetched_ids. rewrite Hperm, omap_join, fmap_imap.
    rewrite (imap_ext _ (const (λ d, [Resource.Id d]))).
    + by rewrite imap_const, join_singletons.
    + intros i d Hd. unfold compose, const.
      destruct (Hshape i d Hd)
        as [(e&->)|[(cfg&etag&e&->)|(cfg&etag&->)]]; done.
  - unfold streaming_mutated_ids, streaming_warnings. rewrite Hperm.
    apply (join_count
             (λ evs, length (streaming_mutated_ids evs)
                     + streaming_warnings evs)).
    + done.
    + apply streaming_counts_app.
    + intros i d Hd.
      destruct (Hshape i d Hd)
        as [(e&->)|[(cfg&etag&e&->)|(cfg&etag&->)]]; done.
  - intros i d Hd. split; [by apply Hshape|].
    destruct (Hshape i d Hd)
      as [(e&->)|[(cfg&etag&e&->)|(cfg&etag&->)]]; simpl; auto.
Qed.

End StreamingPool.

(** ** Runs of the pool against the concrete service *)

Section PoolScenarios.

(** The first worker takes [d1] and is slow to call; the second one works
    through the four other distributions meanwhile.  Every distribution
    is disabled, [d1] last. *)
Lemma disable_pool_out_of_order :
  let schedule := [0; 1; 1; 1; 2; 2; 2; 3; 3; 3; 4; 4; 4]%nat in
  let x := DistributionDisableAction_process schedule Mock.five Mock.quiet in
  outcome x = Ok tt
  ∧ fetched_ids (trace x) = ["d2"; "d3"; "d4"; "d5"; "d1"]
  ∧ mutated_ids (trace x) = ["d2"; "d3"; "d4"; "d5"; "d1"]
  ∧ count_warnings (trace x) = 0%nat.
Proof. repeat split; vm_compute; reflexivity. Qed.

(** The calls of two tasks in progress interleave; a third task is not
    taken before one of the two has ended; the failure of [d3] is logged
    and the four others are disabled, as under every schedule. *)
Lemma disable_pool_interleaved :
  let s := Mock.mk Mock.fleet [] ["d3"] 0 ∅ in
  let schedule := [0; 1; 2; 0; 1; 2; 1; 2; 2]%nat in
  let x := DistributionDisableAction_process schedule Mock.five s in
  outcome x = Ok tt
  ∧ fetched_ids (trace x) = ["d1"; "d2"; "d3"; "d4"; "d5"]
  ∧ mutated_ids (trace x) = ["d2"; "d1"; "d4"; "d5"]
  ∧ count_warnings (trace x) = 1%nat.
Proof. repeat split; vm_compute; reflexivity. Qed.

End PoolScenarios.
